(** * Katzenpost server: mix keys and the PKI cache

    A shallow embedding of [internal/mixkey/mixkey.go] (persistent mix keys
    with their replay store and reference count) and of the PKI cache of
    package [server] (cache entries, incoming and outgoing authentication),
    followed by the properties proved about them.

    Conventions.
    - Go's fixed-width integers are [Z] with the wrap-around written out
      ([wrap64] for [uint64], [wrap32] for [int32], [wrap8] for [uint8]).
    - A byte slice is a [list byte].
    - A bbolt database file is a finite map from bucket names to buckets, a
      bucket a finite map from keys to values; the file system is a finite
      map from paths to database files.
    - Code that can panic or return an error returns an [outcome].
    - What the code reads from its environment (the clock of
      [epochtime.Now], the key produced by [ecdh.NewKeypair]) is passed in as
      an argument of the embedded function. *)

From Stdlib Require Import ZArith Lia List.
From Stdlib.Strings Require Import Byte.
From stdpp Require Import gmap strings list fin_maps pretty.

Local Open Scope Z_scope.

(** ** Bytes and fixed-width integers *)

Abbreviation bytes := (list byte).

#[global] Instance byte_eq_dec : EqDecision byte := Byte.byte_eq_dec.

#[global] Instance byte_countable : Countable byte :=
  inj_countable Byte.to_N Byte.of_N Byte.of_to_N.

Definition x00 : byte := Byte.x00.

(** [uint64] arithmetic wraps modulo 2^64. *)
Definition MaxUint64 : Z := 18446744073709551615.
Definition wrap64 (z : Z) : Z := z mod 18446744073709551616.

(** [int32] arithmetic wraps into [-2^31, 2^31). *)
Definition MaxInt32 : Z := 2147483647.
Definition wrap32 (z : Z) : Z := (z + 2147483648) mod 4294967296 - 2147483648.

(** [uint8] arithmetic wraps modulo 2^8. *)
Definition wrap8 (z : Z) : Z := z mod 256.

Definition byte_to_Z (b : byte) : Z := Z.of_N (Byte.to_N b).

Definition byte_of_Z (z : Z) : byte :=
  match Byte.of_N (Z.to_N (z mod 256)) with
  | Some b => b
  | None => x00
  end.

(** [binary.LittleEndian.Uint64] on the first bytes of a slice. *)
Fixpoint le_decode (b : bytes) : Z :=
  match b with
  | [] => 0
  | x :: rest => byte_to_Z x + 256 * le_decode rest
  end.

Definition Uint64 (b : bytes) : Z := le_decode (take 8 b).

(** [binary.LittleEndian.PutUint64] into an 8-byte array. *)
Fixpoint le_encode (n : nat) (v : Z) : bytes :=
  match n with
  | O => []
  | S n' => byte_of_Z v :: le_encode n' (v / 256)
  end.

Definition PutUint64 (v : Z) : bytes := le_encode 8 v.

(** ** Results of code that can fail *)

Inductive outcome (A : Type) : Type :=
| Ok (a : A)
| Err (e : string)
| Panic (msg : string).

Arguments Ok {A} a.
Arguments Err {A} e.
Arguments Panic {A} msg.

(** ** The persistent store (bbolt) and the file system

    A bucket is a finite map from keys to values; [bolt_Put] below enforces
    the limits bbolt puts on the size of keys and values. Every committed
    transaction is on disk, so a sync changes nothing the model can see and
    is recorded as an effect. *)

Abbreviation Bucket := (gmap bytes bytes).
Abbreviation DbFile := (gmap string (gmap bytes bytes)).

(** What a closing key does to its surroundings, in order. *)
Inductive Effect : Type :=
| DbSync (f : string)
| DbClose (f : string)
| FileRemove (f : string)
| KeyReset.

#[global] Instance Effect_eq_dec : EqDecision Effect.
Proof. solve_decision. Defined.

(** The world outside a key: the files on disk, whether the disk currently
    refuses to commit a write transaction, and the effects performed so far. *)
Record World : Type := mkWorld {
  files : gmap string (gmap string (gmap bytes bytes));
  faulty : bool;
  effects : list Effect
}.

Definition set_files (w : World) (fs : gmap string (gmap string (gmap bytes bytes))) : World :=
  {| files := fs; faulty := faulty w; effects := effects w |}.

Definition emit (w : World) (e : Effect) : World :=
  {| files := files w; faulty := faulty w; effects := effects w ++ [e] |}.

(** The contents of the database behind an open handle. *)
Definition db_contents (w : World) (f : string) : DbFile :=
  default ∅ (files w !! f).

(** [bolt.Open(f, 0600, nil)]: the file is created when it does not exist. *)
Definition bolt_Open (w : World) (f : string) : World * outcome string :=
  if faulty w then (w, Err "bolt: open failed")
  else match files w !! f with
       | Some _ => (w, Ok f)
       | None => (set_files w (<[f := ∅]> (files w)), Ok f)
       end.

(** [db.Update(fn)]: [fn] runs on the contents of the file; what it wrote is
    committed when it returns no error and the disk accepts the commit, and
    rolled back otherwise. The value [fn] leaves in the variables it captured
    is returned next to the new contents. *)
Definition bolt_Update {A : Type} (w : World) (f : string)
    (fn : DbFile -> outcome (DbFile * A)) : World * outcome A :=
  match fn (db_contents w f) with
  | Ok (tx, a) =>
      if faulty w then (w, Err "bolt: commit failed")
      else (set_files w (<[f := tx]> (files w)), Ok a)
  | Err e => (w, Err e)
  | Panic msg => (w, Panic msg)
  end.

(** [tx.CreateBucketIfNotExists(name)]. *)
Definition CreateBucketIfNotExists (tx : DbFile) (name : string) : DbFile * Bucket :=
  match tx !! name with
  | Some bkt => (tx, bkt)
  | None => (<[name := ∅]> tx, ∅)
  end.

(** bbolt's [MaxKeySize] and [MaxValueSize], in bytes. *)
Definition MaxKeySize : Z := 32768.
Definition MaxValueSize : Z := 2147483646.

(** [bkt.Put(key, value)] in a writable transaction: bbolt refuses an empty
    key, a key longer than [MaxKeySize] and a value longer than
    [MaxValueSize], and then returns an error and leaves the bucket as it
    was. The result is the bucket after the call and the error, if any. *)
Definition bolt_Put (bkt : Bucket) (key value : bytes) : Bucket * option string :=
  if decide (length key = 0%nat) then (bkt, Some "key required")
  else if decide (MaxKeySize < Z.of_nat (length key)) then (bkt, Some "key too large")
  else if decide (MaxValueSize < Z.of_nat (length value)) then (bkt, Some "value too large")
  else (<[key := value]> bkt, None).

(** ** Package mixkey *)

Module mixkey.

Definition replayBucket : string := "replay".
Definition metadataBucket : string := "metadata".

(** The operations of [ecdh.PrivateKey] the package uses. *)
Class Ecdh (PrivateKey PublicKey : Type) : Type := {
  ecdh_PublicKey : PrivateKey -> PublicKey;
  ecdh_Bytes : PrivateKey -> bytes;
  ecdh_FromBytes : bytes -> option PrivateKey
}.

Section defs.
Context {PrivateKey PublicKey : Type} {ecdh : Ecdh PrivateKey PublicKey}.

(** [db] is the handle of the open database, named by the path it was opened
    at; [None] is Go's [nil]. *)
Record MixKey : Type := mkMixKey {
  db : option string;
  keypair : option PrivateKey;
  epoch : Z;
  refCount : Z;
  unlinkIfExpired : bool
}.

Definition SetUnlinkIfExpired (k : MixKey) (b : bool) : MixKey :=
  {| db := db k; keypair := keypair k; epoch := epoch k;
     refCount := refCount k; unlinkIfExpired := b |}.

Definition PublicKeyOf (k : MixKey) : option PublicKey :=
  ecdh_PublicKey <$> keypair k.

Definition set_refCount (k : MixKey) (i : Z) : MixKey :=
  {| db := db k; keypair := keypair k; epoch := epoch k;
     refCount := i; unlinkIfExpired := unlinkIfExpired k |}.

(** The counter [IsReplay] computes from what the bucket holds for [tag]. *)
Definition nextSeenCount (bkt : Bucket) (tag : bytes) : Z :=
  let b := default [] (bkt !! tag) in
  let seenCount := if decide (length b = 8%nat) then Uint64 b else 0 in
  let seenCount := wrap64 (seenCount + 1) in
  if decide (seenCount = 0) then MaxUint64 else seenCount.

(** The transaction of [IsReplay]. The counter is written with [bkt.Put],
    whose error the code drops: the function returns nil whatever [Put]
    answered, so the transaction commits and the call reports the counter it
    computed, also when nothing was stored. *)
Definition IsReplay_tx (tag : bytes) (tx : DbFile) : outcome (DbFile * Z) :=
  match tx !! replayBucket with
  | None => Panic "BUG: mixkey: `replay` bucket is missing"
  | Some bkt =>
      let seenCount := nextSeenCount bkt tag in
      let '(bkt, _) := bolt_Put bkt tag (PutUint64 seenCount) in
      Ok (<[replayBucket := bkt]> tx, seenCount)
  end.

Definition IsReplay (w : World) (k : MixKey) (tag : bytes) : World * outcome bool :=
  if decide (length tag = 0%nat) then (w, Ok true)
  else match db k with
       | None => (w, Panic "invalid memory address or nil pointer dereference")
       | Some f =>
           match bolt_Update w f (IsReplay_tx tag) with
           | (w', Ok seenCount) => (w', Ok (negb (seenCount =? 1)))
           | (w', Err e) =>
               (w', Panic ("BUG: mixkey: Failed to query/update the replay counter: " +:+ e))
           | (w', Panic msg) => (w', Panic msg)
           end
       end.

(** [flush] syncs the database. *)
Definition flush (w : World) (f : string) : World := emit w (DbSync f).

(** [forceClose]; [now] is the epoch [epochtime.Now] returns at the call. *)
Definition forceClose (now : Z) (w : World) (k : MixKey) : World * MixKey :=
  let '(w1, d1) :=
    match db k with
    | Some f =>
        let w := flush w f in
        let w := emit w (DbClose f) in
        if unlinkIfExpired k && (epoch k <? wrap64 (now - 1))
        then (emit (set_files w (delete f (files w))) (FileRemove f), None)
        else (w, None)
    | None => (w, None)
    end in
  match keypair k with
  | Some _ =>
      (emit w1 KeyReset,
       {| db := d1; keypair := None; epoch := epoch k;
          refCount := refCount k; unlinkIfExpired := unlinkIfExpired k |})
  | None =>
      (w1,
       {| db := d1; keypair := None; epoch := epoch k;
          refCount := refCount k; unlinkIfExpired := unlinkIfExpired k |})
  end.

(** [Deref]: the count is decremented before it is tested. *)
Definition Deref (now : Z) (w : World) (k : MixKey) : World * MixKey * outcome unit :=
  let i := wrap32 (refCount k - 1) in
  let k := set_refCount k i in
  if decide (i = 0) then
    let '(w', k') := forceClose now w k in (w', k', Ok tt)
  else if decide (i < 0) then
    (w, k, Panic "BUG: mixkey: Refcount is negative")
  else (w, k, Ok tt).

(** [Ref]: the count is incremented before it is tested. *)
Definition Ref (k : MixKey) : MixKey * outcome unit :=
  let i := wrap32 (refCount k + 1) in
  let k := set_refCount k i in
  if decide (i <= 1) then (k, Panic "BUG: mixkey: Refcount was 0 or negative")
  else (k, Ok tt).

Definition versionKey : bytes := String.list_byte_of_string "version".
Definition pkKey : bytes := String.list_byte_of_string "privateKey".
Definition epochKey : bytes := String.list_byte_of_string "epochKey".

(** [filepath.Join(dataDir, fmt.Sprintf("mixkey-%d.db", epoch))], without the
    lexical clean-up [Join] also does. *)
Definition mixkey_path (dataDir : string) (epoch : Z) : string :=
  let name := "mixkey-" +:+ pretty epoch +:+ ".db" in
  if decide (dataDir = "") then name else dataDir +:+ "/" +:+ name.

(** The closure [getUint64] of [New]. *)
Definition getUint64 (bkt : Bucket) (key : bytes) : outcome Z :=
  match bkt !! key with
  | None => Err "mixkey: db missing entry"
  | Some buf =>
      if decide (length buf ≠ 8%nat) then Err "mixkey: db corrupted entry"
      else Ok (Uint64 buf)
  end.

(** The transaction of [New]. It returns the key pair and [didCreate];
    [fresh] is what [ecdh.NewKeypair] returns should it be called ([None]
    when it fails). The three [Put]s of a new key have constant keys of 5 to
    10 bytes and values of 1, 32 and 8 bytes, all within bbolt's limits, so
    they are insertions. *)
Definition New_tx (epoch : Z) (fresh : option PrivateKey) (tx : DbFile)
    : outcome (DbFile * (PrivateKey * bool)) :=
  let '(tx, bkt) := CreateBucketIfNotExists tx metadataBucket in
  let '(tx, _) := CreateBucketIfNotExists tx replayBucket in
  match bkt !! versionKey with
  | Some b =>
      match b with
      | [] => Panic "index out of range"
      | b0 :: _ =>
          if decide (length b ≠ 1%nat ∨ b0 ≠ x00) then Err "mixkey: incompatible version"
          else match bkt !! pkKey with
               | None => Err "mixkey: db missing privateKey entry"
               | Some b =>
                   match ecdh_FromBytes b with
                   | None => Err "ecdh: invalid private key"
                   | Some kp =>
                       match getUint64 bkt epochKey with
                       | Ok dbEpoch =>
                           if decide (dbEpoch ≠ epoch) then Err "mixkey: db epoch mismatch"
                           else Ok (tx, (kp, false))
                       | Err e => Err e
                       | Panic msg => Panic msg
                       end
                   end
               end
      end
  | None =>
      match fresh with
      | None => Err "ecdh: key generation failed"
      | Some kp =>
          let bkt := <[versionKey := [x00]]> bkt in
          let bkt := <[pkKey := ecdh_Bytes kp]> bkt in
          let bkt := <[epochKey := PutUint64 epoch]> bkt in
          Ok (<[metadataBucket := bkt]> tx, (kp, true))
      end
  end.

Definition New (w : World) (dataDir : string) (epoch : Z) (fresh : option PrivateKey)
    : World * outcome MixKey :=
  let f := mixkey_path dataDir epoch in
  match bolt_Open w f with
  | (w, Ok d) =>
      match bolt_Update w d (New_tx epoch fresh) with
      | (w, Ok (kp, didCreate)) =>
          let w := if didCreate then emit w (DbSync d) else w in
          (w, Ok {| db := Some d; keypair := Some kp; epoch := epoch;
                    refCount := 1; unlinkIfExpired := false |})
      | (w, Err e) => (emit w (DbClose d), Err e)
      | (w, Panic msg) => (w, Panic msg)
      end
  | (w, Err e) => (w, Err e)
  | (w, Panic msg) => (w, Panic msg)
  end.

End defs.

Arguments MixKey : clear implicits.

End mixkey.

(** ** Package server: the PKI cache *)

Module server.

(** [constants.NodeIDLength] and [cpki.LayerProvider] of katzenpost/core. *)
Definition NodeIDLength : nat := 32.
Definition LayerProvider : Z := 255.

(** [time.Duration] counts nanoseconds. *)
Definition Minute : Z := 60 * 1000000000.
Definition pkiEarlyConnectSlack : Z := 30 * Minute.
Definition pkiLateConnectSlack : Z := 3 * Minute.
Definition earlySendSlack : Z := 2 * Minute.
Definition lateSendSlack : Z := 2 * Minute.

(** The keys of a descriptor are kept as the bytes their [Bytes()] returns;
    [Layer] is a [uint8]. *)
Record MixDescriptor : Type := mkMixDescriptor {
  Name : string;
  IdentityKey : bytes;
  LinkKey : bytes;
  Layer : Z
}.

Record Document : Type := mkDocument {
  Epoch : Z;
  Topology : list (list MixDescriptor);
  Providers : list MixDescriptor
}.

Record pkiCacheEntry : Type := mkEntry {
  doc : Document;
  self : MixDescriptor;
  incoming : gmap bytes MixDescriptor;
  outgoing : gmap bytes MixDescriptor
}.

(** What the PKI code reads of the [Server]: the bytes of the public identity
    key and three configuration options. *)
Record Server : Type := mkServer {
  identityKey : bytes;
  Identifier : string;
  IsProvider : bool;
  DisableMixAuthentication : bool
}.

Record pki : Type := mkPki {
  s : Server;
  docs : gmap Z pkiCacheEntry
}.

Record PeerCredentials : Type := mkCreds {
  AdditionalData : bytes;
  PublicKey : bytes
}.

(** What [epochtime.Now] returns: the epoch, the time elapsed in it and the
    time remaining till the next one. *)
Record Clock : Type := mkClock {
  now : Z;
  elapsed : Z;
  till : Z
}.

(** [var id [NodeIDLength]byte; copy(id[:], b)]. *)
Definition copyNodeID (b : bytes) : bytes :=
  take NodeIDLength b ++ replicate (NodeIDLength - length b) x00.

Definition isOurLayerSane (e : pkiCacheEntry) (isProvider : bool) : bool :=
  if isProvider && negb (bool_decide (Layer (self e) = LayerProvider)) then false
  else if negb isProvider then
    if decide (Layer (self e) = LayerProvider) then false
    else if decide (Layer (self e) >= Z.of_nat (length (Topology (doc e)))) then false
    else true
  else true.

Definition incomingLayer (e : pkiCacheEntry) : Z :=
  if decide (Layer (self e) = LayerProvider) then
    wrap8 (wrap8 (Z.of_nat (length (Topology (doc e)))) - 1)
  else if decide (Layer (self e) = 0) then LayerProvider
  else wrap8 (Layer (self e) - 1).

Definition outgoingLayer (e : pkiCacheEntry) : Z :=
  if decide (Layer (self e) = Z.of_nat (length (Topology (doc e))) - 1) then LayerProvider
  else if decide (Layer (self e) = LayerProvider) then 0
  else wrap8 (Layer (self e) + 1).

(** The closure [buildMap] of [newPKICacheEntry]. *)
Definition buildMap (d : Document) (layer : Z) (m : gmap bytes MixDescriptor)
    : outcome (gmap bytes MixDescriptor) :=
  let nodes :=
    if decide (layer = LayerProvider) then Some (Providers d)
    else Topology d !! Z.to_nat layer in
  match nodes with
  | None => Panic "index out of range"
  | Some nodes =>
      Ok (foldl (fun m v => <[copyNodeID (IdentityKey v) := v]> m) m nodes)
  end.

Section defs.
(** [Document.GetNodeByKey] of katzenpost/core. *)
Variable GetNodeByKey : Document -> bytes -> outcome MixDescriptor.

Definition newPKICacheEntry (s : Server) (d : Document) : outcome pkiCacheEntry :=
  match GetNodeByKey d (identityKey s) with
  | Err e => Err e
  | Panic msg => Panic msg
  | Ok me =>
      let e := {| doc := d; self := me; incoming := ∅; outgoing := ∅ |} in
      if decide (length (Topology d) = 0%nat) then Err "pki: document is missing Topology"
      else if decide (Identifier s ≠ Name me) then Err "pki: name mismatch in self descriptor"
      else if negb (isOurLayerSane e (IsProvider s)) then Err "pki: self layer is invalid"
      else
        match buildMap d (incomingLayer e) ∅ with
        | Ok inc =>
            match buildMap d (outgoingLayer e) ∅ with
            | Ok out => Ok {| doc := d; self := me; incoming := inc; outgoing := out |}
            | Err e => Err e
            | Panic msg => Panic msg
            end
        | Err e => Err e
        | Panic msg => Panic msg
        end
  end.

End defs.

Definition docsForEpochs (p : pki) (epochs : list Z) : list pkiCacheEntry :=
  omap (fun epoch => docs p !! epoch) epochs.

Definition docsForOutgoing (p : pki) (c : Clock) : list pkiCacheEntry * Z :=
  let epochs := [now c] in
  let epochs :=
    if decide (till c < pkiEarlyConnectSlack) then epochs ++ [wrap64 (now c + 1)]
    else if decide (elapsed c < pkiLateConnectSlack) then epochs ++ [wrap64 (now c - 1)]
    else epochs in
  (docsForEpochs p epochs, now c).

(** The loop of [authenticateIncoming]; [isValid] is the named result as the
    iterations so far have left it. *)
Fixpoint authenticateIncoming_loop (c : Clock) (id pk : bytes)
    (ds : list pkiCacheEntry) (isValid : bool) : bool * bool :=
  match ds with
  | [] => (false, isValid)
  | d :: rest =>
      match incoming d !! id with
      | None => authenticateIncoming_loop c id pk rest isValid
      | Some m =>
          if negb (bool_decide (LinkKey m = pk)) then
            authenticateIncoming_loop c id pk rest isValid
          else if decide (Epoch (doc d) = now c) then (true, true)
          else if decide (Epoch (doc d) = wrap64 (now c + 1)) then
            if decide (till c < earlySendSlack) then (true, true)
            else authenticateIncoming_loop c id pk rest true
          else if decide (Epoch (doc d) = wrap64 (now c - 1)) then
            if decide (elapsed c < lateSendSlack) then (true, true)
            else authenticateIncoming_loop c id pk rest true
          else authenticateIncoming_loop c id pk rest true
      end
  end.

(** [authenticateIncoming] returns [(canSend, isValid)]. *)
Definition authenticateIncoming (p : pki) (c : Clock) (cr : PeerCredentials) : bool * bool :=
  if DisableMixAuthentication (s p) then (true, true)
  else
    let epochs := [now c] in
    let epochs :=
      if decide (till c < pkiEarlyConnectSlack) then epochs ++ [wrap64 (now c + 1)]
      else if decide (elapsed c < pkiLateConnectSlack) then epochs ++ [wrap64 (now c - 1)]
      else epochs in
    if decide (length (AdditionalData cr) ≠ NodeIDLength) then (false, false)
    else
      let id := copyNodeID (AdditionalData cr) in
      authenticateIncoming_loop c id (PublicKey cr) (docsForEpochs p epochs) false.

(** The loop of [authenticateOutgoing], with the named results [desc] and
    [isValid]. *)
Fixpoint authenticateOutgoing_loop (now : Z) (id pk : bytes)
    (ds : list pkiCacheEntry) (desc : option MixDescriptor) (isValid : bool)
    : option MixDescriptor * bool * bool :=
  match ds with
  | [] => (desc, false, isValid)
  | d :: rest =>
      match outgoing d !! id with
      | None => authenticateOutgoing_loop now id pk rest desc isValid
      | Some m =>
          if negb (bool_decide (LinkKey m = pk)) then
            authenticateOutgoing_loop now id pk rest desc isValid
          else if decide (Epoch (doc d) = now) then (Some m, true, true)
          else authenticateOutgoing_loop now id pk rest (Some m) true
      end
  end.

(** [authenticateOutgoing] returns [(desc, canSend, isValid)]. *)
Definition authenticateOutgoing (p : pki) (c : Clock) (cr : PeerCredentials)
    : option MixDescriptor * bool * bool :=
  if DisableMixAuthentication (s p) then (None, true, true)
  else
    let id := copyNodeID (AdditionalData cr) in
    let '(ds, now) := docsForOutgoing p c in
    authenticateOutgoing_loop now id (PublicKey cr) ds None false.

(** *** The rest of the cache: fetching, pruning, destinations *)

Definition nextFetchTill : Z := 45 * Minute.

(** [documentsToFetch]. *)
Definition documentsToFetch (p : pki) (c : Clock) : list Z :=
  let ret := [] in
  let ret := if decide (docs p !! now c = None) then ret ++ [now c] else ret in
  if decide (till c < nextFetchTill) then
    if decide (docs p !! wrap64 (now c + 1) = None) then ret ++ [wrap64 (now c + 1)]
    else ret
  else ret.

(** The loop of [pruneDocuments] over the epochs of the cache in the order
    [range] yields them; a deletion takes effect at once. *)
Fixpoint pruneDocuments_loop (now : Z) (epochs : list Z) (m : gmap Z pkiCacheEntry)
    : gmap Z pkiCacheEntry :=
  match epochs with
  | [] => m
  | epoch :: rest =>
      let m := if decide (epoch < now) then delete epoch m else m in
      pruneDocuments_loop now rest m
  end.

(** [isValidForwardDest]; in the map of the code a listed id has a
    descriptor that is not nil. *)
Definition isValidForwardDest (p : pki) (c : Clock) (id : bytes) : bool :=
  if DisableMixAuthentication (s p) then true
  else match docs p !! now c with
       | None => false
       | Some doc => bool_decide (is_Some (outgoing doc !! id))
       end.

(** The inner loop of [outgoingDestinations] over the descriptors of one
    entry, in the order [range] yields them. *)
Definition addDestinations (descMap : gmap bytes MixDescriptor) (vs : list MixDescriptor)
    : gmap bytes MixDescriptor :=
  foldl (fun m v =>
           let id := copyNodeID (IdentityKey v) in
           match m !! id with
           | Some _ => m
           | None => <[id := v]> m
           end) descMap vs.

Section ranges.
(** The order in which [range] yields the epochs of the cache and the
    descriptors of a map; Go leaves it open. *)
Variable range_epochs : gmap Z pkiCacheEntry -> list Z.
Variable range_values : gmap bytes MixDescriptor -> list MixDescriptor.

Definition pruneDocuments (p : pki) (c : Clock) : pki :=
  {| s := s p; docs := pruneDocuments_loop (now c) (range_epochs (docs p)) (docs p) |}.

Definition outgoingDestinations (p : pki) (c : Clock) : gmap bytes MixDescriptor :=
  let '(ds, _) := docsForOutgoing p c in
  foldl (fun descMap d => addDestinations descMap (range_values (outgoing d))) ∅ ds.

(** What one round of the loop of [worker] leaves. *)
Inductive round : Type :=
| Canceled
| Crashed (msg : string)
| Fetched (p : pki) (didUpdate : bool).

Section worker.
Variable GetNodeByKey : Document -> bytes -> outcome MixDescriptor.
(** [p.impl.Get(pkiCtx, epoch)], and whether the context was canceled by the
    time it returned. *)
Variable Get : Z -> outcome Document.
Variable isCanceled : Z -> bool.

(** The fetch loop of [worker] over the epochs [documentsToFetch] returned. *)
Fixpoint worker_fetch (p : pki) (epochs : list Z) (didUpdate : bool) : round :=
  match epochs with
  | [] => Fetched p didUpdate
  | epoch :: rest =>
      let r := Get epoch in
      if isCanceled epoch then Canceled
      else match r with
           | Panic msg => Crashed msg
           | Err _ => worker_fetch p rest didUpdate
           | Ok d =>
               match newPKICacheEntry GetNodeByKey (s p) d with
               | Panic msg => Crashed msg
               | Err _ => worker_fetch p rest didUpdate
               | Ok ent =>
                   worker_fetch {| s := s p; docs := <[epoch := ent]> (docs p) |} rest true
               end
           end
  end.

(** One round of [worker] past the timer: fetch, then prune when something
    was fetched. [c] is the clock [documentsToFetch] reads and [c'] the one
    [pruneDocuments] reads. The kick the connector gets after an update and
    the resetting of the timer are left out. *)
Definition worker_round (p : pki) (c c' : Clock) : round :=
  match worker_fetch p (documentsToFetch p c) false with
  | Fetched p' true => Fetched (pruneDocuments p' c') true
  | other => other
  end.

End worker.
End ranges.

(** [newPKI], without the logger and the channel. *)
Definition newPKI (srv : Server) : pki := {| s := srv; docs := ∅ |}.

(** *** The data directory

    A disk is a finite map from paths to file modes. An [os.FileMode] holds
    the permission bits and, at bit 31, [os.ModeDir]. *)

Definition ModeDir : Z := 2147483648.
Definition dirMode : Z := Z.lor ModeDir 448.

(** [fi.IsDir()]. *)
Definition IsDir (mode : Z) : bool := Z.testbit mode 31.

(** [initDataDir] on the directory [d]. [stat_error] is the error [os.Lstat]
    fails with for a reason other than the path not existing, and
    [mkdir_error] the one [os.Mkdir] fails with, when they do; a directory
    that [os.Mkdir] creates has the mode asked for. *)
Definition initDataDir (d : string) (stat_error mkdir_error : option string)
    (disk : gmap string Z) : gmap string Z * outcome unit :=
  match stat_error with
  | Some e => (disk, Err ("server: failed to stat() DataDir: " +:+ e))
  | None =>
      match disk !! d with
      | None =>
          match mkdir_error with
          | Some e => (disk, Err ("server: failed to create DataDir: " +:+ e))
          | None => (<[d := dirMode]> disk, Ok tt)
          end
      | Some mode =>
          if negb (IsDir mode) then (disk, Err "server: DataDir is not a directory")
          else if decide (mode ≠ dirMode) then
            (disk, Err "server: DataDir has invalid permissions")
          else (disk, Ok tt)
      end
  end.

End server.

(** * Properties *)

(** ** Vocabulary of the statements about mix keys *)

(** The counter a replay bucket stores for a tag: the little-endian value of
    an 8-byte entry, zero when there is no such entry. *)
Definition storedCount (bkt : gmap bytes bytes) (tag : bytes) : Z :=
  match bkt !! tag with
  | Some b => if decide (length b = 8%nat) then Uint64 b else 0
  | None => 0
  end.

(** The replay bucket of the database at path [f]. *)
Definition replay_bucket (w : World) (f : string) : option (gmap bytes bytes) :=
  db_contents w f !! mixkey.replayBucket.

(** A tag the store accepts as a key: at most [MaxKeySize] bytes long. *)
Definition storable (tag : bytes) : Prop := Z.of_nat (length tag) <= MaxKeySize.

#[global] Instance storable_dec (tag : bytes) : Decision (storable tag).
Proof. unfold storable. apply _. Defined.

(** A tag one byte longer than the store accepts. *)
Definition oversize_tag : bytes := replicate (Z.to_nat (MaxKeySize + 1)) Byte.x01.

Section mixkey_vocabulary.
Context {PrivateKey PublicKey : Type} {ecdh : mixkey.Ecdh PrivateKey PublicKey}.

(** Consecutive [IsReplay] calls on one key, with their results. *)
Fixpoint IsReplay_all (w : World) (k : mixkey.MixKey PrivateKey) (tags : list bytes)
    : World * list (outcome bool) :=
  match tags with
  | [] => (w, [])
  | t :: ts =>
      let '(w1, r) := mixkey.IsReplay w k t in
      let '(w2, rs) := IsReplay_all w1 k ts in
      (w2, r :: rs)
  end.

End mixkey_vocabulary.

(** Key pairs given by their raw bytes; the worked examples use them. *)
Definition raw_Ecdh : mixkey.Ecdh bytes bytes :=
  {| mixkey.ecdh_PublicKey := fun b => rev b;
     mixkey.ecdh_Bytes := fun b => b;
     mixkey.ecdh_FromBytes := fun b => Some b |}.

(** An empty, healthy disk. *)
Definition empty_world : World := {| files := ∅; faulty := false; effects := [] |}.

(** A disk holding one database with an empty replay bucket, and an open key
    on it. *)
Definition example_world : World :=
  {| files := {[ "data/mixkey-7.db" := {[ mixkey.replayBucket := ∅ ]} ]};
     faulty := false;
     effects := [] |}.

Definition example_key : mixkey.MixKey bytes :=
  {| mixkey.db := Some "data/mixkey-7.db"; mixkey.keypair := Some [Byte.x2a];
     mixkey.epoch := 7; mixkey.refCount := 1; mixkey.unlinkIfExpired := false |}.

(** The same disk after bit-rot: the counter stored for the tag [02] is one
    byte long. *)
Definition corrupt_world : World :=
  {| files := {[ "data/mixkey-7.db" :=
                   {[ mixkey.replayBucket := {[ [Byte.x02] := [Byte.x05] ]} ]} ]};
     faulty := false;
     effects := [] |}.

(** Calls on the reference count of a key; a [Deref] reads the clock. *)
Inductive refop : Type :=
| OpRef
| OpDeref (now : Z).

(** How far a sequence of calls moves the count, were nothing to wrap. *)
Fixpoint depth (ops : list refop) : Z :=
  match ops with
  | [] => 0
  | OpRef :: rest => 1 + depth rest
  | OpDeref _ :: rest => depth rest - 1
  end.

(** The number of [Ref] calls in a sequence. *)
Fixpoint refs (ops : list refop) : Z :=
  match ops with
  | [] => 0
  | OpRef :: rest => 1 + refs rest
  | OpDeref _ :: rest => refs rest
  end.

(** How often the database at [f] has been closed. *)
Definition closes (w : World) (f : string) : nat :=
  length (filter (fun e => e = DbClose f) (effects w)).

Section refcount_vocabulary.
Context {PrivateKey : Type}.

(** Consecutive calls on one key; a panic ends the run. *)
Fixpoint run_refops (w : World) (k : mixkey.MixKey PrivateKey) (ops : list refop)
    : World * mixkey.MixKey PrivateKey * outcome unit :=
  match ops with
  | [] => (w, k, Ok tt)
  | OpRef :: rest =>
      match mixkey.Ref k with
      | (k', Ok _) => run_refops w k' rest
      | (k', r) => (w, k', r)
      end
  | OpDeref now :: rest =>
      match mixkey.Deref now w k with
      | (w', k', Ok _) => run_refops w' k' rest
      | other => other
      end
  end.

End refcount_vocabulary.

(** [n] calls of [Ref], the [n] calls of [Deref] that balance them, and the
    [Deref] of the reference held since [New]. *)
Definition refs_then_derefs (n : Z) (now : Z) : list refop :=
  replicate (Z.to_nat n) OpRef ++ replicate (Z.to_nat n) (OpDeref now) ++ [OpDeref now].

Section roundtrip_vocabulary.
Context {PrivateKey PublicKey : Type} {ecdh : mixkey.Ecdh PrivateKey PublicKey}.

(** A database file holds the key pair [kp] for the epoch [e]: version zero,
    a private key entry that deserialises to [kp], the epoch, and a replay
    bucket. *)
Definition holds_key (file : gmap string (gmap bytes bytes)) (kp : PrivateKey) (e : Z) : Prop :=
  ∃ (meta : gmap bytes bytes) (b : bytes),
    file !! mixkey.metadataBucket = Some meta
    ∧ meta !! mixkey.versionKey = Some [x00]
    ∧ meta !! mixkey.pkKey = Some b
    ∧ mixkey.ecdh_FromBytes b = Some kp
    ∧ mixkey.getUint64 meta mixkey.epochKey = Ok e
    ∧ is_Some (file !! mixkey.replayBucket).

End roundtrip_vocabulary.

(** ** Vocabulary of the statements about the PKI cache *)

(** The epochs whose cached documents an authentication consults: the
    current one; the next one when less than 30 minutes remain; failing
    that, the previous one when less than 3 minutes have elapsed. *)
Definition searchSet (c : server.Clock) : list Z :=
  server.now c ::
    (if decide (server.till c < 30 * server.Minute) then [wrap64 (server.now c + 1)]
     else if decide (server.elapsed c < 3 * server.Minute) then [wrap64 (server.now c - 1)]
     else []).

(** The peer [id] is listed in a map of descriptors with the link key [pk]. *)
Definition listed (m : gmap bytes server.MixDescriptor) (id pk : bytes) : Prop :=
  ∃ v, m !! id = Some v ∧ server.LinkKey v = pk.

(** An entry whose document is for the current epoch, for the next one with
    less than 2 minutes remaining, or for the previous one with less than 2
    minutes elapsed. *)
Definition sendGrace (c : server.Clock) (e : server.pkiCacheEntry) : Prop :=
  server.Epoch (server.doc e) = server.now c
  ∨ (server.Epoch (server.doc e) = wrap64 (server.now c + 1)
     ∧ server.till c < 2 * server.Minute)
  ∨ (server.Epoch (server.doc e) = wrap64 (server.now c - 1)
     ∧ server.elapsed c < 2 * server.Minute).

(** The entries the cache holds at the epochs of the search set. *)
Definition searched (p : server.pki) (c : server.Clock) (e : server.pkiCacheEntry) : Prop :=
  ∃ epoch, epoch ∈ searchSet c ∧ server.docs p !! epoch = Some e.

(** The layer peers connect from, as the specification words it: the
    providers for layer 0, the last layer of the topology for a provider, the
    layer below otherwise. *)
Definition incomingNodes (d : server.Document) (me : server.MixDescriptor)
    : list server.MixDescriptor :=
  if decide (server.Layer me = 0) then server.Providers d
  else if decide (server.Layer me = server.LayerProvider) then
    default [] (last (server.Topology d))
  else default [] (server.Topology d !! Z.to_nat (server.Layer me - 1)).

(** The layer the node connects to, as the specification words it: the
    providers for the last layer of the topology, layer 0 for a provider, the
    layer above otherwise. *)
Definition outgoingNodes (d : server.Document) (me : server.MixDescriptor)
    : list server.MixDescriptor :=
  if decide (server.Layer me = server.LayerProvider) then
    default [] (server.Topology d !! 0%nat)
  else if decide (server.Layer me = Z.of_nat (length (server.Topology d)) - 1) then
    server.Providers d
  else default [] (server.Topology d !! Z.to_nat (server.Layer me + 1)).

(** The node id [n] is the identity of a descriptor of the list: its identity
    key as [buildMap] copies it into a node id, which is the key itself when
    it has the 32 bytes of one. *)
Definition identity_in (n : bytes) (nodes : list server.MixDescriptor) : Prop :=
  ∃ v, v ∈ nodes ∧ server.copyNodeID (server.IdentityKey v) = n.

(** A lookup by identity key through the layers and then the providers; the
    worked examples use it for [GetNodeByKey]. *)
Definition findNode (d : server.Document) (key : bytes) : outcome server.MixDescriptor :=
  match list_find (fun v => server.IdentityKey v = key)
          (concat (server.Topology d) ++ server.Providers d) with
  | Some (_, v) => Ok v
  | None => Err "pki: node not found"
  end.

Definition node (name : string) (key : byte) (layer : Z) : server.MixDescriptor :=
  {| server.Name := name; server.IdentityKey := replicate 32 key;
     server.LinkKey := replicate 32 key; server.Layer := layer |}.

(** A provider named [gate] and a document of 256 layers, the last of which
    holds one mix. *)
Definition gate_server : server.Server :=
  {| server.identityKey := replicate 32 Byte.x01; server.Identifier := "gate";
     server.IsProvider := true; server.DisableMixAuthentication := false |}.

Definition tall_document : server.Document :=
  {| server.Epoch := 100;
     server.Topology := replicate 255 [] ++ [[node "mix" Byte.x02 255]];
     server.Providers := [node "gate" Byte.x01 255] |}.

(** A document of three layers with one mix each, and the same provider. *)
Definition small_document : server.Document :=
  {| server.Epoch := 100;
     server.Topology := [[node "a" Byte.x0a 0]; [node "b" Byte.x0b 1]; [node "c" Byte.x0c 2]];
     server.Providers := [node "gate" Byte.x01 255] |}.

(** The entry the code builds for the provider from the small document. *)
Definition small_entry : server.pkiCacheEntry :=
  {| server.doc := small_document;
     server.self := node "gate" Byte.x01 255;
     server.incoming := {[ replicate 32 Byte.x0c := node "c" Byte.x0c 2 ]};
     server.outgoing := {[ replicate 32 Byte.x0a := node "a" Byte.x0a 0 ]} |}.

(** A cache that holds one document, for epoch 101, which lists the peer
    [x] as incoming; the credentials of [x]; and clocks in epoch 100. *)
Definition next_entry : server.pkiCacheEntry :=
  {| server.doc := {| server.Epoch := 101;
                      server.Topology := [[node "x" Byte.x07 0]; [node "me" Byte.x09 1]];
                      server.Providers := [node "gate" Byte.x01 255] |};
     server.self := node "me" Byte.x09 1;
     server.incoming := {[ replicate 32 Byte.x07 := node "x" Byte.x07 0 ]};
     server.outgoing := {[ replicate 32 Byte.x01 := node "gate" Byte.x01 255 ]} |}.

Definition next_only_cache : server.pki :=
  {| server.s := {| server.identityKey := replicate 32 Byte.x09;
                    server.Identifier := "me"; server.IsProvider := false;
                    server.DisableMixAuthentication := false |};
     server.docs := {[ 101 := next_entry ]} |}.

Definition creds_x : server.PeerCredentials :=
  {| server.AdditionalData := replicate 32 Byte.x07;
     server.PublicKey := replicate 32 Byte.x07 |}.

Definition creds_gate : server.PeerCredentials :=
  {| server.AdditionalData := replicate 32 Byte.x01;
     server.PublicKey := replicate 32 Byte.x01 |}.

Definition creds_short : server.PeerCredentials :=
  {| server.AdditionalData := [Byte.x07]; server.PublicKey := replicate 32 Byte.x07 |}.

(** The start of epoch 100 with epochs of one hour, and its last minute. *)
Definition epoch_start : server.Clock :=
  {| server.now := 100; server.elapsed := 0; server.till := 60 * server.Minute |}.

Definition epoch_end : server.Clock :=
  {| server.now := 100; server.elapsed := 59 * server.Minute; server.till := server.Minute |}.

(** The keys of a map of descriptors are the node ids of its descriptors. *)
Definition keyed_by_identity (m : gmap bytes server.MixDescriptor) : Prop :=
  ∀ k v, m !! k = Some v -> server.copyNodeID (server.IdentityKey v) = k.

(** One order in which a map can be ranged over: that of its list of
    entries. *)
Definition keys_in_order (m : gmap Z server.pkiCacheEntry) : list Z :=
  (map_to_list m).*1.

Definition values_in_order (m : gmap bytes server.MixDescriptor) : list server.MixDescriptor :=
  (map_to_list m).*2.

(** Caches that hold one document, for epoch 99 and for epoch 100, which
    list the peer [x] as incoming and the provider as outgoing. *)
Definition entry_for (epoch : Z) : server.pkiCacheEntry :=
  {| server.doc := {| server.Epoch := epoch;
                      server.Topology := [[node "x" Byte.x07 0]; [node "me" Byte.x09 1]];
                      server.Providers := [node "gate" Byte.x01 255] |};
     server.self := node "me" Byte.x09 1;
     server.incoming := {[ replicate 32 Byte.x07 := node "x" Byte.x07 0 ]};
     server.outgoing := {[ replicate 32 Byte.x01 := node "gate" Byte.x01 255 ]} |}.

Definition cache_of (epoch : Z) : server.pki :=
  {| server.s := {| server.identityKey := replicate 32 Byte.x09;
                    server.Identifier := "me"; server.IsProvider := false;
                    server.DisableMixAuthentication := false |};
     server.docs := {[ epoch := entry_for epoch ]} |}.

(** One minute into epoch 100. *)
Definition epoch_early : server.Clock :=
  {| server.now := 100; server.elapsed := server.Minute; server.till := 59 * server.Minute |}.

(** A PKI client that has the document of epoch 100 and no other. *)
Definition fetch_100 (epoch : Z) : outcome server.Document :=
  if decide (epoch = 100) then Ok (server.doc (entry_for 100))
  else Err "pki: no such document".

(** A disk that holds the database of a key for epoch 7. *)
Definition stored_metadata : gmap bytes bytes :=
  {[ mixkey.versionKey := [x00]; mixkey.pkKey := [Byte.x2a];
     mixkey.epochKey := PutUint64 7 ]}.

Definition stored_world : World :=
  {| files := {[ "data/mixkey-7.db" :=
                   {[ mixkey.metadataBucket := stored_metadata;
                      mixkey.replayBucket := ∅ ]} ]};
     faulty := false;
     effects := [] |}.

(** ** The integer codecs *)

Lemma byte_to_Z_range (b : byte) : 0 <= byte_to_Z b < 256.
Proof.
  unfold byte_to_Z. pose proof (Byte.to_N_bounded b) as Hb. lia.
Qed.

Lemma byte_to_of_Z (z : Z) : byte_to_Z (byte_of_Z z) = z mod 256.
Proof.
  unfold byte_to_Z, byte_of_Z.
  assert (Hr : 0 <= z mod 256 < 256) by (apply Z.mod_pos_bound; lia).
  destruct (Byte.of_N (Z.to_N (z mod 256))) as [b|] eqn:Hb.
  - apply Byte.to_of_N in Hb. rewrite Hb. lia.
  - apply Byte.of_N_None_iff in Hb. lia.
Qed.

Lemma le_encode_length (n : nat) (v : Z) : length (le_encode n v) = n.
Proof. revert v. induction n as [|n IH]; intros v; simpl; [done | by rewrite IH]. Qed.

Lemma le_decode_encode (n : nat) (v : Z) :
  0 <= v -> le_decode (le_encode n v) = v mod 256 ^ Z.of_nat n.
Proof.
  revert v. induction n as [|n IH]; intros v Hv.
  - simpl. by rewrite Z.mod_1_r.
  - cbn [le_encode le_decode]. rewrite byte_to_of_Z, IH by (apply Z.div_pos; lia).
    rewrite Nat2Z.inj_succ, Z.pow_succ_r by lia.
    rewrite Z.rem_mul_r by lia. lia.
Qed.

Lemma le_decode_range (b : bytes) : 0 <= le_decode b < 256 ^ Z.of_nat (length b).
Proof.
  induction b as [|x b IH].
  - simpl. lia.
  - cbn [le_decode length]. rewrite Nat2Z.inj_succ, Z.pow_succ_r by lia.
    pose proof (byte_to_Z_range x). lia.
Qed.

Lemma PutUint64_length (v : Z) : length (PutUint64 v) = 8%nat.
Proof. apply le_encode_length. Qed.

Lemma Uint64_PutUint64 (v : Z) : 0 <= v <= MaxUint64 -> Uint64 (PutUint64 v) = v.
Proof.
  intros Hv. unfold Uint64, PutUint64.
  rewrite take_ge by (rewrite le_encode_length; lia).
  rewrite le_decode_encode by lia.
  apply Z.mod_small. unfold MaxUint64 in Hv. simpl. lia.
Qed.

Lemma Uint64_range (b : bytes) : 0 <= Uint64 b <= MaxUint64.
Proof.
  unfold Uint64. pose proof (le_decode_range (take 8 b)) as Hr.
  assert (Hl : (length (take 8 b) <= 8)%nat) by (rewrite length_take; lia).
  assert (256 ^ Z.of_nat (length (take 8 b)) <= 256 ^ 8)
    by (apply Z.pow_le_mono_r; lia).
  unfold MaxUint64. change (256 ^ 8) with 18446744073709551616 in *. lia.
Qed.

Lemma storedCount_range (bkt : gmap bytes bytes) (tag : bytes) :
  0 <= storedCount bkt tag <= MaxUint64.
Proof.
  unfold storedCount. destruct (bkt !! tag) as [b|]; [|unfold MaxUint64; lia].
  case_decide; [apply Uint64_range | unfold MaxUint64; lia].
Qed.

(** ** The replay store *)

Section replay.
Context {PrivateKey PublicKey : Type} {ecdh : mixkey.Ecdh PrivateKey PublicKey}.
Implicit Types (w : World) (k : mixkey.MixKey PrivateKey) (tag : bytes) (f : string).

Lemma nextSeenCount_stored (bkt : gmap bytes bytes) tag :
  mixkey.nextSeenCount bkt tag = Z.min (storedCount bkt tag + 1) MaxUint64.
Proof.
  pose proof (storedCount_range bkt tag) as Hr.
  unfold mixkey.nextSeenCount, storedCount in *.
  destruct (bkt !! tag) as [b|]; simpl in *.
  - destruct (decide (length b = 8%nat)); unfold wrap64, MaxUint64 in *.
    + destruct (decide (Uint64 b = 18446744073709551615)) as [->|Hne].
      * reflexivity.
      * rewrite Z.mod_small by lia. case_decide; lia.
    + reflexivity.
  - reflexivity.
Qed.

Lemma storedCount_insert (bkt : gmap bytes bytes) tag (v : Z) :
  0 <= v <= MaxUint64 -> storedCount (<[tag := PutUint64 v]> bkt) tag = v.
Proof.
  intros Hv. unfold storedCount. rewrite lookup_insert_eq.
  rewrite decide_True by apply PutUint64_length. by apply Uint64_PutUint64.
Qed.

Lemma storedCount_insert_ne (bkt : gmap bytes bytes) tag tag' (b : bytes) :
  tag ≠ tag' -> storedCount (<[tag := b]> bkt) tag' = storedCount bkt tag'.
Proof. intros Hne. unfold storedCount. by rewrite lookup_insert_ne. Qed.

Lemma bolt_Put_counter (bkt : gmap bytes bytes) tag (v : Z) :
  tag ≠ [] ->
  (bolt_Put bkt tag (PutUint64 v)).1
  = if decide (storable tag) then <[tag := PutUint64 v]> bkt else bkt.
Proof.
  intros Htag. unfold bolt_Put.
  destruct (decide (length tag = 0%nat)) as [Hl|_]; [by destruct tag|].
  destruct (decide (storable tag)) as [Hfits|Hbig]; unfold storable in *.
  - rewrite (decide_False (P := MaxKeySize < Z.of_nat (length tag))) by lia.
    destruct (decide (MaxValueSize < Z.of_nat (length (PutUint64 v)))) as [Hv|_]; [|done].
    rewrite PutUint64_length in Hv. unfold MaxValueSize in Hv. lia.
  - by rewrite (decide_True (P := MaxKeySize < Z.of_nat (length tag))) by lia.
Qed.

Lemma oversize_tag_length : Z.of_nat (length oversize_tag) = MaxKeySize + 1.
Proof. unfold oversize_tag. rewrite length_replicate. unfold MaxKeySize. lia. Qed.

Lemma oversize_tag_not_storable : ¬ storable oversize_tag.
Proof. unfold storable. rewrite oversize_tag_length. lia. Qed.

Lemma oversize_tag_nonempty : oversize_tag ≠ [].
Proof.
  intros Heq. pose proof oversize_tag_length as Hl. rewrite Heq in Hl.
  unfold MaxKeySize in Hl. cbn in Hl. lia.
Qed.

(** One call on an open key over a healthy disk: the verdict is whether the
    stored counter was nonzero. When the store accepts the tag as a key the
    counter moves up by one, stopping at the maximum, and nothing else in the
    bucket changes; when it does not, the bucket stays as it was. *)
Lemma IsReplay_step w k f (bkt : gmap bytes bytes) tag :
  tag ≠ [] ->
  mixkey.db k = Some f ->
  faulty w = false ->
  replay_bucket w f = Some bkt ->
  ∃ w',
    mixkey.IsReplay w k tag = (w', Ok (bool_decide (storedCount bkt tag ≠ 0)))
    ∧ faulty w' = false
    ∧ replay_bucket w' f
      = Some (if decide (storable tag)
              then <[tag := PutUint64 (Z.min (storedCount bkt tag + 1) MaxUint64)]> bkt
              else bkt).
Proof.
  intros Htag Hdb Hok Hbkt.
  unfold mixkey.IsReplay. rewrite decide_False by (by destruct tag).
  rewrite Hdb. unfold bolt_Update, mixkey.IsReplay_tx.
  unfold replay_bucket in Hbkt. rewrite Hbkt.
  pose proof (bolt_Put_counter bkt tag (mixkey.nextSeenCount bkt tag) Htag) as Hput.
  destruct (bolt_Put bkt tag (PutUint64 (mixkey.nextSeenCount bkt tag))) as [bkt' err].
  cbn [fst] in Hput. subst bkt'. rewrite Hok.
  eexists. split; [|split].
  - f_equal. f_equal. rewrite nextSeenCount_stored.
    pose proof (storedCount_range bkt tag) as Hr. unfold MaxUint64 in *.
    destruct (decide (storedCount bkt tag = 0)) as [->|Hne].
    + by rewrite bool_decide_false by tauto.
    + rewrite bool_decide_true by done.
      apply negb_true_iff, Z.eqb_neq. lia.
  - done.
  - unfold replay_bucket, db_contents. simpl.
    rewrite lookup_insert_eq. simpl. rewrite lookup_insert_eq.
    by rewrite nextSeenCount_stored.
Qed.

(** After a call on a tag the store accepts, the counter of the tag is
    nonzero; a tag the store refuses keeps the counter it had. Either way the
    entries of the other tags are what they were. *)
Lemma IsReplay_step_counts w k f (bkt : gmap bytes bytes) tag :
  tag ≠ [] ->
  mixkey.db k = Some f ->
  faulty w = false ->
  replay_bucket w f = Some bkt ->
  ∃ w' (bkt' : gmap bytes bytes),
    mixkey.IsReplay w k tag = (w', Ok (bool_decide (storedCount bkt tag ≠ 0)))
    ∧ faulty w' = false
    ∧ replay_bucket w' f = Some bkt'
    ∧ storedCount bkt' tag
      = (if decide (storable tag) then Z.min (storedCount bkt tag + 1) MaxUint64
         else storedCount bkt tag)
    ∧ (∀ t, t ≠ tag -> bkt' !! t = bkt !! t).
Proof.
  intros Htag Hdb Hok Hbkt.
  destruct (IsReplay_step w k f bkt tag) as (w' & Hr & Hok' & Hbkt'); try done.
  exists w'. eexists. split_and!; try done.
  - pose proof (storedCount_range bkt tag). case_decide; [|done].
    apply storedCount_insert. lia.
  - intros t Ht. case_decide; [|done]. by rewrite lookup_insert_ne.
Qed.

(** Which counters are nonzero after one call. *)
Lemma IsReplay_step_marks w k f (bkt : gmap bytes bytes) tag :
  tag ≠ [] ->
  mixkey.db k = Some f ->
  faulty w = false ->
  replay_bucket w f = Some bkt ->
  ∃ w' (bkt' : gmap bytes bytes),
    mixkey.IsReplay w k tag = (w', Ok (bool_decide (storedCount bkt tag ≠ 0)))
    ∧ faulty w' = false
    ∧ replay_bucket w' f = Some bkt'
    ∧ (∀ t, storedCount bkt' t ≠ 0 ↔ storedCount bkt t ≠ 0 ∨ (t = tag ∧ storable tag))
    ∧ (∀ t, t ≠ tag -> bkt' !! t = bkt !! t).
Proof.
  intros Htag Hdb Hok Hbkt.
  destruct (IsReplay_step_counts w k f bkt tag) as (w' & bkt' & Hr & Hok' & Hb' & Hc & Ho);
    try done.
  exists w', bkt'. split_and!; try done.
  intros t. destruct (decide (t = tag)) as [->|Hne].
  - rewrite Hc. pose proof (storedCount_range bkt tag). unfold MaxUint64 in *.
    case_decide; [|tauto]. split; [by right | lia].
  - unfold storedCount. rewrite (Ho t Hne). tauto.
Qed.

(** The empty tag leaves the world alone. *)
Lemma IsReplay_empty w k : mixkey.IsReplay w k [] = (w, Ok true).
Proof. reflexivity. Qed.

(** Any run of calls keeps the disk healthy and the bucket in place, never
    lowers a counter to zero, and leaves the entries of uncalled tags. *)
Lemma IsReplay_all_inv (tags : list bytes) : ∀ w k f (bkt : gmap bytes bytes),
  mixkey.db k = Some f ->
  faulty w = false ->
  replay_bucket w f = Some bkt ->
  ∃ (bkt' : gmap bytes bytes),
    faulty (IsReplay_all w k tags).1 = false
    ∧ replay_bucket (IsReplay_all w k tags).1 f = Some bkt'
    ∧ (∀ t, storedCount bkt t ≠ 0 -> storedCount bkt' t ≠ 0)
    ∧ (∀ t, t ∉ tags -> bkt' !! t = bkt !! t).
Proof.
  induction tags as [|t ts IH]; intros w k f bkt Hdb Hok Hbkt.
  - exists bkt. simpl. done.
  - cbn [IsReplay_all].
    destruct (decide (t = [])) as [->|Hne].
    + rewrite IsReplay_empty.
      destruct (IH w k f bkt) as (bkt' & ? & ? & ? & Hrest); try done.
      exists bkt'. destruct (IsReplay_all w k ts) as [w2 rs]. simpl in *.
      split_and!; try done. intros t' Ht'. apply Hrest.
      intros Hin. apply Ht'. by right.
    + destruct (IsReplay_step_marks w k f bkt t) as (w1 & bkt1 & Hr & Hok1 & Hb1 & Hc1 & Ho1);
        try done.
      rewrite Hr.
      destruct (IH w1 k f bkt1) as (bkt' & ? & ? & Hmono & Hrest); try done.
      exists bkt'. destruct (IsReplay_all w1 k ts) as [w2 rs]. simpl in *.
      split_and!; try done.
      * intros t' Ht'. apply Hmono, Hc1. by left.
      * intros t' Ht'. rewrite Hrest, Ho1; [done | |];
          intros Hin; apply Ht'; [subst; by left | by right].
Qed.

(** Which counters are nonzero after a run of calls: those that were nonzero
    before, and those of the non-empty tags of the run that the store
    accepts. *)
Lemma IsReplay_all_counts (tags : list bytes) : ∀ w k f (bkt : gmap bytes bytes),
  mixkey.db k = Some f ->
  faulty w = false ->
  replay_bucket w f = Some bkt ->
  ∃ (bkt' : gmap bytes bytes),
    replay_bucket (IsReplay_all w k tags).1 f = Some bkt'
    ∧ (∀ t, storedCount bkt' t ≠ 0
            ↔ storedCount bkt t ≠ 0 ∨ (t ∈ tags ∧ t ≠ [] ∧ storable t)).
Proof.
  induction tags as [|t ts IH]; intros w k f bkt Hdb Hok Hbkt.
  - exists bkt. split; [done|]. intros t. rewrite elem_of_nil. tauto.
  - cbn [IsReplay_all].
    destruct (decide (t = [])) as [->|Hne].
    + rewrite IsReplay_empty.
      destruct (IH w k f bkt) as (bkt' & Hb' & Hcounts); [done..|].
      exists bkt'. destruct (IsReplay_all w k ts) as [w2 rs]. split; [done|].
      intros t. rewrite Hcounts, elem_of_cons. split; [tauto|].
      intros [?|([->|?] & ? & ?)]; tauto.
    + destruct (IsReplay_step_marks w k f bkt t) as (w1 & bkt1 & Hr & Hok1 & Hb1 & Hc1 & _);
        [done..|].
      rewrite Hr.
      destruct (IH w1 k f bkt1) as (bkt' & Hb' & Hcounts); [done..|].
      exists bkt'. destruct (IsReplay_all w1 k ts) as [w2 rs]. cbn [fst] in *.
      split; [done|].
      intros t'. rewrite Hcounts, Hc1, elem_of_cons. split.
      * intros [[?|[-> ?]]|?]; tauto.
      * intros [?|([->|?] & ? & ?)]; tauto.
Qed.

(** C1, for the tags the store accepts as keys. [IsReplay] is a test-and-set.
    The empty tag is always a replay. For a non-empty tag of at most
    [MaxKeySize] bytes, on an open key over a healthy disk, the call returns
    true iff the counter stored for the tag was nonzero before the call, and
    it stores the counter incremented by one, saturating at the maximum.
    Hence the first call for such a tag never marked before returns false,
    whatever other tags were marked in between, and every later call for
    that tag returns true, whatever calls come in between. *)
Theorem IsReplay_test_and_set :
  (∀ w k, mixkey.IsReplay w k [] = (w, Ok true))
  ∧ (∀ w k f (bkt : gmap bytes bytes) tag,
      tag ≠ [] -> storable tag ->
      mixkey.db k = Some f -> faulty w = false ->
      replay_bucket w f = Some bkt ->
      ∃ w' (bkt' : gmap bytes bytes),
        mixkey.IsReplay w k tag = (w', Ok (bool_decide (storedCount bkt tag ≠ 0)))
        ∧ replay_bucket w' f = Some bkt'
        ∧ storedCount bkt' tag = Z.min (storedCount bkt tag + 1) MaxUint64)
  ∧ (∀ w k f (bkt : gmap bytes bytes) tag (before after : list bytes),
      tag ≠ [] -> storable tag ->
      mixkey.db k = Some f -> faulty w = false ->
      replay_bucket w f = Some bkt ->
      storedCount bkt tag = 0 -> tag ∉ before ->
      ∃ w2 w3,
        mixkey.IsReplay (IsReplay_all w k before).1 k tag = (w2, Ok false)
        ∧ mixkey.IsReplay (IsReplay_all w2 k after).1 k tag = (w3, Ok true)).
Proof.
  split_and!.
  - apply IsReplay_empty.
  - intros w k f bkt tag Htag Hfits Hdb Hok Hbkt.
    destruct (IsReplay_step_counts w k f bkt tag) as (w' & bkt' & ? & ? & ? & Hc & ?);
      try done.
    rewrite decide_True in Hc by done.
    by exists w', bkt'.
  - intros w k f bkt tag before after Htag Hfits Hdb Hok Hbkt Hzero Hnew.
    destruct (IsReplay_all_inv before w k f bkt) as (bkt1 & Hok1 & Hb1 & _ & Hsame1);
      try done.
    destruct (IsReplay_step_counts (IsReplay_all w k before).1 k f bkt1 tag)
      as (w2 & bkt2 & Hr2 & Hok2 & Hb2 & Hc2 & _); try done.
    rewrite decide_True in Hc2 by done.
    assert (Hz1 : storedCount bkt1 tag = 0).
    { unfold storedCount in *. by rewrite Hsame1. }
    rewrite Hz1 in Hr2, Hc2. rewrite bool_decide_false in Hr2 by tauto.
    destruct (IsReplay_all_inv after w2 k f bkt2) as (bkt3 & Hok3 & Hb3 & Hmono3 & _);
      try done.
    destruct (IsReplay_step_counts (IsReplay_all w2 k after).1 k f bkt3 tag)
      as (w3 & bkt4 & Hr4 & _); try done.
    rewrite bool_decide_true in Hr4.
    + by exists w2, w3.
    + apply Hmono3. rewrite Hc2. unfold MaxUint64. lia.
Qed.

(** A tag longer than [MaxKeySize] on an open key over a healthy disk: the
    store refuses the key, the error is dropped, and the world after the call
    holds the buckets the world before it held. *)
Lemma IsReplay_not_stored w k f (bkt : gmap bytes bytes) tag :
  ¬ storable tag ->
  mixkey.db k = Some f ->
  faulty w = false ->
  replay_bucket w f = Some bkt ->
  ∃ w',
    mixkey.IsReplay w k tag = (w', Ok (bool_decide (storedCount bkt tag ≠ 0)))
    ∧ faulty w' = false
    ∧ replay_bucket w' f = Some bkt.
Proof.
  intros Hbig Hdb Hok Hbkt.
  assert (Htag : tag ≠ []).
  { intros ->. apply Hbig. unfold storable, MaxKeySize. cbn. lia. }
  destruct (IsReplay_step w k f bkt tag) as (w' & Hr & Hok' & Hb'); try done.
  rewrite decide_False in Hb' by done. by exists w'.
Qed.

End replay.

(** A tag the store refuses is never remembered: the first call on a tag of
    [MaxKeySize + 1] bytes returns false, and so does the second. *)
Lemma IsReplay_oversize_tag_twice_new :
  Z.of_nat (length oversize_tag) = MaxKeySize + 1
  ∧ ∃ w1 w2,
      mixkey.IsReplay example_world example_key oversize_tag = (w1, Ok false)
      ∧ mixkey.IsReplay w1 example_key oversize_tag = (w2, Ok false).
Proof.
  split; [apply oversize_tag_length|].
  assert (Hzero : storedCount ∅ oversize_tag = 0).
  { unfold storedCount. by rewrite lookup_empty. }
  destruct (IsReplay_not_stored (PrivateKey := bytes) example_world example_key
              "data/mixkey-7.db" ∅ oversize_tag)
    as (w1 & Hr1 & Hok1 & Hb1);
    [apply oversize_tag_not_storable | reflexivity | reflexivity | reflexivity |].
  destruct (IsReplay_not_stored (PrivateKey := bytes) w1 example_key
              "data/mixkey-7.db" ∅ oversize_tag)
    as (w2 & Hr2 & _);
    [apply oversize_tag_not_storable | reflexivity | done | done |].
  rewrite Hzero in Hr1, Hr2. rewrite bool_decide_false in Hr1, Hr2 by tauto.
  exists w1, w2. split; [exact Hr1 | exact Hr2].
Qed.

(** The test-and-set at work: a tag is new, two other tags are marked, the
    tag is a replay. *)
Lemma IsReplay_test_and_set_witness :
  ∃ w2 w3,
    mixkey.IsReplay (IsReplay_all example_world example_key [[Byte.x01]; []]).1
      example_key [Byte.x02] = (w2, Ok false)
    ∧ mixkey.IsReplay (IsReplay_all w2 example_key [[Byte.x03]]).1
      example_key [Byte.x02] = (w3, Ok true).
Proof.
  refine (proj2 (proj2 (IsReplay_test_and_set (PrivateKey := bytes)))
            example_world example_key "data/mixkey-7.db" ∅ [Byte.x02]
            [[Byte.x01]; []] [[Byte.x03]] _ _ _ _ _ _ _).
  - discriminate.
  - unfold storable, MaxKeySize. cbn. lia.
  - reflexivity.
  - reflexivity.
  - reflexivity.
  - reflexivity.
  - intros Hin. apply elem_of_cons in Hin as [Hin|Hin]; [discriminate|].
    apply elem_of_cons in Hin as [Hin|Hin]; [discriminate|].
    by apply elem_of_nil in Hin.
Defined.

(** ** Panics of the replay store *)

Section replay_panics.
Context {PrivateKey : Type}.
Implicit Types (w : World) (k : mixkey.MixKey PrivateKey) (tag : bytes) (f : string).

Lemma IsReplay_panics w k tag :
  tag ≠ [] ->
  (∃ msg, (mixkey.IsReplay w k tag).2 = Panic msg)
  ↔ (mixkey.db k = None
     ∨ ∃ f, mixkey.db k = Some f ∧ (replay_bucket w f = None ∨ faulty w = true)).
Proof.
  intros Htag. unfold mixkey.IsReplay.
  rewrite decide_False by (by destruct tag).
  destruct (mixkey.db k) as [f|]; simpl.
  - unfold bolt_Update, mixkey.IsReplay_tx, replay_bucket.
    destruct (db_contents w f !! mixkey.replayBucket) as [bkt|] eqn:Hbkt; simpl.
    + destruct (bolt_Put bkt tag _) as [bkt' err].
      destruct (faulty w) eqn:Hfaulty; simpl.
      * split; [intros _; right; exists f; auto | intros _; eauto].
      * split; [intros [msg Hm]; discriminate |].
        intros [Hn | (f' & Hf & [Hb | Hb])]; [discriminate | | discriminate].
        injection Hf as <-. congruence.
    + split; [intros _; right; exists f; auto | intros _; eauto].
  - split; [auto | eauto].
Qed.

(** A stored value of the wrong length is read as the counter zero. *)
Lemma storedCount_malformed (bkt : gmap bytes bytes) tag (b : bytes) :
  bkt !! tag = Some b -> length b ≠ 8%nat -> storedCount bkt tag = 0.
Proof. intros Hb Hl. unfold storedCount. rewrite Hb. by rewrite decide_False. Qed.

(** C9, as the code has it. On a non-empty tag [IsReplay] panics exactly when
    the key has no open store, the replay bucket is missing from the store, or
    the store fails to commit the transaction. A stored counter whose length
    is not 8 bytes is no such case: on a healthy store the call returns false
    and replaces the entry by the 8-byte counter one (an entry under a key
    longer than [MaxKeySize], which the store never holds, would stay). *)
Theorem IsReplay_panics_exactly w k tag :
  tag ≠ [] ->
  ((∃ msg, (mixkey.IsReplay w k tag).2 = Panic msg)
   ↔ (mixkey.db k = None
      ∨ ∃ f, mixkey.db k = Some f ∧ (replay_bucket w f = None ∨ faulty w = true)))
  ∧ (∀ f (bkt : gmap bytes bytes) (b : bytes),
       mixkey.db k = Some f -> faulty w = false ->
       replay_bucket w f = Some bkt ->
       bkt !! tag = Some b -> length b ≠ 8%nat ->
       (mixkey.IsReplay w k tag).2 = Ok false
       ∧ replay_bucket (mixkey.IsReplay w k tag).1 f
         = Some (if decide (storable tag) then <[tag := PutUint64 1]> bkt else bkt)).
Proof.
  intros Htag. split; [by apply IsReplay_panics|].
  intros f bkt b Hdb Hok Hbkt Hb Hl.
  destruct (IsReplay_step w k f bkt tag) as (w' & Hr & _ & Hb'); try done.
  rewrite (storedCount_malformed bkt tag b) in Hr, Hb' by done.
  rewrite bool_decide_false in Hr by tauto.
  rewrite Hr. simpl. split; [reflexivity | exact Hb'].
Qed.

End replay_panics.

(** The corrupt entry in action: no panic, the verdict is "new". *)
Lemma IsReplay_corrupt_entry_no_panic :
  (mixkey.IsReplay corrupt_world example_key [Byte.x02]).2 = Ok false.
Proof. vm_compute. reflexivity. Qed.

Lemma IsReplay_panics_exactly_witness :
  (mixkey.IsReplay corrupt_world example_key [Byte.x02]).2 = Ok false
  ∧ replay_bucket (mixkey.IsReplay corrupt_world example_key [Byte.x02]).1
      "data/mixkey-7.db"
    = Some (<[[Byte.x02] := PutUint64 1]> {[ [Byte.x02] := [Byte.x05] ]}).
Proof.
  refine (proj2 (IsReplay_panics_exactly corrupt_world example_key [Byte.x02] _)
            "data/mixkey-7.db" {[ [Byte.x02] := [Byte.x05] ]} [Byte.x05] _ _ _ _ _).
  - discriminate.
  - reflexivity.
  - reflexivity.
  - reflexivity.
  - reflexivity.
  - simpl. lia.
Defined.

(** ** The reference count and the closing of a key *)

Section refcount.
Context {PrivateKey : Type}.
Implicit Types (w : World) (k : mixkey.MixKey PrivateKey) (f : string).

Lemma wrap32_small (z : Z) : -2147483648 <= z <= MaxInt32 -> wrap32 z = z.
Proof. unfold wrap32, MaxInt32. intros Hz. rewrite Z.mod_small; lia. Qed.

Lemma set_refCount_twice k (a b : Z) :
  mixkey.set_refCount (mixkey.set_refCount k a) b = mixkey.set_refCount k b.
Proof. reflexivity. Qed.

Lemma set_refCount_same k : mixkey.set_refCount k (mixkey.refCount k) = k.
Proof. by destruct k. Qed.

Lemma Ref_live k :
  1 <= mixkey.refCount k < MaxInt32 ->
  mixkey.Ref k = (mixkey.set_refCount k (mixkey.refCount k + 1), Ok tt).
Proof.
  intros Hc. unfold mixkey.Ref. unfold MaxInt32 in Hc.
  rewrite wrap32_small by (unfold MaxInt32; lia).
  by rewrite decide_False by lia.
Qed.

Lemma Deref_live now w k :
  2 <= mixkey.refCount k <= MaxInt32 ->
  mixkey.Deref now w k = (w, mixkey.set_refCount k (mixkey.refCount k - 1), Ok tt).
Proof.
  intros Hc. unfold mixkey.Deref. unfold MaxInt32 in Hc.
  rewrite wrap32_small by (unfold MaxInt32; lia).
  rewrite decide_False by lia. by rewrite decide_False by lia.
Qed.

Lemma Deref_last now w k :
  mixkey.refCount k = 1 ->
  mixkey.Deref now w k
  = ((mixkey.forceClose now w (mixkey.set_refCount k 0)).1,
     (mixkey.forceClose now w (mixkey.set_refCount k 0)).2, Ok tt).
Proof.
  intros Hc. unfold mixkey.Deref. rewrite Hc. change (wrap32 (1 - 1)) with 0.
  rewrite decide_True by done.
  by destruct (mixkey.forceClose now w (mixkey.set_refCount k 0)).
Qed.

(** While the count stays at one or above and below the top of [int32],
    the calls only move the count. *)
Lemma run_refops_live (ops : list refop) : ∀ w k,
  1 <= mixkey.refCount k ->
  mixkey.refCount k + refs ops <= MaxInt32 ->
  (∀ i : nat, 1 <= mixkey.refCount k + depth (take i ops)) ->
  run_refops w k ops
  = (w, mixkey.set_refCount k (mixkey.refCount k + depth ops), Ok tt).
Proof.
  induction ops as [|op rest IH]; intros w k Hlo Hhi Hpre.
  - cbn [run_refops depth]. by rewrite Z.add_0_r, set_refCount_same.
  - assert (Hrefs : 0 <= refs rest).
    { clear. induction rest as [|[|?] ? ?]; cbn [refs]; lia. }
    destruct op as [|now]; cbn [run_refops depth refs] in *.
    + rewrite Ref_live by lia.
      rewrite IH.
      * cbn [mixkey.refCount mixkey.set_refCount]. rewrite set_refCount_twice.
        do 2 f_equal. f_equal. lia.
      * cbn. lia.
      * cbn. lia.
      * intros i. specialize (Hpre (S i)). cbn in *. lia.
    + pose proof (Hpre 1%nat) as H1. cbn [take depth] in H1.
      rewrite take_0 in H1. cbn [depth] in H1.
      rewrite Deref_live by lia.
      rewrite IH.
      * cbn [mixkey.refCount mixkey.set_refCount]. rewrite set_refCount_twice.
        do 2 f_equal. f_equal. lia.
      * cbn. lia.
      * cbn. lia.
      * intros i. specialize (Hpre (S i)). cbn in *. lia.
Qed.

Lemma run_refops_app (ops1 ops2 : list refop) : ∀ w k w' k',
  run_refops w k ops1 = (w', k', Ok tt) ->
  run_refops w k (ops1 ++ ops2) = run_refops w' k' ops2.
Proof.
  induction ops1 as [|op rest IH]; intros w k w' k' Hrun.
  - cbn in *. by injection Hrun as -> ->.
  - destruct op as [|now]; cbn [run_refops app] in *.
    + destruct (mixkey.Ref k) as [k1 [[]|e|msg]]; [by apply IH | done | done].
    + destruct (mixkey.Deref now w k) as [[w1 k1] [[]|e|msg]]; [by apply IH | done | done].
Qed.

Lemma run_refops_app_panic (ops1 ops2 : list refop) : ∀ w k w' k' msg,
  run_refops w k ops1 = (w', k', Panic msg) ->
  run_refops w k (ops1 ++ ops2) = (w', k', Panic msg).
Proof.
  induction ops1 as [|op rest IH]; intros w k w' k' msg Hrun.
  - cbn in Hrun. discriminate.
  - destruct op as [|now]; cbn [run_refops app] in *.
    + destruct (mixkey.Ref k) as [k1 [[]|e|m]]; [by apply IH | done | done].
    + destruct (mixkey.Deref now w k) as [[w1 k1] [[]|e|m]]; [by apply IH | done | done].
Qed.

Lemma forceClose_open now w k f (kp : PrivateKey) :
  mixkey.db k = Some f ->
  mixkey.keypair k = Some kp ->
  let unlink := bool_decide (mixkey.unlinkIfExpired k = true
                             ∧ mixkey.epoch k < wrap64 (now - 1)) in
  mixkey.forceClose now w k
  = ({| files := if unlink then delete f (files w) else files w;
        faulty := faulty w;
        effects := effects w ++ [DbSync f; DbClose f]
                   ++ (if unlink then [FileRemove f] else []) ++ [KeyReset] |},
     {| mixkey.db := None; mixkey.keypair := None; mixkey.epoch := mixkey.epoch k;
        mixkey.refCount := mixkey.refCount k;
        mixkey.unlinkIfExpired := mixkey.unlinkIfExpired k |}).
Proof.
  intros Hdb Hkp unlink. unfold mixkey.forceClose. rewrite Hdb, Hkp.
  subst unlink.
  destruct (mixkey.unlinkIfExpired k); cbn [andb].
  - destruct (Z.ltb_spec (mixkey.epoch k) (wrap64 (now - 1))) as [Hlt|Hge].
    + rewrite bool_decide_true by done.
      unfold emit, set_files, mixkey.flush. cbn. by rewrite <- !app_assoc.
    + rewrite bool_decide_false by (intros [_ ?]; lia).
      unfold emit, set_files, mixkey.flush. cbn. by rewrite <- !app_assoc.
  - rewrite bool_decide_false by (by intros [? _]).
    unfold emit, set_files, mixkey.flush. cbn. by rewrite <- !app_assoc.
Qed.

Lemma forceClose_closes_once now w k f (kp : PrivateKey) :
  mixkey.db k = Some f ->
  mixkey.keypair k = Some kp ->
  closes (mixkey.forceClose now w k).1 f = S (closes w f).
Proof.
  intros Hdb Hkp. rewrite (forceClose_open now w k f kp) by done. cbn [fst].
  unfold closes. cbn [effects]. rewrite filter_app, length_app.
  destruct (bool_decide _); cbn [app].
  - rewrite filter_cons_False by done. rewrite filter_cons_True by done.
    rewrite filter_cons_False by done. rewrite filter_cons_False by done.
    rewrite filter_nil. cbn [length]. unfold closes. lia.
  - rewrite filter_cons_False by done. rewrite filter_cons_True by done.
    rewrite filter_cons_False by done. rewrite filter_nil.
    cbn [length]. unfold closes. lia.
Qed.

(** C4. The [Deref] that takes the count of an open key from one to zero
    closes the key: it syncs and closes the store, resets the key pair and
    drops it, and removes the database file iff [unlinkIfExpired] is set and
    the key's epoch is below [now - 1] (in [uint64], which is [now - 1] for
    every [now] from one on); otherwise the files are left as they were. *)
Theorem Deref_to_zero_forceClose now w k f (kp : PrivateKey) :
  mixkey.db k = Some f ->
  mixkey.keypair k = Some kp ->
  mixkey.refCount k = 1 ->
  let unlink := bool_decide (mixkey.unlinkIfExpired k = true
                             ∧ mixkey.epoch k < wrap64 (now - 1)) in
  ∃ w' k',
    mixkey.Deref now w k = (w', k', Ok tt)
    ∧ mixkey.db k' = None
    ∧ mixkey.keypair k' = None
    ∧ mixkey.refCount k' = 0
    ∧ effects w' = effects w ++ [DbSync f; DbClose f]
                   ++ (if unlink then [FileRemove f] else []) ++ [KeyReset]
    ∧ files w' = (if unlink then delete f (files w) else files w)
    ∧ (1 <= now <= MaxUint64 -> wrap64 (now - 1) = now - 1).
Proof.
  intros Hdb Hkp Hc unlink.
  rewrite Deref_last by done.
  rewrite (forceClose_open now w (mixkey.set_refCount k 0) f kp) by done.
  cbn [fst snd]. do 2 eexists. split; [reflexivity|].
  cbn. split_and!; try done.
  intros Hnow. unfold wrap64, MaxUint64 in *. rewrite Z.mod_small; lia.
Qed.

(** Balanced calls keep the key open; the last [Deref] closes it, once. *)
Lemma balanced_closes_once w k f (kp : PrivateKey) (ops : list refop) (now : Z) :
  mixkey.db k = Some f -> mixkey.keypair k = Some kp ->
  mixkey.refCount k = 1 ->
  refs ops <= MaxInt32 - 1 ->
  depth ops = 0 ->
  (∀ i : nat, 0 <= depth (take i ops)) ->
  run_refops w k ops = (w, k, Ok tt)
  ∧ run_refops w k (ops ++ [OpDeref now])
    = ((mixkey.forceClose now w (mixkey.set_refCount k 0)).1,
       (mixkey.forceClose now w (mixkey.set_refCount k 0)).2, Ok tt)
  ∧ closes (run_refops w k (ops ++ [OpDeref now])).1.1 f = S (closes w f).
Proof.
  intros Hdb Hkp Hc Hrefs Hbal Hpre.
  assert (Hrun : run_refops w k ops = (w, k, Ok tt)).
  { rewrite run_refops_live.
    - rewrite Hbal, Z.add_0_r. by rewrite set_refCount_same.
    - lia.
    - lia.
    - intros i. specialize (Hpre i). lia. }
  split; [exact Hrun|].
  rewrite (run_refops_app ops [OpDeref now] w k w k Hrun).
  cbn [run_refops]. rewrite Deref_last by done. cbn [run_refops].
  split; [reflexivity|]. cbn [fst].
  by apply (forceClose_closes_once now w (mixkey.set_refCount k 0) f kp).
Qed.

Lemma refs_replicate_Ref (n : nat) : refs (replicate n OpRef) = Z.of_nat n.
Proof. induction n as [|n IH]; [done|]. cbn [replicate refs]. lia. Qed.

Lemma depth_replicate_Ref (n : nat) : depth (replicate n OpRef) = Z.of_nat n.
Proof. induction n as [|n IH]; [done|]. cbn [replicate depth]. lia. Qed.

(** One [Ref] too many: the count wraps to the bottom of [int32]. *)
Lemma run_refops_overflow (n : nat) w k (rest : list refop) :
  mixkey.refCount k = 1 ->
  Z.of_nat n = MaxInt32 - 1 ->
  run_refops w k (replicate n OpRef ++ OpRef :: rest)
  = (w, mixkey.set_refCount k (-2147483648),
     Panic "BUG: mixkey: Refcount was 0 or negative").
Proof.
  intros Hc Hn.
  rewrite (run_refops_app (replicate n OpRef) (OpRef :: rest) w k w
             (mixkey.set_refCount k MaxInt32)).
  - cbn [run_refops]. unfold mixkey.Ref. cbn [mixkey.refCount mixkey.set_refCount].
    change (wrap32 (MaxInt32 + 1)) with (-2147483648).
    rewrite decide_True by lia. reflexivity.
  - rewrite run_refops_live.
    + rewrite depth_replicate_Ref. do 2 f_equal. f_equal. lia.
    + lia.
    + rewrite refs_replicate_Ref. lia.
    + intros i. rewrite take_replicate, depth_replicate_Ref. lia.
Qed.

Lemma refs_replicate_Deref (n : nat) (now : Z) : refs (replicate n (OpDeref now)) = 0.
Proof. induction n as [|n IH]; [done|]. cbn [replicate refs]. lia. Qed.

Lemma depth_replicate_Deref (n : nat) (now : Z) :
  depth (replicate n (OpDeref now)) = - Z.of_nat n.
Proof. induction n as [|n IH]; [done|]. cbn [replicate depth]. lia. Qed.

Lemma refs_app (a b : list refop) : refs (a ++ b) = refs a + refs b.
Proof. induction a as [|[|?] a IH]; cbn [app refs]; lia. Qed.

Lemma depth_app (a b : list refop) : depth (a ++ b) = depth a + depth b.
Proof. induction a as [|[|?] a IH]; cbn [app depth]; lia. Qed.

(** C3, within the range of the [int32] count. On a key fresh from [New]
    (open, count one), [n] calls of [Ref] balanced by [n] calls of [Deref],
    for [n] up to 2^31 - 2, followed by the [Deref] of the initial reference,
    run without a panic and close the store exactly once, in that last
    [Deref]. The same holds of every interleaving in which each [Deref]
    releases a reference taken before it. A [Ref] on a count of zero or less
    panics, and so does a [Deref] that takes the count below zero. *)
Theorem refcount_closes_once :
  (∀ w k f (kp : PrivateKey) (n now : Z),
      mixkey.db k = Some f -> mixkey.keypair k = Some kp ->
      mixkey.refCount k = 1 ->
      0 <= n <= MaxInt32 - 1 ->
      run_refops w k (refs_then_derefs n now)
      = ((mixkey.forceClose now w (mixkey.set_refCount k 0)).1,
         (mixkey.forceClose now w (mixkey.set_refCount k 0)).2, Ok tt)
      ∧ closes (run_refops w k (refs_then_derefs n now)).1.1 f = S (closes w f))
  ∧ (∀ w k f (kp : PrivateKey) (ops : list refop) (now : Z),
      mixkey.db k = Some f -> mixkey.keypair k = Some kp ->
      mixkey.refCount k = 1 ->
      refs ops <= MaxInt32 - 1 ->
      depth ops = 0 ->
      (∀ i : nat, 0 <= depth (take i ops)) ->
      run_refops w k ops = (w, k, Ok tt)
      ∧ run_refops w k (ops ++ [OpDeref now])
        = ((mixkey.forceClose now w (mixkey.set_refCount k 0)).1,
           (mixkey.forceClose now w (mixkey.set_refCount k 0)).2, Ok tt)
      ∧ closes (run_refops w k (ops ++ [OpDeref now])).1.1 f = S (closes w f))
  ∧ (∀ k, -2147483648 <= mixkey.refCount k <= 0 ->
       (mixkey.Ref k).2 = Panic "BUG: mixkey: Refcount was 0 or negative")
  ∧ (∀ now w k, wrap32 (mixkey.refCount k - 1) < 0 ->
       (mixkey.Deref now w k).2 = Panic "BUG: mixkey: Refcount is negative").
Proof.
  split_and!.
  - intros w k f kp n now Hdb Hkp Hc Hn. unfold refs_then_derefs.
    rewrite app_assoc.
    apply (balanced_closes_once w k f kp); try done.
    + rewrite refs_app, refs_replicate_Ref, refs_replicate_Deref. lia.
    + rewrite depth_app, depth_replicate_Ref, depth_replicate_Deref. lia.
    + intros i. rewrite take_app, !take_replicate, length_replicate.
      rewrite depth_app, depth_replicate_Ref, depth_replicate_Deref. lia.
  - intros w k f kp ops now. by apply balanced_closes_once.
  - intros k Hc. unfold mixkey.Ref.
    rewrite wrap32_small by (unfold MaxInt32; lia).
    by rewrite decide_True by lia.
  - intros now w k Hc. unfold mixkey.Deref.
    rewrite decide_False by lia. by rewrite decide_True by lia.
Qed.

End refcount.

(** With 2^31 - 1 calls of [Ref] the last of them panics, and the calls of
    [Deref] that were to balance them never close the key. *)
Lemma refcount_overflow_never_closes :
  run_refops example_world example_key (refs_then_derefs 2147483647 7)
  = (example_world, mixkey.set_refCount example_key (-2147483648),
     Panic "BUG: mixkey: Refcount was 0 or negative")
  ∧ closes (run_refops example_world example_key (refs_then_derefs 2147483647 7)).1.1
      "data/mixkey-7.db" = 0%nat.
Proof.
  assert (Hrun : run_refops example_world example_key (refs_then_derefs 2147483647 7)
                 = (example_world, mixkey.set_refCount example_key (-2147483648),
                    Panic "BUG: mixkey: Refcount was 0 or negative")).
  { unfold refs_then_derefs.
    replace (Z.to_nat 2147483647) with (S (Z.to_nat 2147483646)) by lia.
    rewrite replicate_S_end, <- app_assoc.
    apply run_refops_overflow; [reflexivity | unfold MaxInt32; lia]. }
  split; [exact Hrun|]. rewrite Hrun. reflexivity.
Qed.

Lemma refcount_closes_once_witness :
  closes (run_refops example_world example_key (refs_then_derefs 3 9)).1.1
    "data/mixkey-7.db" = 1%nat.
Proof.
  refine (proj2 (proj1 (refcount_closes_once (PrivateKey := bytes))
                   example_world example_key "data/mixkey-7.db" [Byte.x2a] 3 9 _ _ _ _)).
  - reflexivity.
  - reflexivity.
  - reflexivity.
  - unfold MaxInt32. lia.
Defined.

Lemma Deref_to_zero_forceClose_witness :
  ∃ w' k',
    mixkey.Deref 10 example_world (mixkey.SetUnlinkIfExpired example_key true)
    = (w', k', Ok tt)
    ∧ mixkey.db k' = None ∧ mixkey.keypair k' = None
    ∧ effects w' = [DbSync "data/mixkey-7.db"; DbClose "data/mixkey-7.db";
                    FileRemove "data/mixkey-7.db"; KeyReset]
    ∧ files w' !! "data/mixkey-7.db" = None.
Proof.
  destruct (Deref_to_zero_forceClose 10 example_world
              (mixkey.SetUnlinkIfExpired example_key true)
              "data/mixkey-7.db" [Byte.x2a] eq_refl eq_refl eq_refl)
    as (w' & k' & Hrun & Hdb & Hkp & _ & Heff & Hfiles & _).
  exists w', k'. split_and!; [exact Hrun | exact Hdb | exact Hkp | exact Heff |].
  rewrite Hfiles. reflexivity.
Defined.

(** ** Creating, closing and reopening a key *)

Section roundtrip.
Context {PrivateKey PublicKey : Type} {ecdh : mixkey.Ecdh PrivateKey PublicKey}.
Implicit Types (w : World) (k : mixkey.MixKey PrivateKey) (tag : bytes) (f : string).
Implicit Types (file tx : gmap string (gmap bytes bytes)) (kp : PrivateKey).

Hypothesis FromBytes_Bytes :
  ∀ kp, mixkey.ecdh_FromBytes (mixkey.ecdh_Bytes kp) = Some kp.

Lemma set_files_same w : set_files w (files w) = w.
Proof. by destruct w. Qed.

Lemma metadata_keys_distinct :
  mixkey.versionKey ≠ mixkey.pkKey ∧ mixkey.versionKey ≠ mixkey.epochKey
  ∧ mixkey.pkKey ≠ mixkey.epochKey.
Proof. split_and!; intros Heq; vm_compute in Heq; discriminate. Qed.

Lemma bucket_names_distinct : mixkey.metadataBucket ≠ mixkey.replayBucket.
Proof. intros Heq; vm_compute in Heq; discriminate. Qed.

Lemma getUint64_insert (m : gmap bytes bytes) (key : bytes) (e : Z) :
  0 <= e <= MaxUint64 ->
  mixkey.getUint64 (<[key := PutUint64 e]> m) key = Ok e.
Proof.
  intros He. unfold mixkey.getUint64. rewrite lookup_insert_eq.
  rewrite decide_False by (rewrite PutUint64_length; tauto).
  by rewrite Uint64_PutUint64.
Qed.

Ltac lookup_simpl :=
  repeat (rewrite lookup_insert_eq || rewrite lookup_insert_ne by done).

Lemma version_zero (b : byte) (l : bytes) :
  ¬ (length (b :: l) ≠ 1%nat ∨ b ≠ x00) -> b = x00 ∧ l = [].
Proof.
  intros Hn. split.
  - destruct (decide (b = x00)) as [|Hne]; [done|]. exfalso. apply Hn. by right.
  - destruct l; [done|]. exfalso. apply Hn. left. cbn. lia.
Qed.

(** A transaction of [New] that succeeds leaves a file holding the key. *)
Lemma New_tx_holds (e : Z) (fresh : option PrivateKey) tx tx' kp (didCreate : bool) :
  0 <= e <= MaxUint64 ->
  mixkey.New_tx e fresh tx = Ok (tx', (kp, didCreate)) ->
  holds_key tx' kp e.
Proof.
  intros He Htx. unfold mixkey.New_tx, CreateBucketIfNotExists in Htx.
  destruct metadata_keys_distinct as (Hvp & Hve & Hpe).
  pose proof bucket_names_distinct as Hmr.
  unfold holds_key.
  repeat case_match; simplify_eq.
  1, 2: match goal with
        | Hn : ¬ (length (?b :: ?l) ≠ 1%nat ∨ ?b ≠ x00) |- _ =>
            destruct (version_zero b l Hn) as [-> ->]
        end.
  1, 2: match goal with
        | Hn : ¬ ?a ≠ ?e' |- _ =>
            destruct (decide (a = e')) as [->|Hne]; [|destruct (Hn Hne)]
        end.
  - eexists _, _. split_and!; eauto.
  - eexists _, _. split; [rewrite lookup_insert_ne by done; eassumption|].
    split_and!; eauto. rewrite lookup_insert_eq. eauto.
  - eexists _, _. split; [apply lookup_insert_eq|].
    split_and!;
      first [ by (lookup_simpl; eauto using getUint64_insert)
            | by (rewrite lookup_insert_ne by done; eauto) ].
  - eexists _, _. split; [apply lookup_insert_eq|].
    split_and!;
      first [ by (lookup_simpl; eauto using getUint64_insert)
            | by (rewrite lookup_insert_ne by done; eauto) ].
  - eexists _, _. split; [apply lookup_insert_eq|].
    split_and!;
      first [ by (lookup_simpl; eauto using getUint64_insert)
            | by (rewrite lookup_insert_ne by done; eauto) ].
  - eexists _, _. split; [apply lookup_insert_eq|].
    split_and!;
      first [ by (lookup_simpl; eauto using getUint64_insert)
            | by (rewrite lookup_insert_ne by done; eauto) ].
Qed.

(** On a file that holds a key, the transaction of [New] loads it and writes
    nothing. *)
Lemma New_tx_loads (e : Z) (fresh : option PrivateKey) file kp :
  holds_key file kp e ->
  mixkey.New_tx e fresh file = Ok (file, (kp, false)).
Proof.
  intros (meta & b & Hmeta & Hver & Hpk & Hfrom & Hep & [rb Hrb]).
  unfold mixkey.New_tx, CreateBucketIfNotExists.
  rewrite Hmeta, Hrb, Hver.
  rewrite decide_False by (cbn; intros [?|?]; congruence).
  rewrite Hpk, Hfrom, Hep. by rewrite decide_False by tauto.
Qed.

Lemma New_ok w (dataDir : string) (e : Z) (fresh : option PrivateKey) w1 k :
  0 <= e <= MaxUint64 ->
  mixkey.New w dataDir e fresh = (w1, Ok k) ->
  ∃ kp file,
    k = {| mixkey.db := Some (mixkey.mixkey_path dataDir e);
           mixkey.keypair := Some kp; mixkey.epoch := e;
           mixkey.refCount := 1; mixkey.unlinkIfExpired := false |}
    ∧ faulty w1 = false
    ∧ files w1 !! mixkey.mixkey_path dataDir e = Some file
    ∧ holds_key file kp e.
Proof.
  intros He. unfold mixkey.New, bolt_Open, bolt_Update.
  destruct (faulty w) eqn:Hok; [discriminate|].
  destruct (files w !! mixkey.mixkey_path dataDir e) as [file0|] eqn:Hfile.
  - destruct (mixkey.New_tx e fresh (db_contents w (mixkey.mixkey_path dataDir e)))
      as [[tx [kp didCreate]]|err|msg] eqn:Htx; rewrite ?Hok; [|discriminate..].
    intros Hnew. injection Hnew as <- <-. exists kp, tx. split; [done|].
    apply New_tx_holds in Htx; [|done].
    destruct didCreate; cbn; rewrite lookup_insert_eq; done.
  - destruct (mixkey.New_tx e fresh
                (db_contents (set_files w (<[mixkey.mixkey_path dataDir e:=∅]> (files w)))
                   (mixkey.mixkey_path dataDir e)))
      as [[tx [kp didCreate]]|err|msg] eqn:Htx; cbn [faulty set_files]; rewrite ?Hok;
      [|discriminate..].
    intros Hnew. injection Hnew as <- <-. exists kp, tx. split; [done|].
    apply New_tx_holds in Htx; [|done].
    destruct didCreate; cbn; rewrite lookup_insert_eq; done.
Qed.

Lemma New_reopen w (dataDir : string) (e : Z) (fresh : option PrivateKey) file kp :
  faulty w = false ->
  files w !! mixkey.mixkey_path dataDir e = Some file ->
  holds_key file kp e ->
  mixkey.New w dataDir e fresh
  = (w, Ok {| mixkey.db := Some (mixkey.mixkey_path dataDir e);
              mixkey.keypair := Some kp; mixkey.epoch := e;
              mixkey.refCount := 1; mixkey.unlinkIfExpired := false |}).
Proof.
  intros Hok Hfile Hholds. unfold mixkey.New, bolt_Open, bolt_Update.
  rewrite Hok, Hfile. cbv beta iota. unfold db_contents. rewrite Hfile.
  change (default ∅ (Some file)) with file.
  rewrite (New_tx_loads e fresh file kp Hholds), Hok.
  by rewrite insert_id, set_files_same.
Qed.

(** [IsReplay] writes to the replay bucket only. *)
Lemma IsReplay_keeps_key w k tag f file kp (e : Z) :
  files w !! f = Some file ->
  holds_key file kp e ->
  ∃ file', files (mixkey.IsReplay w k tag).1 !! f = Some file' ∧ holds_key file' kp e.
Proof.
  intros Hfile Hholds. unfold mixkey.IsReplay.
  case_decide; [by exists file|].
  destruct (mixkey.db k) as [f'|]; [|by exists file].
  unfold bolt_Update, mixkey.IsReplay_tx.
  destruct (db_contents w f' !! mixkey.replayBucket) as [bkt|] eqn:Hbkt; [|by exists file].
  destruct (bolt_Put bkt tag _) as [bkt' err].
  destruct (faulty w); [by exists file|]. cbn.
  destruct (decide (f' = f)) as [->|Hne].
  - rewrite lookup_insert_eq. eexists. split; [done|].
    unfold db_contents. rewrite Hfile. cbn.
    destruct Hholds as (meta & b & Hmeta & ? & ? & ? & ? & ?).
    exists meta, b. pose proof bucket_names_distinct.
    rewrite lookup_insert_ne by done. rewrite lookup_insert_eq.
    split_and!; eauto.
  - rewrite lookup_insert_ne by done. by exists file.
Qed.

Lemma IsReplay_all_keeps_key (tags : list bytes) : ∀ w k f file kp (e : Z),
  files w !! f = Some file ->
  holds_key file kp e ->
  ∃ file', files (IsReplay_all w k tags).1 !! f = Some file' ∧ holds_key file' kp e.
Proof.
  induction tags as [|t ts IH]; intros w k f file kp e Hfile Hholds.
  - by exists file.
  - cbn [IsReplay_all].
    destruct (IsReplay_keeps_key w k t f file kp e) as (file1 & Hfile1 & Hholds1);
      [done..|].
    destruct (mixkey.IsReplay w k t) as [w1 r]. cbn [fst] in Hfile1.
    destruct (IH w1 k f file1 kp e) as (file2 & Hfile2 & Hholds2); [done..|].
    destruct (IsReplay_all w1 k ts) as [w2 rs]. by exists file2.
Qed.

(** The state a key created or loaded by [New] leaves behind when tags are
    marked on it and its only reference is dropped, and what [New] finds
    there. *)
Lemma New_close_reopen_state w0 (dataDir : string) (e : Z) (fresh fresh' : option PrivateKey)
    w1 k (tags : list bytes) (now : Z) :
  0 <= e <= MaxUint64 ->
  mixkey.New w0 dataDir e fresh = (w1, Ok k) ->
  ∃ (rb rb2 : gmap bytes bytes) w3 k3 k',
    mixkey.db k = Some (mixkey.mixkey_path dataDir e)
    ∧ faulty (IsReplay_all w1 k tags).1 = false
    ∧ replay_bucket w1 (mixkey.mixkey_path dataDir e) = Some rb
    ∧ replay_bucket (IsReplay_all w1 k tags).1 (mixkey.mixkey_path dataDir e) = Some rb2
    ∧ (∀ t, storedCount rb2 t ≠ 0
            ↔ storedCount rb t ≠ 0 ∨ (t ∈ tags ∧ t ≠ [] ∧ storable t))
    ∧ mixkey.Deref now (IsReplay_all w1 k tags).1 k = (w3, k3, Ok tt)
    ∧ mixkey.db k3 = None
    ∧ faulty w3 = false
    ∧ replay_bucket w3 (mixkey.mixkey_path dataDir e) = Some rb2
    ∧ mixkey.New w3 dataDir e fresh' = (w3, Ok k')
    ∧ mixkey.db k' = Some (mixkey.mixkey_path dataDir e)
    ∧ is_Some (mixkey.PublicKeyOf k')
    ∧ mixkey.PublicKeyOf k' = mixkey.PublicKeyOf k.
Proof.
  intros He Hnew.
  destruct (New_ok w0 dataDir e fresh w1 k He Hnew) as (kp & file & -> & Hok1 & Hfile1 & Hholds1).
  set (f := mixkey.mixkey_path dataDir e) in *.
  set (k := {| mixkey.db := Some f; mixkey.keypair := Some kp; mixkey.epoch := e;
               mixkey.refCount := 1; mixkey.unlinkIfExpired := false |}).
  assert (Hrb1 : ∃ rb : gmap bytes bytes, replay_bucket w1 f = Some rb).
  { destruct Hholds1 as (? & ? & ? & ? & ? & ? & ? & [rb Hrb]). exists rb.
    unfold replay_bucket, db_contents. by rewrite Hfile1. }
  destruct Hrb1 as [rb Hrb1].
  destruct (IsReplay_all_keeps_key tags w1 k f file kp e) as (file2 & Hfile2 & Hholds2);
    [done..|].
  destruct (IsReplay_all_inv tags w1 k f rb) as (rb2 & Hok2 & Hrb2 & _ & _); [done..|].
  destruct (IsReplay_all_counts tags w1 k f rb) as (rb2' & Hrb2' & Hcounts); [done..|].
  assert (rb2' = rb2) as -> by congruence.
  set (w2 := (IsReplay_all w1 k tags).1) in *.
  exists rb, rb2.
  rewrite Deref_last by done.
  rewrite (forceClose_open now w2 (mixkey.set_refCount k 0) f kp) by done.
  cbn [fst snd mixkey.unlinkIfExpired mixkey.set_refCount k].
  rewrite bool_decide_false by (by intros [? _]).
  do 3 eexists. split_and!; try done.
  - by apply (New_reopen _ dataDir e fresh' file2 kp).
  - reflexivity.
  - by eexists.
Qed.

(** C2, for the tags the store accepts as keys. A key created or loaded by
    [New] for the epoch [e], on which the tags [tags] have been marked, is
    closed by the [Deref] of its only reference. The replay bucket on disk is
    then the one the calls left. [New] for the same directory and epoch
    succeeds, leaves the disk as it is, and returns a key with the public key
    the first one had. On that key [IsReplay] returns true for every tag of
    [tags] of at most [MaxKeySize] bytes; in full, it returns true exactly
    for the empty tag, the tags that had a nonzero counter when the first key
    was opened and the marked tags the store accepts, and for every tag it
    gives the verdict the first key would have given just before the close. *)
Theorem New_close_reopen w0 (dataDir : string) (e : Z) (fresh fresh' : option PrivateKey)
    w1 k (tags : list bytes) (now : Z) :
  0 <= e <= MaxUint64 ->
  mixkey.New w0 dataDir e fresh = (w1, Ok k) ->
  ∃ (rb : gmap bytes bytes) w3 k3,
    replay_bucket w1 (mixkey.mixkey_path dataDir e) = Some rb
    ∧ mixkey.Deref now (IsReplay_all w1 k tags).1 k = (w3, k3, Ok tt)
    ∧ mixkey.db k3 = None
    ∧ replay_bucket w3 (mixkey.mixkey_path dataDir e)
      = replay_bucket (IsReplay_all w1 k tags).1 (mixkey.mixkey_path dataDir e)
    ∧ ∃ k',
        mixkey.New w3 dataDir e fresh' = (w3, Ok k')
        ∧ is_Some (mixkey.PublicKeyOf k')
        ∧ mixkey.PublicKeyOf k' = mixkey.PublicKeyOf k
        ∧ (∀ t, t ∈ tags -> storable t -> ∃ w5, mixkey.IsReplay w3 k' t = (w5, Ok true))
        ∧ (∀ t, ∃ w5,
             mixkey.IsReplay w3 k' t
             = (w5, Ok (bool_decide (t = [] ∨ storedCount rb t ≠ 0
                                     ∨ (t ∈ tags ∧ storable t)))))
        ∧ (∀ t, (mixkey.IsReplay w3 k' t).2
                = (mixkey.IsReplay (IsReplay_all w1 k tags).1 k t).2).
Proof.
  intros He Hnew.
  destruct (New_close_reopen_state w0 dataDir e fresh fresh' w1 k tags now He Hnew)
    as (rb & rb2 & w3 & k3 & k' & Hdb & Hok2 & Hrb & Hrb2 & Hcounts & Hderef & Hk3 & Hok3
        & Hrb3 & Hnew' & Hdb' & Hsome & Hpub).
  assert (Hverdict : ∀ t, ∃ w5,
             mixkey.IsReplay w3 k' t
             = (w5, Ok (bool_decide (t = [] ∨ storedCount rb t ≠ 0
                                     ∨ (t ∈ tags ∧ storable t))))).
  { intros t. destruct (decide (t = [])) as [->|Hne].
    - exists w3. rewrite IsReplay_empty. by rewrite bool_decide_true by (by left).
    - destruct (IsReplay_step w3 k' _ rb2 t Hne Hdb' Hok3 Hrb3) as (w5 & Hr & _).
      exists w5. rewrite Hr. f_equal. f_equal. apply bool_decide_ext.
      rewrite Hcounts. tauto. }
  exists rb, w3, k3. split_and!; try done; [congruence|].
  exists k'. split_and!; try done.
  - intros t Ht Hfits. destruct (Hverdict t) as [w5 Hr]. exists w5.
    rewrite Hr. rewrite bool_decide_true; [done|].
    destruct (decide (t = [])); [by left | by right; right].
  - intros t. destruct (decide (t = [])) as [->|Hne].
    + by rewrite !IsReplay_empty.
    + destruct (IsReplay_step w3 k' _ rb2 t Hne Hdb' Hok3 Hrb3) as (w5 & -> & _).
      by destruct (IsReplay_step _ k _ rb2 t Hne Hdb Hok2 Hrb2) as (w6 & -> & _).
Qed.

End roundtrip.

(** A tag the store refuses does not survive the round trip: a key is
    created on an empty disk, a tag of [MaxKeySize + 1] bytes is passed to
    [IsReplay], the key is closed and loaded again, and the tag is new to the
    loaded key. *)
Lemma reopened_key_forgets_oversize_tag :
  ∃ w1 w3 k3 k',
    mixkey.New (ecdh := raw_Ecdh) empty_world "data" 7 (Some [Byte.x2a]) = (w1, Ok example_key)
    ∧ mixkey.Deref 8 (IsReplay_all w1 example_key [oversize_tag]).1 example_key
      = (w3, k3, Ok tt)
    ∧ mixkey.New (ecdh := raw_Ecdh) w3 "data" 7 None = (w3, Ok k')
    ∧ (mixkey.IsReplay w3 k' oversize_tag).2 = Ok false.
Proof.
  set (w1 := (mixkey.New (ecdh := raw_Ecdh) empty_world "data" 7 (Some [Byte.x2a])).1).
  assert (Hnew : mixkey.New (ecdh := raw_Ecdh) empty_world "data" 7 (Some [Byte.x2a])
                 = (w1, Ok example_key)) by (vm_compute; reflexivity).
  assert (Hempty : replay_bucket w1 (mixkey.mixkey_path "data" 7) = Some ∅)
    by (vm_compute; reflexivity).
  destruct (New_close_reopen_state (ecdh := raw_Ecdh) (fun kp => eq_refl)
              empty_world "data" 7 (Some [Byte.x2a]) None w1 example_key [oversize_tag] 8)
    as (rb & rb2 & w3 & k3 & k' & Hdb & Hok2 & Hrb & Hrb2 & Hcounts & Hderef & Hk3 & Hok3
        & Hrb3 & Hnew' & Hdb' & Hsome & Hpub);
    [unfold MaxUint64; lia | exact Hnew |].
  rewrite Hempty in Hrb. injection Hrb as <-.
  exists w1, w3, k3, k'.
  split; [exact Hnew|]. split; [exact Hderef|]. split; [exact Hnew'|].
  destruct (IsReplay_not_stored w3 k' _ rb2 oversize_tag
              oversize_tag_not_storable Hdb' Hok3 Hrb3) as (w5 & -> & _).
  cbn [snd]. f_equal. apply bool_decide_eq_false. rewrite Hcounts.
  intros [Hstored | (_ & _ & Hfits)].
  - apply Hstored. unfold storedCount. by rewrite lookup_empty.
  - by apply oversize_tag_not_storable.
Qed.

(** A key is created on an empty disk, two tags are marked, the key is closed
    and loaded again. *)
Lemma New_close_reopen_witness :
  ∃ (rb : gmap bytes bytes) w3 k3,
    replay_bucket (mixkey.New (ecdh := raw_Ecdh) empty_world "data" 7 (Some [Byte.x2a])).1
      (mixkey.mixkey_path "data" 7) = Some rb
    ∧ mixkey.Deref 8
        (IsReplay_all (mixkey.New (ecdh := raw_Ecdh) empty_world "data" 7 (Some [Byte.x2a])).1
           example_key [[Byte.x01]; [Byte.x02]]).1 example_key
      = (w3, k3, Ok tt)
    ∧ mixkey.db k3 = None
    ∧ replay_bucket w3 (mixkey.mixkey_path "data" 7)
      = replay_bucket
          (IsReplay_all (mixkey.New (ecdh := raw_Ecdh) empty_world "data" 7 (Some [Byte.x2a])).1
             example_key [[Byte.x01]; [Byte.x02]]).1 (mixkey.mixkey_path "data" 7)
    ∧ ∃ k',
        mixkey.New (ecdh := raw_Ecdh) w3 "data" 7 None = (w3, Ok k')
        ∧ is_Some (mixkey.PublicKeyOf (ecdh := raw_Ecdh) k')
        ∧ mixkey.PublicKeyOf (ecdh := raw_Ecdh) k' = mixkey.PublicKeyOf (ecdh := raw_Ecdh) example_key
        ∧ (∀ t, t ∈ [[Byte.x01]; [Byte.x02]] -> storable t ->
             ∃ w5, mixkey.IsReplay w3 k' t = (w5, Ok true))
        ∧ (∀ t, ∃ w5,
             mixkey.IsReplay w3 k' t
             = (w5, Ok (bool_decide (t = [] ∨ storedCount rb t ≠ 0
                                     ∨ (t ∈ [[Byte.x01]; [Byte.x02]] ∧ storable t)))))
        ∧ (∀ t, (mixkey.IsReplay w3 k' t).2
                = (mixkey.IsReplay
                     (IsReplay_all
                        (mixkey.New (ecdh := raw_Ecdh) empty_world "data" 7 (Some [Byte.x2a])).1
                        example_key [[Byte.x01]; [Byte.x02]]).1 example_key t).2).
Proof.
  refine (New_close_reopen (ecdh := raw_Ecdh) _ empty_world "data" 7 (Some [Byte.x2a]) None
            _ example_key [[Byte.x01]; [Byte.x02]] 8 _ _).
  - intros kp. reflexivity.
  - unfold MaxUint64. lia.
  - vm_compute. reflexivity.
Defined.

(** ** Authentication against the PKI cache *)

Section authentication.
Implicit Types (p : server.pki) (c : server.Clock) (cr : server.PeerCredentials).
Implicit Types (e d : server.pkiCacheEntry) (id pk : bytes).

Lemma wrap64_succ_ne_pred (n : Z) : wrap64 (n + 1) ≠ wrap64 (n - 1).
Proof.
  unfold wrap64. intros Heq.
  assert (H2 : (n + 1 - (n - 1)) mod 18446744073709551616 = 0).
  { rewrite Zminus_mod, Heq, Z.sub_diag. reflexivity. }
  replace (n + 1 - (n - 1)) with 2 in H2 by lia. discriminate.
Qed.

Lemma copyNodeID_exact (b : bytes) :
  length b = server.NodeIDLength -> server.copyNodeID b = b.
Proof.
  intros Hl. unfold server.copyNodeID. rewrite Hl, Nat.sub_diag.
  rewrite take_ge by lia. cbn. by rewrite app_nil_r.
Qed.

Lemma copyNodeID_length (b : bytes) :
  length (server.copyNodeID b) = server.NodeIDLength.
Proof.
  unfold server.copyNodeID. rewrite length_app, length_take, length_replicate. lia.
Qed.

Lemma elem_of_docsForEpochs p (epochs : list Z) e :
  e ∈ server.docsForEpochs p epochs
  ↔ ∃ epoch, epoch ∈ epochs ∧ server.docs p !! epoch = Some e.
Proof. unfold server.docsForEpochs. apply list_elem_of_omap. Qed.

(** What the loop of [authenticateIncoming] returns on any list of entries. *)
Lemma authenticateIncoming_loop_spec c id pk (ds : list server.pkiCacheEntry) :
  ∀ isValid : bool,
    ((server.authenticateIncoming_loop c id pk ds isValid).1 = true
     ↔ ∃ d, d ∈ ds ∧ listed (server.incoming d) id pk ∧ sendGrace c d)
    ∧ ((server.authenticateIncoming_loop c id pk ds isValid).2 = true
       ↔ isValid = true ∨ ∃ d, d ∈ ds ∧ listed (server.incoming d) id pk).
Proof.
  induction ds as [|d rest IH]; intros isValid.
  - cbn. split.
    + split; [done|]. intros (d & Hd & _). by apply elem_of_nil in Hd.
    + split; [by left|]. intros [?|(d & Hd & _)]; [done|]. by apply elem_of_nil in Hd.
  - cbn [server.authenticateIncoming_loop].
    assert (Hskip : ¬ listed (server.incoming d) id pk ->
      ((server.authenticateIncoming_loop c id pk rest isValid).1 = true
       ↔ ∃ d0, d0 ∈ d :: rest ∧ listed (server.incoming d0) id pk ∧ sendGrace c d0)
      ∧ ((server.authenticateIncoming_loop c id pk rest isValid).2 = true
         ↔ isValid = true ∨ ∃ d0, d0 ∈ d :: rest ∧ listed (server.incoming d0) id pk)).
    { intros Hno. destruct (IH isValid) as [IH1 IH2]. split.
      - rewrite IH1. split.
        + intros (d0 & ? & ?). exists d0. split; [by right | done].
        + intros (d0 & Hd0 & Hl & ?). apply elem_of_cons in Hd0 as [->|?]; [done|].
          by exists d0.
      - rewrite IH2. split.
        + intros [?|(d0 & ? & ?)]; [by left|]. right. exists d0. split; [by right | done].
        + intros [?|(d0 & Hd0 & Hl)]; [by left|].
          apply elem_of_cons in Hd0 as [->|?]; [done|]. right. by exists d0. }
    assert (Hdeny : listed (server.incoming d) id pk -> ¬ sendGrace c d ->
      ((server.authenticateIncoming_loop c id pk rest true).1 = true
       ↔ ∃ d0, d0 ∈ d :: rest ∧ listed (server.incoming d0) id pk ∧ sendGrace c d0)
      ∧ ((server.authenticateIncoming_loop c id pk rest true).2 = true
         ↔ isValid = true ∨ ∃ d0, d0 ∈ d :: rest ∧ listed (server.incoming d0) id pk)).
    { intros Hl Hno. destruct (IH true) as [IH1 IH2]. split.
      - rewrite IH1. split.
        + intros (d0 & ? & ?). exists d0. split; [by right | done].
        + intros (d0 & Hd0 & ? & ?). apply elem_of_cons in Hd0 as [->|?]; [done|].
          by exists d0.
      - rewrite IH2. split; [|by left].
        intros _. right. exists d. split; [by left | done]. }
    assert (Hgrant : listed (server.incoming d) id pk -> sendGrace c d ->
      (true = true
       ↔ ∃ d0, d0 ∈ d :: rest ∧ listed (server.incoming d0) id pk ∧ sendGrace c d0)
      ∧ (true = true
         ↔ isValid = true ∨ ∃ d0, d0 ∈ d :: rest ∧ listed (server.incoming d0) id pk)).
    { intros Hl Hg. split; (split; [intros _ | done]).
      - exists d. split; [by left | done].
      - right. exists d. split; [by left | done]. }
    destruct (server.incoming d !! id) as [m|] eqn:Hm.
    + destruct (decide (server.LinkKey m = pk)) as [Hpk|Hpk].
      * rewrite bool_decide_true by done. cbn [negb].
        assert (Hl : listed (server.incoming d) id pk) by (by exists m).
        pose proof (wrap64_succ_ne_pred (server.now c)) as Hsp.
        unfold sendGrace, server.earlySendSlack, server.lateSendSlack in *.
        repeat case_decide; cbn [fst snd];
          first [ apply Hgrant; [done | intuition congruence]
                | apply Hdeny; [done | intuition congruence] ].
      * rewrite bool_decide_false by done. cbn [negb].
        apply Hskip. intros (v & Hv & ?). congruence.
    + apply Hskip. intros (v & Hv & ?). congruence.
Qed.

Lemma authenticateIncoming_unfold p c cr :
  server.DisableMixAuthentication (server.s p) = false ->
  length (server.AdditionalData cr) = server.NodeIDLength ->
  server.authenticateIncoming p c cr
  = server.authenticateIncoming_loop c (server.AdditionalData cr) (server.PublicKey cr)
      (server.docsForEpochs p (searchSet c)) false.
Proof.
  intros Hauth Hlen. unfold server.authenticateIncoming. rewrite Hauth.
  rewrite decide_False by (intros Hne; by apply Hne).
  rewrite copyNodeID_exact by done.
  unfold searchSet, server.pkiEarlyConnectSlack, server.pkiLateConnectSlack.
  by repeat case_decide.
Qed.

Lemma authenticateIncoming_short p c cr :
  server.DisableMixAuthentication (server.s p) = false ->
  length (server.AdditionalData cr) ≠ server.NodeIDLength ->
  server.authenticateIncoming p c cr = (false, false).
Proof.
  intros Hauth Hlen. unfold server.authenticateIncoming. rewrite Hauth.
  by rewrite decide_True by done.
Qed.

(** C10. With mix authentication enabled, credentials whose additional data
    is not exactly 32 bytes long are refused, whatever the cache holds and
    whatever the clock reads. *)
Theorem authenticateIncoming_bad_length p c cr :
  server.DisableMixAuthentication (server.s p) = false ->
  length (server.AdditionalData cr) ≠ 32%nat ->
  server.authenticateIncoming p c cr = (false, false).
Proof.
  intros Hauth Hlen. unfold server.authenticateIncoming. rewrite Hauth.
  destruct (decide (length (server.AdditionalData cr) ≠ server.NodeIDLength)) as [|Heq];
    [reflexivity|].
  destruct (decide (length (server.AdditionalData cr) = 32%nat)) as [|Hne]; [done|].
  by destruct Heq.
Qed.

(** Validity and leave to send, in terms of the entries searched. *)
Lemma authenticateIncoming_verdict p c cr :
  server.DisableMixAuthentication (server.s p) = false ->
  ((server.authenticateIncoming p c cr).2 = true
   ↔ length (server.AdditionalData cr) = server.NodeIDLength
     ∧ ∃ e, searched p c e
            ∧ listed (server.incoming e) (server.AdditionalData cr) (server.PublicKey cr))
  ∧ ((server.authenticateIncoming p c cr).1 = true
     ↔ length (server.AdditionalData cr) = server.NodeIDLength
       ∧ ∃ e, searched p c e
              ∧ listed (server.incoming e) (server.AdditionalData cr) (server.PublicKey cr)
              ∧ sendGrace c e).
Proof.
  intros Hauth.
  destruct (decide (length (server.AdditionalData cr) = server.NodeIDLength)) as [Hlen|Hlen].
  - rewrite authenticateIncoming_unfold by done.
    destruct (authenticateIncoming_loop_spec c (server.AdditionalData cr)
                (server.PublicKey cr) (server.docsForEpochs p (searchSet c)) false)
      as [Hsend Hvalid].
    unfold searched. split.
    + rewrite Hvalid. split.
      * intros [?|(d & Hd & ?)]; [done|]. apply elem_of_docsForEpochs in Hd. eauto.
      * intros (_ & e & He & ?). right. exists e. by rewrite elem_of_docsForEpochs.
    + rewrite Hsend. split.
      * intros (d & Hd & ?). apply elem_of_docsForEpochs in Hd. eauto.
      * intros (_ & e & He & ?). exists e. by rewrite elem_of_docsForEpochs.
  - rewrite authenticateIncoming_short by done. cbn.
    split; (split; [done | by intros [? _]]).
Qed.

(** Caches that agree at the epochs of the search set hold the same entries
    there, in the same order. *)
Lemma docsForEpochs_agree p p' (epochs : list Z) :
  (∀ epoch, epoch ∈ epochs -> server.docs p !! epoch = server.docs p' !! epoch) ->
  server.docsForEpochs p epochs = server.docsForEpochs p' epochs.
Proof.
  intros Hagree. unfold server.docsForEpochs.
  induction epochs as [|epoch rest IH]; [done|].
  cbn. rewrite (Hagree epoch) by (by left).
  rewrite IH; [done|]. intros ep Hep. apply Hagree. by right.
Qed.

(** C6. With mix authentication enabled, [authenticateIncoming] consults the
    entries cached at the epochs of the search set (the current epoch; the
    next one when less than 30 minutes remain; else the previous one when
    less than 3 minutes have elapsed) and no others: caches that agree there
    give the same answer. The peer is valid iff its additional data is a node
    id that one of those entries lists in its incoming map with the presented
    link key; it may send iff one of the entries that list it so is within
    the send grace. An entry that lists the peer with another link key counts
    for nothing and hides no other entry. *)
Theorem authenticateIncoming_spec p c cr :
  server.DisableMixAuthentication (server.s p) = false ->
  ((server.authenticateIncoming p c cr).2 = true
   ↔ length (server.AdditionalData cr) = server.NodeIDLength
     ∧ ∃ e, searched p c e
            ∧ listed (server.incoming e) (server.AdditionalData cr) (server.PublicKey cr))
  ∧ ((server.authenticateIncoming p c cr).1 = true
     ↔ length (server.AdditionalData cr) = server.NodeIDLength
       ∧ ∃ e, searched p c e
              ∧ listed (server.incoming e) (server.AdditionalData cr) (server.PublicKey cr)
              ∧ sendGrace c e)
  ∧ (∀ p', server.DisableMixAuthentication (server.s p') = false ->
       (∀ epoch, epoch ∈ searchSet c ->
          server.docs p !! epoch = server.docs p' !! epoch) ->
       server.authenticateIncoming p' c cr = server.authenticateIncoming p c cr).
Proof.
  intros Hauth.
  destruct (authenticateIncoming_verdict p c cr Hauth) as [Hvalid Hsend].
  split_and!; [exact Hvalid | exact Hsend |].
  intros p' Hauth' Hagree.
  destruct (decide (length (server.AdditionalData cr) = server.NodeIDLength)) as [Hlen|Hlen].
  - rewrite !authenticateIncoming_unfold by done.
    by rewrite (docsForEpochs_agree p p' (searchSet c) Hagree).
  - by rewrite !authenticateIncoming_short by done.
Qed.

Lemma pair_bool_eq (r : bool * bool) (a b : bool) :
  (r.1 = true ↔ a = true) -> (r.2 = true ↔ b = true) -> r = (a, b).
Proof.
  destruct r as [[] []], a, b; cbn; intros [H1 H2] [H3 H4]; try done;
    first [ by specialize (H1 eq_refl) | by specialize (H2 eq_refl)
          | by specialize (H3 eq_refl) | by specialize (H4 eq_refl) ].
Qed.

Lemma wrap64_succ_ne (n : Z) : 0 <= n <= MaxUint64 -> wrap64 (n + 1) ≠ n.
Proof.
  unfold wrap64, MaxUint64. intros Hn.
  destruct (decide (n = 18446744073709551615)) as [->|Hne]; [done|].
  rewrite Z.mod_small; lia.
Qed.

(** C7, as the code has it. With mix authentication enabled, take a node
    that only the cached document for the next epoch lists, with the
    presented link key. While 30 minutes or more remain in the epoch, as at
    its start, that document is not consulted and the node is neither valid
    nor allowed to send. From 30 minutes down to 2 minutes before the end the
    node is valid and not allowed to send. With less than 2 minutes remaining
    it is valid and allowed to send. *)
Theorem authenticateIncoming_next_epoch_only p c cr e m :
  server.DisableMixAuthentication (server.s p) = false ->
  length (server.AdditionalData cr) = server.NodeIDLength ->
  0 <= server.now c <= MaxUint64 ->
  server.docs p !! wrap64 (server.now c + 1) = Some e ->
  server.Epoch (server.doc e) = wrap64 (server.now c + 1) ->
  server.incoming e !! server.AdditionalData cr = Some m ->
  server.LinkKey m = server.PublicKey cr ->
  (∀ epoch e', epoch ≠ wrap64 (server.now c + 1) ->
     server.docs p !! epoch = Some e' ->
     server.incoming e' !! server.AdditionalData cr = None) ->
  (30 * server.Minute <= server.till c ->
     server.authenticateIncoming p c cr = (false, false))
  ∧ (2 * server.Minute <= server.till c < 30 * server.Minute ->
     server.authenticateIncoming p c cr = (false, true))
  ∧ (server.till c < 2 * server.Minute ->
     server.authenticateIncoming p c cr = (true, true)).
Proof.
  intros Hauth Hlen Hnow Hdoc Hepoch Hm Hpk Honly.
  destruct (authenticateIncoming_verdict p c cr Hauth) as [Hvalid Hsend].
  pose proof (wrap64_succ_ne (server.now c) Hnow) as Hsucc.
  pose proof (wrap64_succ_ne_pred (server.now c)) as Hsp.
  assert (Hlisted : listed (server.incoming e) (server.AdditionalData cr) (server.PublicKey cr))
    by (by exists m).
  assert (Hsame : ∀ e', searched p c e' ->
            listed (server.incoming e') (server.AdditionalData cr) (server.PublicKey cr) ->
            wrap64 (server.now c + 1) ∈ searchSet c ∧ e' = e).
  { intros e' (epoch & Hin & He') (v & Hv & _).
    destruct (decide (epoch = wrap64 (server.now c + 1))) as [->|Hne].
    - split; [done | congruence].
    - rewrite (Honly epoch e' Hne He') in Hv. discriminate. }
  split_and!.
  - intros Htill. apply pair_bool_eq.
    + rewrite Hsend. split; [|done]. intros (_ & e' & Hs & Hl & _).
      destruct (Hsame e' Hs Hl) as [Hin _]. unfold searchSet in Hin.
      rewrite decide_False in Hin by lia.
      case_decide;
        repeat (apply elem_of_cons in Hin as [Hin|Hin]; [congruence|]);
        by apply elem_of_nil in Hin.
    + rewrite Hvalid. split; [|done]. intros (_ & e' & Hs & Hl).
      destruct (Hsame e' Hs Hl) as [Hin _]. unfold searchSet in Hin.
      rewrite decide_False in Hin by lia.
      case_decide;
        repeat (apply elem_of_cons in Hin as [Hin|Hin]; [congruence|]);
        by apply elem_of_nil in Hin.
  - intros Htill.
    assert (Hs : searched p c e).
    { exists (wrap64 (server.now c + 1)). split; [|done].
      unfold searchSet. rewrite decide_True by lia. right. by left. }
    apply pair_bool_eq.
    + rewrite Hsend. split; [|done]. intros (_ & e' & Hs' & Hl' & Hg).
      destruct (Hsame e' Hs' Hl') as [_ ->]. unfold sendGrace in Hg.
      rewrite Hepoch in Hg. intuition (try congruence; lia).
    + rewrite Hvalid. split; [done|]. intros _. eauto.
  - intros Htill.
    assert (Hs : searched p c e).
    { exists (wrap64 (server.now c + 1)). split; [|done].
      unfold searchSet, server.Minute in *. rewrite decide_True by lia. right. by left. }
    apply pair_bool_eq.
    + rewrite Hsend. split; [done|]. intros _. split; [done|]. exists e.
      split_and!; [done..|]. right. left. done.
    + rewrite Hvalid. split; [done|]. intros _. eauto.
Qed.

(** What the loop of [authenticateOutgoing] returns on any list of entries. *)
Lemma authenticateOutgoing_loop_spec (now : Z) id pk (ds : list server.pkiCacheEntry) :
  ∀ (desc : option server.MixDescriptor) (isValid : bool),
    let r := server.authenticateOutgoing_loop now id pk ds desc isValid in
    (r.1.2 = true
     ↔ ∃ d, d ∈ ds ∧ listed (server.outgoing d) id pk
            ∧ server.Epoch (server.doc d) = now)
    ∧ (r.2 = true ↔ isValid = true ∨ ∃ d, d ∈ ds ∧ listed (server.outgoing d) id pk)
    ∧ (r.1.1 = desc
       ∨ ∃ d v, d ∈ ds ∧ server.outgoing d !! id = Some v ∧ server.LinkKey v = pk
                ∧ r.1.1 = Some v)
    ∧ ((∃ d, d ∈ ds ∧ listed (server.outgoing d) id pk) ->
       ∃ d v, d ∈ ds ∧ server.outgoing d !! id = Some v ∧ server.LinkKey v = pk
              ∧ r.1.1 = Some v).
Proof.
  induction ds as [|d rest IH]; intros desc isValid.
  - cbn. split_and!.
    + split; [done|]. intros (d & Hd & _). by apply elem_of_nil in Hd.
    + split; [by left|]. intros [?|(d & Hd & _)]; [done|]. by apply elem_of_nil in Hd.
    + by left.
    + intros (d & Hd & _). by apply elem_of_nil in Hd.
  - cbn [server.authenticateOutgoing_loop].
    destruct (server.outgoing d !! id) as [m|] eqn:Hm;
      [destruct (decide (server.LinkKey m = pk)) as [Hpk|Hpk]|].
    + rewrite bool_decide_true by done. cbn [negb].
      assert (Hl : listed (server.outgoing d) id pk) by (by exists m).
      case_decide as Hep.
      * cbn. split_and!.
        -- split; [|done]. intros _. exists d. split; [by left | done].
        -- split; [|done]. intros _. right. exists d. split; [by left | done].
        -- right. exists d, m. split; [by left | done].
        -- intros _. exists d, m. split; [by left | done].
      * destruct (IH (Some m) true) as (IH1 & IH2 & IH3 & IH4). cbn zeta in *.
        split_and!.
        -- rewrite IH1. split.
           ++ intros (d0 & ? & ?). exists d0. split; [by right | done].
           ++ intros (d0 & Hd0 & ? & ?). apply elem_of_cons in Hd0 as [->|?]; [done|].
              by exists d0.
        -- rewrite IH2. split; [|by left]. intros _. right. exists d.
           split; [by left | done].
        -- right. destruct IH3 as [->|(d0 & v & ? & ?)].
           ++ exists d, m. split; [by left | done].
           ++ exists d0, v. split; [by right | done].
        -- intros _. destruct IH3 as [->|(d0 & v & ? & ?)].
           ++ exists d, m. split; [by left | done].
           ++ exists d0, v. split; [by right | done].
    + rewrite bool_decide_false by done. cbn [negb].
      assert (Hno : ¬ listed (server.outgoing d) id pk)
        by (intros (v & Hv & ?); congruence).
      destruct (IH desc isValid) as (IH1 & IH2 & IH3 & IH4). cbn zeta in *.
      split_and!.
      * rewrite IH1. split.
        -- intros (d0 & ? & ?). exists d0. split; [by right | done].
        -- intros (d0 & Hd0 & ? & ?). apply elem_of_cons in Hd0 as [->|?]; [done|].
           by exists d0.
      * rewrite IH2. split.
        -- intros [?|(d0 & ? & ?)]; [by left|]. right. exists d0. split; [by right | done].
        -- intros [?|(d0 & Hd0 & ?)]; [by left|].
           apply elem_of_cons in Hd0 as [->|?]; [done|]. right. by exists d0.
      * destruct IH3 as [?|(d0 & v & ? & ?)]; [by left|].
        right. exists d0, v. split; [by right | done].
      * intros (d0 & Hd0 & ?). apply elem_of_cons in Hd0 as [->|?]; [done|].
        destruct IH4 as (d1 & v & ? & ?); [by exists d0|].
        exists d1, v. split; [by right | done].
    + assert (Hno : ¬ listed (server.outgoing d) id pk)
        by (intros (v & Hv & ?); congruence).
      destruct (IH desc isValid) as (IH1 & IH2 & IH3 & IH4). cbn zeta in *.
      split_and!.
      * rewrite IH1. split.
        -- intros (d0 & ? & ?). exists d0. split; [by right | done].
        -- intros (d0 & Hd0 & ? & ?). apply elem_of_cons in Hd0 as [->|?]; [done|].
           by exists d0.
      * rewrite IH2. split.
        -- intros [?|(d0 & ? & ?)]; [by left|]. right. exists d0. split; [by right | done].
        -- intros [?|(d0 & Hd0 & ?)]; [by left|].
           apply elem_of_cons in Hd0 as [->|?]; [done|]. right. by exists d0.
      * destruct IH3 as [?|(d0 & v & ? & ?)]; [by left|].
        right. exists d0, v. split; [by right | done].
      * intros (d0 & Hd0 & ?). apply elem_of_cons in Hd0 as [->|?]; [done|].
        destruct IH4 as (d1 & v & ? & ?); [by exists d0|].
        exists d1, v. split; [by right | done].
Qed.

Lemma authenticateOutgoing_unfold p c cr :
  server.DisableMixAuthentication (server.s p) = false ->
  server.authenticateOutgoing p c cr
  = server.authenticateOutgoing_loop (server.now c)
      (server.copyNodeID (server.AdditionalData cr)) (server.PublicKey cr)
      (server.docsForEpochs p (searchSet c)) None false.
Proof.
  intros Hauth. unfold server.authenticateOutgoing, server.docsForOutgoing.
  rewrite Hauth.
  unfold searchSet, server.pkiEarlyConnectSlack, server.pkiLateConnectSlack.
  by repeat case_decide.
Qed.

(** C8. With mix authentication enabled, [authenticateOutgoing] consults the
    entries cached at the epochs of the same search set as the incoming
    path. The peer is valid iff one of those entries lists it in its outgoing
    map with the presented link key, and then the descriptor returned is the
    one such an entry lists; it may be sent to iff one of those entries is
    the document of the current epoch. An entry for the next or the previous
    epoch makes the peer valid and never allows sending. *)
Theorem authenticateOutgoing_spec p c cr :
  server.DisableMixAuthentication (server.s p) = false ->
  let id := server.copyNodeID (server.AdditionalData cr) in
  let pk := server.PublicKey cr in
  let r := server.authenticateOutgoing p c cr in
  (r.2 = true ↔ ∃ e, searched p c e ∧ listed (server.outgoing e) id pk)
  ∧ (r.1.2 = true
     ↔ ∃ e, searched p c e ∧ listed (server.outgoing e) id pk
            ∧ server.Epoch (server.doc e) = server.now c)
  ∧ (r.2 = true ->
     ∃ e v, searched p c e ∧ server.outgoing e !! id = Some v
            ∧ server.LinkKey v = pk ∧ r.1.1 = Some v)
  ∧ (r.2 = false -> r.1.1 = None).
Proof.
  intros Hauth. cbn zeta. rewrite authenticateOutgoing_unfold by done.
  set (id := server.copyNodeID (server.AdditionalData cr)).
  set (pk := server.PublicKey cr).
  destruct (authenticateOutgoing_loop_spec (server.now c) id pk
              (server.docsForEpochs p (searchSet c)) None false)
    as (Hsend & Hvalid & Hdesc & Hsome).
  cbn zeta in *. unfold searched.
  assert (Hiff : (∃ d, d ∈ server.docsForEpochs p (searchSet c)
                       ∧ listed (server.outgoing d) id pk)
                 ↔ ∃ e, (∃ epoch, epoch ∈ searchSet c ∧ server.docs p !! epoch = Some e)
                        ∧ listed (server.outgoing e) id pk).
  { split; intros (d & Hd & ?); exists d; [apply elem_of_docsForEpochs in Hd
                                         | rewrite elem_of_docsForEpochs]; done. }
  split_and!.
  - rewrite Hvalid, <- Hiff. split; [intros [?|?]; done | by right].
  - rewrite Hsend. split; intros (d & Hd & ?); exists d;
      [apply elem_of_docsForEpochs in Hd | rewrite elem_of_docsForEpochs]; done.
  - intros Hv. apply Hvalid in Hv as [?|Hex]; [done|].
    destruct (Hsome Hex) as (d & v & Hd & ?). exists d, v.
    apply elem_of_docsForEpochs in Hd. done.
  - intros Hv. destruct Hdesc as [?|(d & v & Hd & Hv' & Hpk & _)]; [done|].
    assert (Ht : (server.authenticateOutgoing_loop (server.now c) id pk
                    (server.docsForEpochs p (searchSet c)) None false).2 = true).
    { apply Hvalid. right. exists d. split; [done|]. by exists v. }
    congruence.
Qed.

End authentication.

(** ** The peer maps of a cache entry *)

Section peer_maps.
Variable GetNodeByKey : server.Document -> bytes -> outcome server.MixDescriptor.
Implicit Types (d : server.Document) (e : server.pkiCacheEntry) (n : bytes).

Lemma foldl_insert_lookup (nodes : list server.MixDescriptor) :
  ∀ (m : gmap bytes server.MixDescriptor) n,
    is_Some (foldl (fun m v => <[server.copyNodeID (server.IdentityKey v) := v]> m) m nodes !! n)
    ↔ is_Some (m !! n) ∨ identity_in n nodes.
Proof.
  induction nodes as [|v rest IH]; intros m n.
  - cbn. split; [by left|]. intros [?|(v & Hv & _)]; [done|]. by apply elem_of_nil in Hv.
  - cbn [foldl]. rewrite IH. unfold identity_in. split.
    + intros [Hm|(v' & Hv' & ?)].
      * destruct (decide (server.copyNodeID (server.IdentityKey v) = n)) as [Heq|Hne].
        -- right. exists v. split; [by left | done].
        -- left. by rewrite lookup_insert_ne in Hm.
      * right. exists v'. split; [by right | done].
    + intros [Hm|(v' & Hv' & Hid)].
      * destruct (decide (server.copyNodeID (server.IdentityKey v) = n)) as [<-|Hne].
        -- left. by rewrite lookup_insert_eq.
        -- left. by rewrite lookup_insert_ne.
      * apply elem_of_cons in Hv' as [->|Hv'].
        -- left. rewrite Hid. by rewrite lookup_insert_eq.
        -- right. by exists v'.
Qed.

(** The keys of a map built for a layer are the identities of the layer. *)
Lemma buildMap_keys d (layer : Z) (m : gmap bytes server.MixDescriptor)
    (nodes : list server.MixDescriptor) n :
  server.buildMap d layer ∅ = Ok m ->
  (if decide (layer = server.LayerProvider) then Some (server.Providers d)
   else server.Topology d !! Z.to_nat layer) = Some nodes ->
  is_Some (m !! n) ↔ identity_in n nodes.
Proof.
  unfold server.buildMap. intros Hm Hnodes. rewrite Hnodes in Hm.
  injection Hm as <-. rewrite foldl_insert_lookup. rewrite lookup_empty.
  split; [intros [[? ?]|?]; done | by right].
Qed.

Lemma newPKICacheEntry_inv (s : server.Server) d e :
  server.newPKICacheEntry GetNodeByKey s d = Ok e ->
  server.doc e = d
  ∧ GetNodeByKey d (server.identityKey s) = Ok (server.self e)
  ∧ length (server.Topology d) ≠ 0%nat
  ∧ server.Identifier s = server.Name (server.self e)
  ∧ server.isOurLayerSane e (server.IsProvider s) = true
  ∧ server.buildMap d (server.incomingLayer e) ∅ = Ok (server.incoming e)
  ∧ server.buildMap d (server.outgoingLayer e) ∅ = Ok (server.outgoing e).
Proof.
  unfold server.newPKICacheEntry.
  destruct (GetNodeByKey d (server.identityKey s)) as [me|err|msg]; [|done..].
  case_decide as Htop; [done|]. case_decide as Hname; [done|].
  destruct (server.isOurLayerSane _ (server.IsProvider s)) eqn:Hsane; [|done].
  cbn [negb].
  destruct (server.buildMap d (server.incomingLayer _) ∅) as [inc|?|?] eqn:Hinc; [|done..].
  destruct (server.buildMap d (server.outgoingLayer _) ∅) as [out|?|?] eqn:Hout; [|done..].
  intros He. injection He as <-. cbn.
  split_and!; try done.
Qed.

Lemma isOurLayerSane_layer e (isProvider : bool) :
  server.isOurLayerSane e isProvider = true ->
  server.Layer (server.self e) = server.LayerProvider
  ∨ (server.Layer (server.self e) ≠ server.LayerProvider
     ∧ server.Layer (server.self e) < Z.of_nat (length (server.Topology (server.doc e)))).
Proof.
  unfold server.isOurLayerSane. destruct isProvider; cbn.
  - case_bool_decide; [by left | done].
  - repeat case_decide; try done. right. split; [done | lia].
Qed.

Lemma lookup_default_Some (l : list (list server.MixDescriptor)) (i : nat) :
  (i < length l)%nat -> l !! i = Some (default [] (l !! i)).
Proof. intros Hi. destruct (lookup_lt_is_Some_2 l i Hi) as [x ->]. done. Qed.

(** C5, for topologies whose layers [uint8] can number. For an entry built
    from a document of at most 255 layers, the keys of the incoming map are
    the identities of the descriptors of the incoming layer (the providers
    for layer 0, the last layer for a provider, the layer below otherwise),
    and the keys of the outgoing map are the identities of the descriptors
    of the outgoing layer (the providers for the last layer, layer 0 for a
    provider, the layer above otherwise). *)
Theorem newPKICacheEntry_peer_maps (s : server.Server) d e :
  server.newPKICacheEntry GetNodeByKey s d = Ok e ->
  0 <= server.Layer (server.self e) <= 255 ->
  (length (server.Topology d) <= 255)%nat ->
  ∀ n,
    (is_Some (server.incoming e !! n) ↔ identity_in n (incomingNodes d (server.self e)))
    ∧ (is_Some (server.outgoing e !! n) ↔ identity_in n (outgoingNodes d (server.self e))).
Proof.
  intros Hnew Hu8 Hlen n.
  destruct (newPKICacheEntry_inv s d e Hnew) as (Hdoc & _ & Htop & _ & Hsane & Hinc & Hout).
  apply isOurLayerSane_layer in Hsane. rewrite Hdoc in Hsane.
  unfold server.LayerProvider in *.
  split.
  - apply (buildMap_keys d _ _ _ n Hinc).
    unfold server.incomingLayer, incomingNodes, server.LayerProvider, wrap8.
    rewrite Hdoc.
    destruct Hsane as [Hprov|[Hmix Hlt]].
    + rewrite Hprov.
      rewrite !(decide_True (P := 255 = 255)) by lia.
      rewrite !(decide_False (P := 255 = 0)) by lia.
      rewrite (Z.mod_small (Z.of_nat _)) by lia.
      rewrite Z.mod_small by lia.
      rewrite decide_False by lia.
      rewrite last_lookup.
      replace (Z.to_nat (Z.of_nat (length (server.Topology d)) - 1))
        with (pred (length (server.Topology d))) by lia.
      apply lookup_default_Some. lia.
    + rewrite !(decide_False (P := server.Layer (server.self e) = 255)) by lia.
      destruct (decide (server.Layer (server.self e) = 0)) as [Hz|Hnz].
      * by rewrite decide_True by lia.
      * rewrite Z.mod_small by lia. rewrite decide_False by lia.
        apply lookup_default_Some. lia.
  - apply (buildMap_keys d _ _ _ n Hout).
    unfold server.outgoingLayer, outgoingNodes, server.LayerProvider, wrap8.
    rewrite Hdoc.
    destruct Hsane as [Hprov|[Hmix Hlt]].
    + rewrite Hprov.
      rewrite !(decide_True (P := 255 = 255)) by lia.
      rewrite (decide_False (P := 255 = Z.of_nat (length (server.Topology d)) - 1)) by lia.
      rewrite decide_False by lia.
      apply lookup_default_Some. lia.
    + rewrite !(decide_False (P := server.Layer (server.self e) = 255)) by lia.
      destruct (decide (server.Layer (server.self e)
                        = Z.of_nat (length (server.Topology d)) - 1)) as [Hlast|Hnl].
      * by rewrite decide_True by lia.
      * rewrite Z.mod_small by lia. rewrite decide_False by lia.
        apply lookup_default_Some. lia.
Qed.

End peer_maps.

(** ** Worked examples of the PKI cache *)

(** In a document of 256 layers the incoming map of a provider holds the
    providers, not the mix of the last layer. *)
Lemma tall_topology_incoming_misses_last_layer :
  ∃ e,
    server.newPKICacheEntry findNode gate_server tall_document = Ok e
    ∧ identity_in (replicate 32 Byte.x02) (incomingNodes tall_document (server.self e))
    ∧ server.incoming e !! replicate 32 Byte.x02 = None.
Proof.
  eexists. split; [vm_compute; reflexivity|]. split.
  - exists (node "mix" Byte.x02 255). split; [|reflexivity].
    vm_compute. by left.
  - vm_compute. reflexivity.
Qed.

Lemma newPKICacheEntry_peer_maps_witness :
  (is_Some (server.incoming small_entry !! replicate 32 Byte.x0c)
   ↔ identity_in (replicate 32 Byte.x0c)
       (incomingNodes small_document (server.self small_entry)))
  ∧ (is_Some (server.outgoing small_entry !! replicate 32 Byte.x0c)
     ↔ identity_in (replicate 32 Byte.x0c)
         (outgoingNodes small_document (server.self small_entry))).
Proof.
  refine (newPKICacheEntry_peer_maps findNode gate_server small_document small_entry
            _ _ _ (replicate 32 Byte.x0c)).
  - vm_compute. reflexivity.
  - cbn. lia.
  - cbn. lia.
Defined.

Lemma authenticateIncoming_spec_witness :
  ((server.authenticateIncoming next_only_cache epoch_end creds_x).2 = true
   ↔ length (server.AdditionalData creds_x) = server.NodeIDLength
     ∧ ∃ e, searched next_only_cache epoch_end e
            ∧ listed (server.incoming e) (server.AdditionalData creds_x)
                (server.PublicKey creds_x))
  ∧ ((server.authenticateIncoming next_only_cache epoch_end creds_x).1 = true
     ↔ length (server.AdditionalData creds_x) = server.NodeIDLength
       ∧ ∃ e, searched next_only_cache epoch_end e
              ∧ listed (server.incoming e) (server.AdditionalData creds_x)
                  (server.PublicKey creds_x)
              ∧ sendGrace epoch_end e).
Proof.
  destruct (authenticateIncoming_spec next_only_cache epoch_end creds_x eq_refl)
    as (Hvalid & Hsend & _).
  exact (conj Hvalid Hsend).
Defined.

(** At the start of the epoch the peer of the next document is not valid. *)
Lemma next_epoch_peer_invalid_at_epoch_start :
  server.authenticateIncoming next_only_cache epoch_start creds_x = (false, false).
Proof. vm_compute. reflexivity. Qed.

Lemma authenticateIncoming_next_epoch_only_witness :
  server.authenticateIncoming next_only_cache epoch_end creds_x = (true, true).
Proof.
  refine (proj2 (proj2 (authenticateIncoming_next_epoch_only next_only_cache epoch_end
            creds_x next_entry (node "x" Byte.x07 0) _ _ _ _ _ _ _ _)) _).
  - reflexivity.
  - reflexivity.
  - cbn. unfold MaxUint64. lia.
  - reflexivity.
  - reflexivity.
  - reflexivity.
  - reflexivity.
  - intros epoch e' Hne He'. cbn in He'.
    rewrite lookup_singleton_ne in He' by (intros <-; by apply Hne).
    discriminate.
  - cbn. unfold server.Minute. lia.
Defined.

Lemma authenticateOutgoing_spec_witness :
  (server.authenticateOutgoing next_only_cache epoch_end creds_gate).1.2 = true
  ↔ ∃ e, searched next_only_cache epoch_end e
         ∧ listed (server.outgoing e)
             (server.copyNodeID (server.AdditionalData creds_gate))
             (server.PublicKey creds_gate)
         ∧ server.Epoch (server.doc e) = server.now epoch_end.
Proof.
  refine (proj1 (proj2 (authenticateOutgoing_spec next_only_cache epoch_end creds_gate _))).
  reflexivity.
Defined.

Lemma authenticateIncoming_bad_length_witness :
  server.authenticateIncoming next_only_cache epoch_end creds_short = (false, false).
Proof.
  refine (authenticateIncoming_bad_length next_only_cache epoch_end creds_short _ _).
  - reflexivity.
  - cbn. lia.
Defined.

(** * Further properties of the mix keys *)

Section replay_runs.
Context {PrivateKey : Type}.
Implicit Types (w : World) (k : mixkey.MixKey PrivateKey) (tag : bytes) (f : string).

Lemma IsReplay_all_length (tags : list bytes) : ∀ w k,
  length (IsReplay_all w k tags).2 = length tags.
Proof.
  induction tags as [|t ts IH]; intros w k; [done|].
  cbn [IsReplay_all]. destruct (mixkey.IsReplay w k t) as [w1 r].
  specialize (IH w1 k). destruct (IsReplay_all w1 k ts) as [w2 rs].
  cbn in *. by rewrite IH.
Qed.

(** X1. The verdicts of a whole run of calls on an open key over a healthy disk:
    the call number [i] reports a replay iff its tag is empty, had a nonzero
    counter before the run, or is at most [MaxKeySize] bytes long and was the
    tag of an earlier call of the run. *)
Theorem IsReplay_all_verdicts (tags : list bytes) : ∀ w k f (bkt : gmap bytes bytes),
  mixkey.db k = Some f ->
  faulty w = false ->
  replay_bucket w f = Some bkt ->
  length (IsReplay_all w k tags).2 = length tags
  ∧ ∀ (i : nat) tag, tags !! i = Some tag ->
      (IsReplay_all w k tags).2 !! i
      = Some (Ok (bool_decide (tag = [] ∨ storedCount bkt tag ≠ 0
                               ∨ (storable tag ∧ tag ∈ take i tags)))).
Proof.
  induction tags as [|t ts IH]; intros w k f bkt Hdb Hok Hbkt.
  - split; [done|]. intros i tag Hi. by rewrite lookup_nil in Hi.
  - split; [apply IsReplay_all_length|].
    intros i tag Hi. cbn [IsReplay_all].
    destruct (decide (t = [])) as [->|Hne].
    + rewrite IsReplay_empty.
      destruct (IH w k f bkt Hdb Hok Hbkt) as [_ IHv].
      destruct (IsReplay_all w k ts) as [w2 rs]. cbn [snd] in *.
      rewrite lookup_cons in Hi. rewrite lookup_cons.
      destruct i as [|i]; cbv iota beta in Hi |- *.
      * injection Hi as <-. by rewrite bool_decide_true by (by left).
      * change (take (S i) ([] :: ts)) with ([] :: take i ts).
        rewrite (IHv i tag Hi). f_equal. f_equal. apply bool_decide_ext.
        rewrite elem_of_cons. tauto.
    + destruct (IsReplay_step_marks w k f bkt t) as (w1 & bkt1 & Hr & Hok1 & Hb1 & Hc1 & Ho1);
        [done..|].
      rewrite Hr.
      destruct (IH w1 k f bkt1 Hdb Hok1 Hb1) as [_ IHv].
      destruct (IsReplay_all w1 k ts) as [w2 rs]. cbn [snd] in *.
      rewrite lookup_cons in Hi. rewrite lookup_cons.
      destruct i as [|i]; cbv iota beta in Hi |- *.
      * injection Hi as <-. f_equal. f_equal. apply bool_decide_ext.
        rewrite take_0, elem_of_nil. tauto.
      * change (take (S i) (t :: ts)) with (t :: take i ts).
        rewrite (IHv i tag Hi). f_equal. f_equal. apply bool_decide_ext.
        rewrite elem_of_cons, Hc1. split.
        -- intros [?|[[?|[-> ?]]|[? ?]]]; tauto.
        -- intros [?|[?|[? [->|?]]]]; tauto.
Qed.

(** X2. [IsReplay] writes nothing but the replay bucket of the database of its
    key: the other files, the other buckets, the health of the disk and the
    effects are as before, also when it panics; and a panic writes nothing at
    all. *)
Theorem IsReplay_frame w k tag :
  (∀ f', mixkey.db k ≠ Some f' ->
     files (mixkey.IsReplay w k tag).1 !! f' = files w !! f')
  ∧ (∀ f' (name : string), name ≠ mixkey.replayBucket ->
       db_contents (mixkey.IsReplay w k tag).1 f' !! name = db_contents w f' !! name)
  ∧ faulty (mixkey.IsReplay w k tag).1 = faulty w
  ∧ effects (mixkey.IsReplay w k tag).1 = effects w
  ∧ (∀ msg, (mixkey.IsReplay w k tag).2 = Panic msg -> (mixkey.IsReplay w k tag).1 = w).
Proof.
  unfold mixkey.IsReplay. case_decide; [by split_and!|].
  destruct (mixkey.db k) as [f|]; [|by split_and!].
  unfold bolt_Update, mixkey.IsReplay_tx.
  destruct (db_contents w f !! mixkey.replayBucket) as [bkt|]; [|by split_and!].
  destruct (bolt_Put bkt tag _) as [bkt' err].
  destruct (faulty w) eqn:Hok; [by split_and!|].
  cbn. split_and!; try done.
  - intros f' Hne. rewrite lookup_insert_ne; [done|]. intros ->. by apply Hne.
  - intros f' name Hname. unfold db_contents. cbn.
    destruct (decide (f = f')) as [->|Hne].
    + rewrite lookup_insert_eq. cbn. by rewrite lookup_insert_ne.
    + by rewrite lookup_insert_ne.
Qed.

(** X3. Closing is idempotent: once [forceClose] has run, the key has neither
    store nor key pair, and running it again changes nothing. *)
Theorem forceClose_idempotent (now now' : Z) w k :
  mixkey.db (mixkey.forceClose now w k).2 = None
  ∧ mixkey.keypair (mixkey.forceClose now w k).2 = None
  ∧ mixkey.forceClose now' (mixkey.forceClose now w k).1 (mixkey.forceClose now w k).2
    = mixkey.forceClose now w k.
Proof.
  unfold mixkey.forceClose.
  destruct (mixkey.db k) as [f|]; destruct (mixkey.keypair k) as [kp|];
    repeat case_match; simplify_eq; cbn; done.
Qed.

End replay_runs.

Section key_files.
Context {PrivateKey PublicKey : Type} {ecdh : mixkey.Ecdh PrivateKey PublicKey}.
Implicit Types (w : World) (k : mixkey.MixKey PrivateKey) (tag : bytes) (f : string).
Implicit Types (file tx : gmap string (gmap bytes bytes)) (kp : PrivateKey).

(** The metadata [New] stores with a key it creates. *)
Lemma New_tx_empty (e : Z) kp :
  mixkey.New_tx e (Some kp) ∅
  = Ok (<[mixkey.metadataBucket :=
            <[mixkey.epochKey := PutUint64 e]>
              (<[mixkey.pkKey := mixkey.ecdh_Bytes kp]>
                 (<[mixkey.versionKey := [x00]]> ∅))]>
          (<[mixkey.replayBucket := ∅]> (<[mixkey.metadataBucket := ∅]> ∅)),
        (kp, true)).
Proof.
  unfold mixkey.New_tx, CreateBucketIfNotExists.
  rewrite lookup_empty.
  rewrite lookup_insert_ne by apply bucket_names_distinct.
  rewrite lookup_empty. by rewrite lookup_empty.
Qed.

Lemma New_tx_empty_fails (e : Z) :
  mixkey.New_tx e None ∅ = Err "ecdh: key generation failed".
Proof.
  unfold mixkey.New_tx, CreateBucketIfNotExists.
  rewrite lookup_empty.
  rewrite lookup_insert_ne by apply bucket_names_distinct.
  rewrite lookup_empty. by rewrite lookup_empty.
Qed.

Lemma New_on_absent w (dataDir : string) (e : Z) kp :
  faulty w = false ->
  files w !! mixkey.mixkey_path dataDir e = None ->
  let f := mixkey.mixkey_path dataDir e in
  (∃ w' (meta : gmap bytes bytes),
     mixkey.New w dataDir e (Some kp)
     = (w', Ok {| mixkey.db := Some f; mixkey.keypair := Some kp; mixkey.epoch := e;
                  mixkey.refCount := 1; mixkey.unlinkIfExpired := false |})
     ∧ effects w' = effects w ++ [DbSync f]
     ∧ db_contents w' f !! mixkey.metadataBucket = Some meta
     ∧ meta !! mixkey.versionKey = Some [x00]
     ∧ meta !! mixkey.pkKey = Some (mixkey.ecdh_Bytes kp)
     ∧ meta !! mixkey.epochKey = Some (PutUint64 e)
     ∧ replay_bucket w' f = Some ∅
     ∧ (∀ f', f' ≠ f -> files w' !! f' = files w !! f')
     ∧ (∀ k tag, tag ≠ [] -> mixkey.db k = Some f ->
          (mixkey.IsReplay w' k tag).2 = Ok false))
  ∧ (∃ w',
       mixkey.New w dataDir e None = (w', Err "ecdh: key generation failed")
       ∧ effects w' = effects w ++ [DbClose f]
       ∧ files w' = <[f := ∅]> (files w)).
Proof.
  intros Hok Hfile f. subst f. set (f := mixkey.mixkey_path dataDir e) in *.
  destruct metadata_keys_distinct as (Hvp & Hve & Hpe).
  pose proof bucket_names_distinct as Hmr.
  split.
  - unfold mixkey.New, bolt_Open, bolt_Update. fold f. rewrite Hok, Hfile.
    cbv beta iota. unfold db_contents at 1. cbn [files set_files faulty].
    rewrite lookup_insert_eq. change (default ∅ (Some ∅)) with (∅ : DbFile).
    rewrite New_tx_empty, Hok.
    match goal with |- ∃ w' meta, (?W, _) = _ ∧ _ => set (w1 := W) end.
    assert (Hrb : replay_bucket w1 f = Some ∅).
    { subst w1. unfold replay_bucket, db_contents. cbn. rewrite lookup_insert_eq. cbn.
      rewrite lookup_insert_ne by done. by rewrite lookup_insert_eq. }
    exists w1. eexists. split; [reflexivity|].
    split_and!.
    + reflexivity.
    + subst w1. unfold db_contents. cbn. rewrite lookup_insert_eq. cbn.
      by rewrite lookup_insert_eq.
    + by rewrite lookup_insert_ne, lookup_insert_ne, lookup_insert_eq.
    + by rewrite lookup_insert_ne, lookup_insert_eq.
    + by rewrite lookup_insert_eq.
    + exact Hrb.
    + intros f' Hne. subst w1. cbn. by rewrite !lookup_insert_ne.
    + intros k tag Htag Hdb.
      destruct (IsReplay_step w1 k f ∅ tag) as (w5 & Hr & _); [done..|].
      by rewrite Hr.
  - unfold mixkey.New, bolt_Open, bolt_Update. fold f. rewrite Hok, Hfile.
    cbv beta iota. unfold db_contents at 1. cbn [files set_files faulty].
    rewrite lookup_insert_eq. change (default ∅ (Some ∅)) with (∅ : DbFile).
    rewrite New_tx_empty_fails. eexists. split; [reflexivity|]. by split.
Qed.

(** X4. [New] where there is no database yet, on a healthy disk. It creates the
    file, stores version zero, the bytes of the generated key and the epoch,
    syncs, and returns an open key with one reference and an empty replay
    bucket, for which every non-empty tag is new; no other file changes. When
    the key generation fails it returns the error, closes the store and
    leaves an empty database file behind. *)
Theorem New_creates w (dataDir : string) (e : Z) kp :
  faulty w = false ->
  files w !! mixkey.mixkey_path dataDir e = None ->
  let f := mixkey.mixkey_path dataDir e in
  (∃ w' (meta : gmap bytes bytes),
     mixkey.New w dataDir e (Some kp)
     = (w', Ok {| mixkey.db := Some f; mixkey.keypair := Some kp; mixkey.epoch := e;
                  mixkey.refCount := 1; mixkey.unlinkIfExpired := false |})
     ∧ effects w' = effects w ++ [DbSync f]
     ∧ db_contents w' f !! mixkey.metadataBucket = Some meta
     ∧ meta !! mixkey.versionKey = Some [x00]
     ∧ meta !! mixkey.pkKey = Some (mixkey.ecdh_Bytes kp)
     ∧ meta !! mixkey.epochKey = Some (PutUint64 e)
     ∧ replay_bucket w' f = Some ∅
     ∧ (∀ f', f' ≠ f -> files w' !! f' = files w !! f')
     ∧ (∀ k tag, tag ≠ [] -> mixkey.db k = Some f ->
          (mixkey.IsReplay w' k tag).2 = Ok false))
  ∧ (∃ w',
       mixkey.New w dataDir e None = (w', Err "ecdh: key generation failed")
       ∧ effects w' = effects w ++ [DbClose f]
       ∧ files w' = <[f := ∅]> (files w)).
Proof. apply New_on_absent. Qed.

Lemma New_on_present w (dataDir : string) (e : Z) (fresh : option PrivateKey) file :
  faulty w = false ->
  files w !! mixkey.mixkey_path dataDir e = Some file ->
  mixkey.New w dataDir e fresh
  = match mixkey.New_tx e fresh file with
    | Ok (tx', (kp, didCreate)) =>
        let w' := set_files w (<[mixkey.mixkey_path dataDir e := tx']> (files w)) in
        (if didCreate then emit w' (DbSync (mixkey.mixkey_path dataDir e)) else w',
         Ok {| mixkey.db := Some (mixkey.mixkey_path dataDir e);
               mixkey.keypair := Some kp; mixkey.epoch := e;
               mixkey.refCount := 1; mixkey.unlinkIfExpired := false |})
    | Err err => (emit w (DbClose (mixkey.mixkey_path dataDir e)), Err err)
    | Panic msg => (w, Panic msg)
    end.
Proof.
  intros Hok Hfile. unfold mixkey.New, bolt_Open, bolt_Update.
  rewrite Hok, Hfile. cbv beta iota. unfold db_contents. rewrite Hfile.
  change (default ∅ (Some file)) with file.
  destruct (mixkey.New_tx e fresh file) as [[tx' [kp didCreate]]|err|msg];
    rewrite ?Hok; reflexivity.
Qed.

Lemma New_tx_versioned (e : Z) (fresh : option PrivateKey) tx (meta : gmap bytes bytes) :
  tx !! mixkey.metadataBucket = Some meta ->
  is_Some (meta !! mixkey.versionKey) ->
  mixkey.New_tx e fresh tx = mixkey.New_tx e None tx
  ∧ ∀ tx' kp (didCreate : bool),
      mixkey.New_tx e fresh tx = Ok (tx', (kp, didCreate)) ->
      didCreate = false
      ∧ tx' !! mixkey.metadataBucket = Some meta
      ∧ meta !! mixkey.versionKey = Some [x00]
      ∧ (∃ b, meta !! mixkey.pkKey = Some b ∧ mixkey.ecdh_FromBytes b = Some kp)
      ∧ mixkey.getUint64 meta mixkey.epochKey = Ok e.
Proof.
  intros Hmeta [v Hv]. unfold mixkey.New_tx, CreateBucketIfNotExists.
  rewrite Hmeta. pose proof bucket_names_distinct as Hmr.
  destruct (tx !! mixkey.replayBucket) as [rb|] eqn:Hrb; rewrite Hv.
  - split; [done|]. intros tx' kp didCreate Htx.
    repeat case_match; simplify_eq.
    match goal with
    | Hn : ¬ (length (?b :: ?l) ≠ 1%nat ∨ ?b ≠ x00) |- _ =>
        destruct (version_zero b l Hn) as [-> ->]
    end.
    match goal with
    | Hn : ¬ ?a ≠ ?e' |- _ => destruct (decide (a = e')) as [->|Hne]; [|destruct (Hn Hne)]
    end.
    split_and!; eauto.
  - split; [done|]. intros tx' kp didCreate Htx.
    repeat case_match; simplify_eq.
    match goal with
    | Hn : ¬ (length (?b :: ?l) ≠ 1%nat ∨ ?b ≠ x00) |- _ =>
        destruct (version_zero b l Hn) as [-> ->]
    end.
    match goal with
    | Hn : ¬ ?a ≠ ?e' |- _ => destruct (decide (a = e')) as [->|Hne]; [|destruct (Hn Hne)]
    end.
    split_and!; eauto. by rewrite lookup_insert_ne.
Qed.

(** X5. [New] on a database that has a version entry never generates a key and
    never writes the metadata: the answer is the same whatever the key
    generator would return, the metadata bucket is as before, a key that is
    returned is the one stored (version zero, the stored private key, the
    requested epoch), and an error leaves every file as it was. *)
Theorem New_keeps_existing_key w (dataDir : string) (e : Z) (fresh : option PrivateKey)
    file (meta : gmap bytes bytes) :
  files w !! mixkey.mixkey_path dataDir e = Some file ->
  file !! mixkey.metadataBucket = Some meta ->
  is_Some (meta !! mixkey.versionKey) ->
  (∀ fresh', mixkey.New w dataDir e fresh' = mixkey.New w dataDir e fresh)
  ∧ db_contents (mixkey.New w dataDir e fresh).1 (mixkey.mixkey_path dataDir e)
    !! mixkey.metadataBucket = Some meta
  ∧ (∀ k, (mixkey.New w dataDir e fresh).2 = Ok k ->
       meta !! mixkey.versionKey = Some [x00]
       ∧ (∃ b kp, meta !! mixkey.pkKey = Some b ∧ mixkey.ecdh_FromBytes b = Some kp
                  ∧ mixkey.keypair k = Some kp)
       ∧ mixkey.getUint64 meta mixkey.epochKey = Ok e)
  ∧ (∀ err, (mixkey.New w dataDir e fresh).2 = Err err ->
       files (mixkey.New w dataDir e fresh).1 = files w).
Proof.
  intros Hfile Hmeta Hver.
  assert (Hind : ∀ fresh', mixkey.New w dataDir e fresh' = mixkey.New w dataDir e None).
  { intros fresh'. unfold mixkey.New, bolt_Open, bolt_Update.
    destruct (faulty w); [done|]. rewrite Hfile. cbv beta iota.
    unfold db_contents. rewrite Hfile. change (default ∅ (Some file)) with file.
    by rewrite (proj1 (New_tx_versioned e fresh' file meta Hmeta Hver)). }
  split; [intros fresh'; by rewrite (Hind fresh'), (Hind fresh)|].
  destruct (New_tx_versioned e fresh file meta Hmeta Hver) as [_ Hok].
  destruct (faulty w) eqn:Hfaulty.
  { unfold mixkey.New, bolt_Open. rewrite Hfaulty. cbn.
    unfold db_contents. rewrite Hfile. cbn. split_and!; [done | done | done]. }
  rewrite (New_on_present w dataDir e fresh file Hfaulty Hfile).
  destruct (mixkey.New_tx e fresh file) as [[tx' [kp didCreate]]|err|msg] eqn:Htx.
  - destruct (Hok tx' kp didCreate eq_refl) as (-> & Hmeta' & Hv & (b & Hb & Hfrom) & Hep).
    cbn. unfold db_contents. cbn. rewrite lookup_insert_eq. cbn.
    split_and!; [done | | done].
    intros k Hk. injection Hk as <-. cbn. split_and!; eauto.
  - cbn. unfold db_contents. cbn. rewrite Hfile. cbn. split_and!; done.
  - cbn. unfold db_contents. rewrite Hfile. cbn. split_and!; done.
Qed.

(** X6. Closing an expired key that is to be unlinked loses the key and its
    replay history: the file is gone, and [New] for the same directory and
    epoch then generates a new key, for which every non-empty tag is new,
    whatever had been marked before. *)
Theorem unlink_forgets_replays w k (dataDir : string) (now : Z) (old : PrivateKey) :
  faulty w = false ->
  mixkey.db k = Some (mixkey.mixkey_path dataDir (mixkey.epoch k)) ->
  mixkey.keypair k = Some old ->
  mixkey.refCount k = 1 ->
  mixkey.unlinkIfExpired k = true ->
  mixkey.epoch k < wrap64 (now - 1) ->
  files (mixkey.Deref now w k).1.1 !! mixkey.mixkey_path dataDir (mixkey.epoch k) = None
  ∧ ∀ kp, ∃ w',
      mixkey.New (mixkey.Deref now w k).1.1 dataDir (mixkey.epoch k) (Some kp)
      = (w', Ok {| mixkey.db := Some (mixkey.mixkey_path dataDir (mixkey.epoch k));
                   mixkey.keypair := Some kp; mixkey.epoch := mixkey.epoch k;
                   mixkey.refCount := 1; mixkey.unlinkIfExpired := false |})
      ∧ ∀ k' tag, tag ≠ [] ->
          mixkey.db k' = Some (mixkey.mixkey_path dataDir (mixkey.epoch k)) ->
          (mixkey.IsReplay w' k' tag).2 = Ok false.
Proof.
  intros Hok Hdb Hkp Hc Hunlink Hexp.
  rewrite Deref_last by done.
  rewrite (forceClose_open now w (mixkey.set_refCount k 0) _ old) by done.
  cbn [fst snd mixkey.unlinkIfExpired mixkey.epoch mixkey.set_refCount].
  rewrite bool_decide_true by done. cbn [files].
  split; [apply lookup_delete_eq|].
  intros kp.
  destruct (New_on_absent
              {| files := delete (mixkey.mixkey_path dataDir (mixkey.epoch k)) (files w);
                 faulty := faulty w;
                 effects := effects w
                   ++ [DbSync (mixkey.mixkey_path dataDir (mixkey.epoch k));
                       DbClose (mixkey.mixkey_path dataDir (mixkey.epoch k))]
                   ++ [FileRemove (mixkey.mixkey_path dataDir (mixkey.epoch k))]
                   ++ [KeyReset] |}
              dataDir (mixkey.epoch k) kp Hok (lookup_delete_eq _ _))
    as [(w' & meta & Hnew & _ & _ & _ & _ & _ & _ & _ & Hfalse) _].
  exists w'. split; [exact Hnew | exact Hfalse].
Qed.

Lemma string_length_app (a b : string) :
  String.length (a +:+ b) = (String.length a + String.length b)%nat.
Proof.
  induction a as [|c a IH]; [done|].
  change (String c a +:+ b) with (String c (a +:+ b)).
  change (String.length (String c (a +:+ b))) with (S (String.length (a +:+ b))).
  rewrite IH. reflexivity.
Qed.

Lemma string_app_inj_r (t a b : string) : a +:+ t = b +:+ t -> a = b.
Proof.
  revert b. induction a as [|c a IH]; intros [|c' b] Heq.
  - done.
  - apply (f_equal String.length) in Heq.
    rewrite !string_length_app in Heq. cbn in Heq. lia.
  - apply (f_equal String.length) in Heq.
    rewrite !string_length_app in Heq. cbn in Heq. lia.
  - change (String c a +:+ t) with (String c (a +:+ t)) in Heq.
    change (String c' b +:+ t) with (String c' (b +:+ t)) in Heq.
    injection Heq as -> Heq. f_equal. by apply IH.
Qed.

Lemma mixkey_path_inj (dataDir : string) (e1 e2 : Z) :
  mixkey.mixkey_path dataDir e1 = mixkey.mixkey_path dataDir e2 -> e1 = e2.
Proof.
  unfold mixkey.mixkey_path. intros Heq.
  assert (Hname : "mixkey-" +:+ pretty e1 +:+ ".db" = "mixkey-" +:+ pretty e2 +:+ ".db").
  { case_decide; [done|]. by do 2 apply String.app_inj in Heq. }
  apply String.app_inj in Hname. apply string_app_inj_r in Hname.
  by apply pretty_Z_inj in Hname.
Qed.

(** X7. Keys of different epochs in one data directory live in different files,
    and marking a tag under one of them leaves the file of the other, and so
    its replay bucket, as it was. *)
Theorem epochs_do_not_share_replays w k (dataDir : string) (e1 e2 : Z) tag :
  e1 ≠ e2 ->
  mixkey.db k = Some (mixkey.mixkey_path dataDir e1) ->
  mixkey.mixkey_path dataDir e1 ≠ mixkey.mixkey_path dataDir e2
  ∧ files (mixkey.IsReplay w k tag).1 !! mixkey.mixkey_path dataDir e2
    = files w !! mixkey.mixkey_path dataDir e2
  ∧ replay_bucket (mixkey.IsReplay w k tag).1 (mixkey.mixkey_path dataDir e2)
    = replay_bucket w (mixkey.mixkey_path dataDir e2).
Proof.
  intros Hne Hdb.
  assert (Hpath : mixkey.mixkey_path dataDir e1 ≠ mixkey.mixkey_path dataDir e2)
    by (intros Heq; by apply Hne, (mixkey_path_inj dataDir)).
  assert (Hfiles : files (mixkey.IsReplay w k tag).1 !! mixkey.mixkey_path dataDir e2
                   = files w !! mixkey.mixkey_path dataDir e2).
  { unfold mixkey.IsReplay. case_decide; [done|]. rewrite Hdb.
    unfold bolt_Update, mixkey.IsReplay_tx.
    destruct (db_contents w _ !! mixkey.replayBucket) as [bkt|]; [|done].
    destruct (bolt_Put bkt tag _) as [bkt' err].
    destruct (faulty w); [done|]. cbn. by rewrite lookup_insert_ne. }
  split_and!; [done | done |].
  unfold replay_bucket, db_contents. by rewrite Hfiles.
Qed.

End key_files.

(** * Further properties of the PKI cache *)

Section cache_upkeep.
Implicit Types (p : server.pki) (c : server.Clock) (e : server.pkiCacheEntry).

Lemma wrap64_range (z : Z) : 0 <= wrap64 z <= MaxUint64.
Proof.
  unfold wrap64, MaxUint64.
  pose proof (Z.mod_pos_bound z 18446744073709551616). lia.
Qed.

Lemma wrap64_succ_ne_any (n : Z) : wrap64 (n + 1) ≠ n.
Proof.
  destruct (decide (0 <= n <= MaxUint64)) as [Hn|Hn]; [by apply wrap64_succ_ne|].
  pose proof (wrap64_range (n + 1)). lia.
Qed.

Lemma documentsToFetch_NoDup p c : NoDup (server.documentsToFetch p c).
Proof.
  pose proof (wrap64_succ_ne_any (server.now c)) as Hne.
  unfold server.documentsToFetch.
  repeat case_decide; cbn [app];
    first [ apply NoDup_nil_2 | apply NoDup_singleton
          | apply NoDup_cons; split; [|apply NoDup_singleton] ].
  rewrite elem_of_cons, elem_of_nil. intuition congruence.
Qed.

Lemma documentsToFetch_lacking p c (epoch : Z) :
  epoch ∈ server.documentsToFetch p c ->
  server.docs p !! epoch = None
  ∧ (epoch = server.now c ∨ epoch = wrap64 (server.now c + 1)).
Proof.
  unfold server.documentsToFetch.
  repeat case_decide; cbn [app]; rewrite ?elem_of_cons, ?elem_of_nil;
    intuition (subst; auto).
Qed.

(** X8. [documentsToFetch] asks for the documents the cache lacks among the one
    of the current epoch and, when less than 45 minutes remain, the one of
    the next epoch; it asks for none twice, and for none at all exactly when
    the cache holds what it could ask for. *)
Theorem documentsToFetch_spec p c :
  (∀ epoch, epoch ∈ server.documentsToFetch p c
     ↔ server.docs p !! epoch = None
       ∧ (epoch = server.now c
          ∨ (epoch = wrap64 (server.now c + 1) ∧ server.till c < 45 * server.Minute)))
  ∧ NoDup (server.documentsToFetch p c)
  ∧ (server.documentsToFetch p c = []
     ↔ is_Some (server.docs p !! server.now c)
       ∧ (server.till c < 45 * server.Minute ->
          is_Some (server.docs p !! wrap64 (server.now c + 1)))).
Proof.
  pose proof (wrap64_succ_ne_any (server.now c)) as Hne.
  unfold server.documentsToFetch, server.nextFetchTill.
  destruct (server.docs p !! server.now c) as [e0|] eqn:H0;
    destruct (server.docs p !! wrap64 (server.now c + 1)) as [e1|] eqn:H1;
    repeat case_decide; try done; cbn [app].
  all: split_and!.
  all: try (intros epoch; rewrite ?elem_of_cons, ?elem_of_nil).
  all: try (apply NoDup_nil_2).
  all: try (apply NoDup_singleton).
  all: try (apply NoDup_cons; split; [rewrite elem_of_cons, elem_of_nil; intuition congruence
                                      | apply NoDup_singleton]).
  all: try (split; [intros Hep | intros [Hd Hep]]; intuition (subst; eauto; congruence)).
  all: try (split; [intros ?; done | intros [Hs Hn]]).
  all: try (split; [intros _; split; [eauto | intros; eauto; lia] | done]).
  all: try (destruct Hs as [? ?]; done).
  all: try (destruct (Hn ltac:(lia)) as [? ?]; done).
Qed.

Lemma pruneDocuments_loop_lookup (now : Z) (epochs : list Z) :
  ∀ (m : gmap Z server.pkiCacheEntry) epoch,
    server.pruneDocuments_loop now epochs m !! epoch
    = if decide (epoch < now ∧ epoch ∈ epochs) then None else m !! epoch.
Proof.
  induction epochs as [|ep rest IH]; intros m epoch.
  - cbn. rewrite decide_False; [done|]. intros [_ Hin]. by apply elem_of_nil in Hin.
  - cbn [server.pruneDocuments_loop]. rewrite IH.
    destruct (decide (epoch < now ∧ epoch ∈ rest)) as [[Hlt Hin]|Hno].
    + rewrite decide_True; [done|]. split; [done | by right].
    + destruct (decide (epoch = ep)) as [->|Hne].
      * destruct (decide (ep < now)) as [Hlt|Hge].
        -- rewrite decide_True by (split; [done | by left]). apply lookup_delete_eq.
        -- rewrite decide_False by (intros [? _]; lia). done.
      * rewrite (decide_False (P := epoch < now ∧ epoch ∈ ep :: rest)).
        -- case_decide; [by rewrite lookup_delete_ne | done].
        -- intros [Hlt Hin]. apply elem_of_cons in Hin as [?|?]; [done|]. by apply Hno.
Qed.

Section ranges.
Variable range_epochs : gmap Z server.pkiCacheEntry -> list Z.
Hypothesis range_epochs_keys :
  ∀ (m : gmap Z server.pkiCacheEntry) epoch, epoch ∈ range_epochs m ↔ is_Some (m !! epoch).

Lemma pruneDocuments_lookup p c (epoch : Z) :
  server.docs (server.pruneDocuments range_epochs p c) !! epoch
  = if decide (epoch < server.now c) then None else server.docs p !! epoch.
Proof.
  unfold server.pruneDocuments. cbn [server.docs].
  rewrite pruneDocuments_loop_lookup.
  destruct (decide (epoch < server.now c)) as [Hlt|Hge].
  - destruct (server.docs p !! epoch) as [e|] eqn:He.
    + rewrite decide_True; [done|]. split; [done|].
      apply range_epochs_keys. by rewrite He.
    + by case_decide.
  - rewrite decide_False; [done|]. by intros [? _].
Qed.

(** X9. [pruneDocuments] drops exactly the documents of the epochs before the
    current one, in whatever order the cache is ranged over; the others, also
    those of far future epochs, stay as they are. Pruning again at the same
    time changes nothing more. *)
Theorem pruneDocuments_spec p c :
  server.s (server.pruneDocuments range_epochs p c) = server.s p
  ∧ (∀ epoch,
       server.docs (server.pruneDocuments range_epochs p c) !! epoch
       = if decide (epoch < server.now c) then None else server.docs p !! epoch)
  ∧ server.pruneDocuments range_epochs (server.pruneDocuments range_epochs p c) c
    = server.pruneDocuments range_epochs p c.
Proof.
  split_and!; [done | apply pruneDocuments_lookup |].
  set (q := server.pruneDocuments range_epochs p c).
  assert (Hdocs : server.docs (server.pruneDocuments range_epochs q c) = server.docs q).
  { apply map_eq. intros epoch. rewrite pruneDocuments_lookup. subst q.
    rewrite pruneDocuments_lookup. by case_decide. }
  destruct q as [sq dq] eqn:Hq. unfold server.pruneDocuments in *. cbn in *.
  by rewrite Hdocs.
Qed.

Section worker.
Variable GetNodeByKey : server.Document -> bytes -> outcome server.MixDescriptor.
Variable Get : Z -> outcome server.Document.
Variable isCanceled : Z -> bool.

(** What the fetch loop can have done to the cache. *)
Lemma worker_fetch_inv (epochs : list Z) : ∀ p (b : bool) p' (b' : bool),
  server.worker_fetch GetNodeByKey Get isCanceled p epochs b = server.Fetched p' b' ->
  server.s p' = server.s p
  ∧ (b' = false -> b = false ∧ p' = p)
  ∧ (b = true -> b' = true)
  ∧ ∀ epoch,
      server.docs p' !! epoch = server.docs p !! epoch
      ∨ (epoch ∈ epochs
         ∧ ∃ d e, Get epoch = Ok d
                  ∧ server.newPKICacheEntry GetNodeByKey (server.s p) d = Ok e
                  ∧ server.docs p' !! epoch = Some e).
Proof.
  induction epochs as [|ep rest IH]; intros p b p' b' Hrun.
  - cbn in Hrun. injection Hrun as <- <-. split_and!; auto.
  - cbn [server.worker_fetch] in Hrun.
    destruct (isCanceled ep); [done|].
    assert (Hskip : server.worker_fetch GetNodeByKey Get isCanceled p rest b
                    = server.Fetched p' b' ->
      server.s p' = server.s p
      ∧ (b' = false -> b = false ∧ p' = p)
      ∧ (b = true -> b' = true)
      ∧ ∀ epoch,
          server.docs p' !! epoch = server.docs p !! epoch
          ∨ (epoch ∈ ep :: rest
             ∧ ∃ d e, Get epoch = Ok d
                      ∧ server.newPKICacheEntry GetNodeByKey (server.s p) d = Ok e
                      ∧ server.docs p' !! epoch = Some e)).
    { intros Hrest. destruct (IH p b p' b' Hrest) as (Hs & Hf & Ht & Hd).
      split_and!; try done. intros epoch.
      destruct (Hd epoch) as [?|(Hin & ?)]; [by left|]. right. split; [by right | done]. }
    destruct (Get ep) as [d|err|msg] eqn:Hget; [|by apply Hskip | done].
    destruct (server.newPKICacheEntry GetNodeByKey (server.s p) d) as [ent|err|msg] eqn:Hent;
      [|by apply Hskip | done].
    destruct (IH _ true p' b' Hrun) as (Hs & Hf & Ht & Hd). cbn [server.s server.docs] in *.
    split_and!; [done | | auto |].
    + intros ->. by discriminate (Ht eq_refl).
    + intros epoch. destruct (Hd epoch) as [Hsame|(Hin & d' & e' & ? & ? & ?)].
      * destruct (decide (epoch = ep)) as [->|Hne].
        -- right. split; [by left|]. exists d, ent.
           by rewrite Hsame, lookup_insert_eq.
        -- left. by rewrite Hsame, lookup_insert_ne.
      * right. split; [by right|]. by exists d', e'.
Qed.

(** What the fetch loop has stored when it ends. *)
Lemma worker_fetch_stores (epochs : list Z) : ∀ p (b : bool) p' (b' : bool),
  NoDup epochs ->
  server.worker_fetch GetNodeByKey Get isCanceled p epochs b = server.Fetched p' b' ->
  ∀ epoch d e,
    epoch ∈ epochs -> Get epoch = Ok d ->
    server.newPKICacheEntry GetNodeByKey (server.s p) d = Ok e ->
    b' = true ∧ server.docs p' !! epoch = Some e.
Proof.
  induction epochs as [|ep rest IH]; intros p b p' b' Hnd Hrun epoch d e Hin Hget Hent.
  - by apply elem_of_nil in Hin.
  - apply NoDup_cons in Hnd as [Hnotin Hnd].
    cbn [server.worker_fetch] in Hrun.
    destruct (isCanceled ep); [done|].
    apply elem_of_cons in Hin as [->|Hin].
    + rewrite Hget, Hent in Hrun.
      destruct (worker_fetch_inv rest _ true p' b' Hrun) as (_ & _ & Ht & Hd).
      split; [by apply Ht|].
      destruct (Hd ep) as [Hsame|(Hin' & _)]; [|done].
      cbn [server.docs] in Hsame. by rewrite Hsame, lookup_insert_eq.
    + destruct (Get ep) as [d0|err|msg]; [|by eapply IH | done].
      destruct (server.newPKICacheEntry GetNodeByKey (server.s p) d0) as [ent|err|msg];
        [|by eapply IH | done].
      by eapply (IH _ true p' b' Hnd Hrun).
Qed.

(** X10. A round of the worker that runs to its end. The configuration stays.
    When nothing was fetched the cache is untouched, expired documents
    included. Otherwise every document the cache holds afterwards is of the
    pruning epoch or later, and either was cached before or is the entry
    built from the fetched document of the current or the next epoch, which
    the cache lacked. A cached document is never replaced: it is kept, or
    pruned as expired. A document that was asked for and fetched, and from
    which an entry could be built, is in the cache afterwards unless it is
    pruned at once. *)
Theorem worker_round_spec p c c' p' (didUpdate : bool) :
  server.worker_round range_epochs GetNodeByKey Get isCanceled p c c'
  = server.Fetched p' didUpdate ->
  server.s p' = server.s p
  ∧ (didUpdate = false -> p' = p)
  ∧ (∀ epoch e, server.docs p' !! epoch = Some e ->
       (didUpdate = true -> server.now c' <= epoch)
       ∧ (server.docs p !! epoch = Some e
          ∨ (server.docs p !! epoch = None
             ∧ (epoch = server.now c ∨ epoch = wrap64 (server.now c + 1))
             ∧ ∃ d, Get epoch = Ok d
                    ∧ server.newPKICacheEntry GetNodeByKey (server.s p) d = Ok e)))
  ∧ (∀ epoch e, server.docs p !! epoch = Some e ->
       server.docs p' !! epoch = Some e
       ∨ (server.docs p' !! epoch = None ∧ didUpdate = true ∧ epoch < server.now c'))
  ∧ (∀ epoch d e, epoch ∈ server.documentsToFetch p c -> Get epoch = Ok d ->
       server.newPKICacheEntry GetNodeByKey (server.s p) d = Ok e ->
       didUpdate = true
       ∧ (server.docs p' !! epoch = Some e
          ∨ (server.docs p' !! epoch = None ∧ epoch < server.now c'))).
Proof.
  unfold server.worker_round. intros Hround.
  destruct (server.worker_fetch GetNodeByKey Get isCanceled p
              (server.documentsToFetch p c) false) as [| |q b] eqn:Hfetch; [done..|].
  destruct (worker_fetch_inv _ _ _ _ _ Hfetch) as (Hs & Hfalse & _ & Hdocs).
  pose proof (documentsToFetch_lacking p c) as Hlack.
  assert (Hq : ∀ epoch e, server.docs q !! epoch = Some e ->
            server.docs p !! epoch = Some e
            ∨ (server.docs p !! epoch = None
               ∧ (epoch = server.now c ∨ epoch = wrap64 (server.now c + 1))
               ∧ ∃ d, Get epoch = Ok d
                      ∧ server.newPKICacheEntry GetNodeByKey (server.s p) d = Ok e)).
  { intros epoch e He. destruct (Hdocs epoch) as [Hsame|(Hin & d & e' & ? & ? & He')].
    - left. congruence.
    - right. destruct (Hlack epoch Hin) as [Hnone Hwhich].
      split_and!; [done | done |]. exists d. split; [done|]. congruence. }
  assert (Hkeep : ∀ epoch e, server.docs p !! epoch = Some e ->
            server.docs q !! epoch = Some e).
  { intros epoch e He. destruct (Hdocs epoch) as [Hsame|(Hin & _)]; [congruence|].
    destruct (Hlack epoch Hin) as [Hnone _]. congruence. }
  assert (Hstored : ∀ epoch d e, epoch ∈ server.documentsToFetch p c -> Get epoch = Ok d ->
            server.newPKICacheEntry GetNodeByKey (server.s p) d = Ok e ->
            b = true ∧ server.docs q !! epoch = Some e).
  { apply (worker_fetch_stores _ p false q b); [|done].
    apply (documentsToFetch_NoDup p c). }
  destruct b.
  - injection Hround as <- <-. split_and!; [done | done | | |].
    + intros epoch e He. rewrite pruneDocuments_lookup in He.
      case_decide; [done|]. split; [lia | by apply Hq].
    + intros epoch e He. rewrite pruneDocuments_lookup.
      case_decide; [by right | left; by apply Hkeep].
    + intros epoch d e Hin Hget Hent. split; [done|].
      destruct (Hstored epoch d e Hin Hget Hent) as [_ He].
      rewrite pruneDocuments_lookup. case_decide; [by right | by left].
  - injection Hround as <- <-. destruct (Hfalse eq_refl) as [_ ->].
    split_and!; [done | done | | |].
    + intros epoch e He. split; [done | by left].
    + intros epoch e He. by left.
    + intros epoch d e Hin Hget Hent.
      by destruct (Hstored epoch d e Hin Hget Hent) as [? _].
Qed.

End worker.
End ranges.

End cache_upkeep.

Section peers.
Implicit Types (p : server.pki) (c : server.Clock) (cr : server.PeerCredentials).
Implicit Types (e d : server.pkiCacheEntry) (id pk : bytes).

Lemma wrap64_pred_ne_any (n : Z) : wrap64 (n - 1) ≠ n.
Proof.
  intros Heq. pose proof (wrap64_range (n - 1)) as Hr. rewrite Heq in Hr.
  revert Heq. unfold wrap64, MaxUint64 in *.
  destruct (decide (n = 0)) as [->|Hne]; [done|].
  rewrite Z.mod_small by lia. lia.
Qed.

Lemma docsForOutgoing_searchSet p c :
  server.docsForOutgoing p c = (server.docsForEpochs p (searchSet c), server.now c).
Proof.
  unfold server.docsForOutgoing, searchSet, server.pkiEarlyConnectSlack,
    server.pkiLateConnectSlack.
  by repeat case_decide.
Qed.

(** X11. Leave to send is never given to a peer that is not valid, on either
    path and whatever the configuration; and with mix authentication enabled
    the outgoing path returns a descriptor whenever the peer is valid. *)
Theorem canSend_implies_isValid p c cr :
  ((server.authenticateIncoming p c cr).1 = true ->
   (server.authenticateIncoming p c cr).2 = true)
  ∧ ((server.authenticateOutgoing p c cr).1.2 = true ->
     (server.authenticateOutgoing p c cr).2 = true)
  ∧ (server.DisableMixAuthentication (server.s p) = false ->
     (server.authenticateOutgoing p c cr).2 = true ->
     is_Some (server.authenticateOutgoing p c cr).1.1).
Proof.
  destruct (server.DisableMixAuthentication (server.s p)) eqn:Hauth.
  - unfold server.authenticateIncoming, server.authenticateOutgoing. rewrite Hauth.
    by split_and!.
  - split_and!.
    + destruct (authenticateIncoming_verdict p c cr Hauth) as [Hv Hs].
      rewrite Hs, Hv. intros (? & e & ? & ? & _). eauto.
    + rewrite authenticateOutgoing_unfold by done.
      destruct (authenticateOutgoing_loop_spec (server.now c)
                  (server.copyNodeID (server.AdditionalData cr)) (server.PublicKey cr)
                  (server.docsForEpochs p (searchSet c)) None false)
        as (Hs & Hv & _). cbn zeta in *.
      rewrite Hs, Hv. intros (d & ? & ? & _). right. eauto.
    + intros _. rewrite authenticateOutgoing_unfold by done.
      destruct (authenticateOutgoing_loop_spec (server.now c)
                  (server.copyNodeID (server.AdditionalData cr)) (server.PublicKey cr)
                  (server.docsForEpochs p (searchSet c)) None false)
        as (_ & Hv & _ & Hsome). cbn zeta in *.
      rewrite Hv. intros [?|Hex]; [done|].
      destruct (Hsome Hex) as (d & v & _ & _ & _ & ->). by eexists.
Qed.

(** X12. The late grace. With mix authentication enabled, take a node that only
    the cached document for the previous epoch lists, with the presented
    link key. That document is consulted only while 30 minutes or more
    remain and less than 3 minutes have elapsed: the node is then valid, and
    allowed to send during the first 2 minutes; from 3 minutes on, or with
    less than 30 minutes remaining, it is not valid. *)
Theorem authenticateIncoming_previous_epoch_only p c cr e m :
  server.DisableMixAuthentication (server.s p) = false ->
  length (server.AdditionalData cr) = server.NodeIDLength ->
  server.docs p !! wrap64 (server.now c - 1) = Some e ->
  server.Epoch (server.doc e) = wrap64 (server.now c - 1) ->
  server.incoming e !! server.AdditionalData cr = Some m ->
  server.LinkKey m = server.PublicKey cr ->
  (∀ epoch e', epoch ≠ wrap64 (server.now c - 1) ->
     server.docs p !! epoch = Some e' ->
     server.incoming e' !! server.AdditionalData cr = None) ->
  (server.till c < 30 * server.Minute ->
     server.authenticateIncoming p c cr = (false, false))
  ∧ (30 * server.Minute <= server.till c -> server.elapsed c < 2 * server.Minute ->
     server.authenticateIncoming p c cr = (true, true))
  ∧ (30 * server.Minute <= server.till c ->
     2 * server.Minute <= server.elapsed c < 3 * server.Minute ->
     server.authenticateIncoming p c cr = (false, true))
  ∧ (3 * server.Minute <= server.elapsed c ->
     server.authenticateIncoming p c cr = (false, false)).
Proof.
  intros Hauth Hlen Hdoc Hepoch Hm Hpk Honly.
  destruct (authenticateIncoming_verdict p c cr Hauth) as [Hvalid Hsend].
  pose proof (wrap64_pred_ne_any (server.now c)) as Hpred.
  pose proof (wrap64_succ_ne_pred (server.now c)) as Hsp.
  assert (Hlisted : listed (server.incoming e) (server.AdditionalData cr) (server.PublicKey cr))
    by (by exists m).
  assert (Hsame : ∀ e', searched p c e' ->
            listed (server.incoming e') (server.AdditionalData cr) (server.PublicKey cr) ->
            wrap64 (server.now c - 1) ∈ searchSet c ∧ e' = e).
  { intros e' (epoch & Hin & He') (v & Hv & _).
    destruct (decide (epoch = wrap64 (server.now c - 1))) as [->|Hne].
    - split; [done | congruence].
    - rewrite (Honly epoch e' Hne He') in Hv. discriminate. }
  assert (Hout : wrap64 (server.now c - 1) ∉ searchSet c ->
            server.authenticateIncoming p c cr = (false, false)).
  { intros Hnot. apply pair_bool_eq.
    - rewrite Hsend. split; [|done]. intros (_ & e' & Hs & Hl & _).
      by destruct (Hsame e' Hs Hl) as [Hin _].
    - rewrite Hvalid. split; [|done]. intros (_ & e' & Hs & Hl).
      by destruct (Hsame e' Hs Hl) as [Hin _]. }
  assert (Hin : 30 * server.Minute <= server.till c ->
            server.elapsed c < 3 * server.Minute -> searched p c e).
  { intros Ht He. exists (wrap64 (server.now c - 1)). split; [|done].
    unfold searchSet. rewrite decide_False by lia. rewrite decide_True by lia.
    right. by left. }
  split_and!.
  - intros Ht. apply Hout. unfold searchSet. rewrite decide_True by lia.
    intros Hin'. apply elem_of_cons in Hin' as [?|Hin']; [congruence|].
    apply elem_of_cons in Hin' as [?|Hin']; [congruence|]. by apply elem_of_nil in Hin'.
  - intros Ht He. apply pair_bool_eq.
    + rewrite Hsend. split; [done|]. intros _. split; [done|]. exists e.
      unfold server.Minute in *.
      split_and!; [apply Hin; lia | done |]. right. right. done.
    + rewrite Hvalid. split; [done|]. intros _. split; [done|]. exists e.
      unfold server.Minute in *. split; [apply Hin; lia | done].
  - intros Ht He. apply pair_bool_eq.
    + rewrite Hsend. split; [|done]. intros (_ & e' & Hs' & Hl' & Hg).
      destruct (Hsame e' Hs' Hl') as [_ ->]. unfold sendGrace in Hg.
      rewrite Hepoch in Hg. intuition (try congruence; lia).
    + rewrite Hvalid. split; [done|]. intros _. split; [done|]. exists e.
      split; [apply Hin; lia | done].
  - intros He. apply Hout. unfold searchSet.
    case_decide.
    + intros Hin'. apply elem_of_cons in Hin' as [?|Hin']; [congruence|].
      apply elem_of_cons in Hin' as [?|Hin']; [congruence|]. by apply elem_of_nil in Hin'.
    + rewrite decide_False by lia.
      intros Hin'. apply elem_of_cons in Hin' as [?|Hin']; [congruence|].
      by apply elem_of_nil in Hin'.
Qed.

(** X13. A forward destination and the outgoing authentication agree. With mix
    authentication enabled [isValidForwardDest] holds of an id iff the entry
    cached at the current epoch lists it as outgoing. In a cache that keeps
    each document under its own epoch, a peer with a node id that the
    outgoing authentication allows to be sent to is a valid forward
    destination, and a valid forward destination authenticates with leave
    to send under the link key of its descriptor. *)
Theorem isValidForwardDest_agrees p c :
  server.DisableMixAuthentication (server.s p) = false ->
  (∀ id, server.isValidForwardDest p c id = true
         ↔ ∃ e, server.docs p !! server.now c = Some e ∧ is_Some (server.outgoing e !! id))
  ∧ ((∀ epoch e, server.docs p !! epoch = Some e -> server.Epoch (server.doc e) = epoch) ->
     (∀ cr, length (server.AdditionalData cr) = server.NodeIDLength ->
            (server.authenticateOutgoing p c cr).1.2 = true ->
            server.isValidForwardDest p c (server.AdditionalData cr) = true)
     ∧ (∀ id, length id = server.NodeIDLength ->
              server.isValidForwardDest p c id = true ->
              ∃ v, server.authenticateOutgoing p c
                     {| server.AdditionalData := id; server.PublicKey := server.LinkKey v |}
                   = (Some v, true, true))).
Proof.
  intros Hauth.
  assert (Hiff : ∀ id, server.isValidForwardDest p c id = true
            ↔ ∃ e, server.docs p !! server.now c = Some e
                   ∧ is_Some (server.outgoing e !! id)).
  { intros id. unfold server.isValidForwardDest. rewrite Hauth.
    destruct (server.docs p !! server.now c) as [e|].
    - rewrite bool_decide_eq_true. split; [eauto|]. by intros (e' & [= <-] & ?).
    - split; [done|]. by intros (e' & ? & _). }
  split; [exact Hiff|]. intros Hkeyed. split.
  - intros cr Hlen Hsend. apply Hiff.
    rewrite authenticateOutgoing_unfold in Hsend by done.
    destruct (authenticateOutgoing_loop_spec (server.now c)
                (server.copyNodeID (server.AdditionalData cr)) (server.PublicKey cr)
                (server.docsForEpochs p (searchSet c)) None false)
      as (Hs & _). cbn zeta in Hs.
    apply Hs in Hsend as (d & Hd & (v & Hv & _) & Hep).
    apply elem_of_docsForEpochs in Hd as (epoch & _ & Hd).
    rewrite (Hkeyed epoch d Hd) in Hep. subst epoch.
    rewrite copyNodeID_exact in Hv by done. exists d. split; [done | by eexists].
  - intros id Hlen Hvalid. apply Hiff in Hvalid as (e & He & [v Hv]).
    exists v. rewrite authenticateOutgoing_unfold by done.
    cbn [server.AdditionalData server.PublicKey]. rewrite copyNodeID_exact by done.
    unfold searchSet, server.docsForEpochs. cbn [omap list_omap]. rewrite He.
    cbn [server.authenticateOutgoing_loop]. rewrite Hv.
    rewrite bool_decide_true by done. cbn [negb].
    by rewrite decide_True by (by apply Hkeyed).
Qed.

End peers.

Section destinations.
Implicit Types (p : server.pki) (c : server.Clock) (e d : server.pkiCacheEntry).
Implicit Types (id : bytes) (m acc : gmap bytes server.MixDescriptor).

Lemma addDestinations_spec (vs : list server.MixDescriptor) : ∀ acc id,
  (∀ x, acc !! id = Some x -> server.addDestinations acc vs !! id = Some x)
  ∧ (∀ v, server.addDestinations acc vs !! id = Some v ->
       acc !! id = Some v
       ∨ (acc !! id = None ∧ v ∈ vs ∧ server.copyNodeID (server.IdentityKey v) = id))
  ∧ ((∃ v, v ∈ vs ∧ server.copyNodeID (server.IdentityKey v) = id) ->
     is_Some (server.addDestinations acc vs !! id)).
Proof.
  unfold server.addDestinations.
  induction vs as [|v0 rest IH]; intros acc id.
  - cbn. split_and!; [done | by left |]. intros (v & Hv & _). by apply elem_of_nil in Hv.
  - cbn [foldl].
    set (acc' := match acc !! server.copyNodeID (server.IdentityKey v0) with
                 | Some _ => acc
                 | None => <[server.copyNodeID (server.IdentityKey v0) := v0]> acc
                 end).
    destruct (IH acc' id) as (IHkeep & IHfrom & IHsome).
    assert (Hacc' : ∀ x, acc !! id = Some x -> acc' !! id = Some x).
    { intros x Hx. subst acc'.
      destruct (acc !! server.copyNodeID (server.IdentityKey v0)) eqn:H0; [done|].
      rewrite lookup_insert_ne; [done|]. intros Heq. congruence. }
    assert (Hfrom' : ∀ x, acc' !! id = Some x ->
              acc !! id = Some x
              ∨ (acc !! id = None ∧ x = v0
                 ∧ server.copyNodeID (server.IdentityKey v0) = id)).
    { intros x Hx. subst acc'.
      destruct (acc !! server.copyNodeID (server.IdentityKey v0)) eqn:H0; [by left|].
      destruct (decide (server.copyNodeID (server.IdentityKey v0) = id)) as [Heq|Hne].
      - right. rewrite Heq, lookup_insert_eq in Hx. injection Hx as <-.
        rewrite <- Heq. done.
      - left. by rewrite lookup_insert_ne in Hx. }
    split_and!.
    + intros x Hx. by apply IHkeep, Hacc'.
    + intros v Hv. destruct (IHfrom v Hv) as [Hin|(Hnone & Hin & Hid)].
      * destruct (Hfrom' v Hin) as [?|(? & -> & ?)]; [by left|].
        right. split_and!; [done | by left | done].
      * destruct (acc !! id) as [x|] eqn:Hx.
        { rewrite (Hacc' x eq_refl) in Hnone. discriminate. }
        right. split_and!; [done | by right | done].
    + intros (v & Hv & Hid). apply elem_of_cons in Hv as [->|Hv].
      * assert (Hs : is_Some (acc' !! id)).
        { subst acc'.
          destruct (acc !! server.copyNodeID (server.IdentityKey v0)) eqn:H0.
          - rewrite <- Hid. by rewrite H0.
          - rewrite Hid. by rewrite lookup_insert_eq. }
        destruct Hs as [x Hx]. rewrite (IHkeep x Hx). by eexists.
      * apply IHsome. by exists v.
Qed.

Section ranges.
Variable range_values : gmap bytes server.MixDescriptor -> list server.MixDescriptor.
Hypothesis range_values_elems :
  ∀ m v, v ∈ range_values m ↔ ∃ k, m !! k = Some v.

(** Ranging over a map whose keys are the ids of its descriptors adds, for an
    id, the descriptor the map lists for it. *)
Lemma addDestinations_keyed acc m id :
  keyed_by_identity m ->
  server.addDestinations acc (range_values m) !! id
  = match acc !! id with Some x => Some x | None => m !! id end.
Proof.
  intros Hkeyed.
  destruct (addDestinations_spec (range_values m) acc id) as (Hkeep & Hfrom & Hsome).
  destruct (acc !! id) as [x|] eqn:Hx; [by apply Hkeep|].
  destruct (m !! id) as [v|] eqn:Hv.
  - destruct Hsome as [v' Hv'].
    { exists v. split; [apply range_values_elems; eauto | by apply (Hkeyed id)]. }
    rewrite Hv'. destruct (Hfrom v' Hv') as [?|(_ & Hin & Hid)]; [done|].
    apply range_values_elems in Hin as [k Hk].
    rewrite (Hkeyed k v' Hk) in Hid. subst k. congruence.
  - destruct (server.addDestinations acc (range_values m) !! id) as [v'|] eqn:Hv'; [|done].
    destruct (Hfrom v' eq_refl) as [?|(_ & Hin & Hid)]; [done|].
    apply range_values_elems in Hin as [k Hk].
    rewrite (Hkeyed k v' Hk) in Hid. subst k. congruence.
Qed.

Lemma destinations_fold_spec (ds : list server.pkiCacheEntry) : ∀ acc id,
  (∀ x, acc !! id = Some x ->
     foldl (fun m d => server.addDestinations m (range_values (server.outgoing d))) acc ds
       !! id = Some x)
  ∧ (∀ v, foldl (fun m d => server.addDestinations m (range_values (server.outgoing d)))
             acc ds !! id = Some v ->
       acc !! id = Some v
       ∨ (server.copyNodeID (server.IdentityKey v) = id
          ∧ ∃ d k, d ∈ ds ∧ server.outgoing d !! k = Some v))
  ∧ ((∃ d k v, d ∈ ds ∧ server.outgoing d !! k = Some v
               ∧ server.copyNodeID (server.IdentityKey v) = id) ->
     is_Some (foldl (fun m d => server.addDestinations m (range_values (server.outgoing d)))
                acc ds !! id)).
Proof.
  induction ds as [|d rest IH]; intros acc id.
  - cbn. split_and!; [done | by left |]. intros (d & k & v & Hd & _). by apply elem_of_nil in Hd.
  - cbn [foldl].
    destruct (IH (server.addDestinations acc (range_values (server.outgoing d))) id)
      as (IHkeep & IHfrom & IHsome).
    destruct (addDestinations_spec (range_values (server.outgoing d)) acc id)
      as (Hkeep & Hfrom & Hsome).
    split_and!.
    + intros x Hx. by apply IHkeep, Hkeep.
    + intros v Hv. destruct (IHfrom v Hv) as [Hin|(Hid & d' & k & Hd' & Hk)].
      * destruct (Hfrom v Hin) as [?|(_ & Hr & Hid)]; [by left|].
        apply range_values_elems in Hr as [k Hk].
        right. split; [done|]. exists d, k. split; [by left | done].
      * right. split; [done|]. exists d', k. split; [by right | done].
    + intros (d' & k & v & Hd' & Hk & Hid). apply elem_of_cons in Hd' as [->|Hd'].
      * destruct Hsome as [x Hx].
        { exists v. split; [apply range_values_elems; eauto | done]. }
        rewrite (IHkeep x Hx). by eexists.
      * apply IHsome. by exists d', k, v.
Qed.

Lemma destinations_fold_keyed (ds : list server.pkiCacheEntry) : ∀ acc id,
  (∀ d, d ∈ ds -> keyed_by_identity (server.outgoing d)) ->
  foldl (fun m d => server.addDestinations m (range_values (server.outgoing d))) acc ds !! id
  = match acc !! id with
    | Some x => Some x
    | None => head (omap (fun d => server.outgoing d !! id) ds)
    end.
Proof.
  induction ds as [|d rest IH]; intros acc id Hkeyed.
  - cbn. by destruct (acc !! id).
  - cbn [foldl]. rewrite IH by (intros d' Hd'; apply Hkeyed; by right).
    rewrite addDestinations_keyed by (apply Hkeyed; by left).
    destruct (acc !! id) as [x|]; [done|]. cbn [omap list_omap].
    by destruct (server.outgoing d !! id).
Qed.

(** X14. [outgoingDestinations], in whatever order the maps are ranged over.
    Every destination is a descriptor that an entry of the search set lists
    as outgoing, filed under its own node id, and every such descriptor has
    its node id among the destinations. When the keys of those outgoing maps
    are the node ids of their descriptors, as in the maps the cache builds,
    the descriptor of a destination is the one the first entry in search
    order lists for it, and with mix authentication enabled the destinations
    are the node ids that the outgoing authentication finds valid under some
    link key. *)
Theorem outgoingDestinations_spec p c :
  (∀ id v, server.outgoingDestinations range_values p c !! id = Some v ->
     server.copyNodeID (server.IdentityKey v) = id
     ∧ ∃ e k, searched p c e ∧ server.outgoing e !! k = Some v)
  ∧ (∀ e k v, searched p c e -> server.outgoing e !! k = Some v ->
       is_Some (server.outgoingDestinations range_values p c
                  !! server.copyNodeID (server.IdentityKey v)))
  ∧ ((∀ e, searched p c e -> keyed_by_identity (server.outgoing e)) ->
     (∀ id, server.outgoingDestinations range_values p c !! id
            = head (omap (fun e => server.outgoing e !! id)
                      (server.docsForEpochs p (searchSet c))))
     ∧ (server.DisableMixAuthentication (server.s p) = false ->
        ∀ id, length id = server.NodeIDLength ->
          (is_Some (server.outgoingDestinations range_values p c !! id)
           ↔ ∃ pk, (server.authenticateOutgoing p c
                      {| server.AdditionalData := id; server.PublicKey := pk |}).2 = true))).
Proof.
  unfold server.outgoingDestinations. rewrite docsForOutgoing_searchSet.
  assert (Hs : ∀ e, e ∈ server.docsForEpochs p (searchSet c) ↔ searched p c e).
  { intros e. apply elem_of_docsForEpochs. }
  split_and!.
  - intros id v Hv.
    destruct (destinations_fold_spec (server.docsForEpochs p (searchSet c)) ∅ id)
      as (_ & Hfrom & _).
    destruct (Hfrom v Hv) as [Hin|(Hid & d & k & Hd & Hk)].
    + by rewrite lookup_empty in Hin.
    + split; [done|]. exists d, k. split; [by apply Hs | done].
  - intros e k v He Hk.
    destruct (destinations_fold_spec (server.docsForEpochs p (searchSet c)) ∅
                (server.copyNodeID (server.IdentityKey v))) as (_ & _ & Hsome).
    apply Hsome. exists e, k, v. split; [by apply Hs | done].
  - intros Hkeyed.
    assert (Hhead : ∀ id,
              foldl (fun m d => server.addDestinations m (range_values (server.outgoing d)))
                ∅ (server.docsForEpochs p (searchSet c)) !! id
              = head (omap (fun e => server.outgoing e !! id)
                        (server.docsForEpochs p (searchSet c)))).
    { intros id. rewrite destinations_fold_keyed.
      - by rewrite lookup_empty.
      - intros d Hd. by apply Hkeyed, Hs. }
    split; [exact Hhead|].
    intros Hauth id Hlen. rewrite Hhead.
    assert (Hlist : is_Some (head (omap (fun e => server.outgoing e !! id)
                                 (server.docsForEpochs p (searchSet c))))
                    ↔ ∃ e, searched p c e ∧ is_Some (server.outgoing e !! id)).
    { rewrite head_is_Some. split.
      - intros Hne.
        destruct (omap (fun e => server.outgoing e !! id)
                    (server.docsForEpochs p (searchSet c))) as [|v rest] eqn:Hom; [done|].
        assert (Hv : v ∈ omap (fun e => server.outgoing e !! id)
                       (server.docsForEpochs p (searchSet c))) by (rewrite Hom; by left).
        apply list_elem_of_omap in Hv as (e & He & Hv).
        exists e. split; [by apply Hs | by eexists].
      - intros (e & He & [v Hv]) Hnil.
        assert (Hin : v ∈ omap (fun e => server.outgoing e !! id)
                        (server.docsForEpochs p (searchSet c))).
        { apply list_elem_of_omap. exists e. split; [by apply Hs | done]. }
        rewrite Hnil in Hin. by apply elem_of_nil in Hin. }
    rewrite Hlist. split.
    + intros (e & He & [v Hv]). exists (server.LinkKey v).
      rewrite authenticateOutgoing_unfold by done.
      destruct (authenticateOutgoing_loop_spec (server.now c)
                  (server.copyNodeID id) (server.LinkKey v)
                  (server.docsForEpochs p (searchSet c)) None false)
        as (_ & Hvalid & _). cbn zeta in Hvalid.
      cbn [server.AdditionalData server.PublicKey]. apply Hvalid. right.
      exists e. split; [by apply Hs|]. exists v.
      by rewrite copyNodeID_exact by done.
    + intros [pk Hpk]. rewrite authenticateOutgoing_unfold in Hpk by done.
      destruct (authenticateOutgoing_loop_spec (server.now c)
                  (server.copyNodeID id) pk
                  (server.docsForEpochs p (searchSet c)) None false)
        as (_ & Hvalid & _). cbn zeta in Hvalid.
      cbn [server.AdditionalData server.PublicKey] in Hpk.
      apply Hvalid in Hpk as [?|(d & Hd & v & Hv & _)]; [done|].
      rewrite copyNodeID_exact in Hv by done.
      exists d. split; [by apply Hs | by eexists].
Qed.

End ranges.
End destinations.

Section entries.
Variable GetNodeByKey : server.Document -> bytes -> outcome server.MixDescriptor.
Implicit Types (d : server.Document) (e : server.pkiCacheEntry) (srv : server.Server).
Implicit Types (me : server.MixDescriptor).

Lemma foldl_insert_keyed (nodes : list server.MixDescriptor) :
  ∀ (m : gmap bytes server.MixDescriptor) k v,
    foldl (fun m v => <[server.copyNodeID (server.IdentityKey v) := v]> m) m nodes !! k
    = Some v ->
    m !! k = Some v ∨ (server.copyNodeID (server.IdentityKey v) = k ∧ v ∈ nodes).
Proof.
  induction nodes as [|v0 rest IH]; intros m k v Hk.
  - left. exact Hk.
  - cbn [foldl] in Hk.
    destruct (IH (<[server.copyNodeID (server.IdentityKey v0) := v0]> m) k v Hk)
      as [Hin|[Hid Hin]].
    + destruct (decide (server.copyNodeID (server.IdentityKey v0) = k)) as [Heq|Hne].
      * rewrite Heq, lookup_insert_eq in Hin. injection Hin as <-.
        right. split; [done | by left].
      * rewrite lookup_insert_ne in Hin by done. by left.
    + right. split; [done | by right].
Qed.

Lemma buildMap_keyed d (layer : Z) (m : gmap bytes server.MixDescriptor) :
  server.buildMap d layer ∅ = Ok m ->
  ∀ k v, m !! k = Some v ->
    server.copyNodeID (server.IdentityKey v) = k
    ∧ (v ∈ server.Providers d ∨ ∃ nodes, nodes ∈ server.Topology d ∧ v ∈ nodes).
Proof.
  unfold server.buildMap. intros Hm k v Hk.
  destruct (decide (layer = server.LayerProvider)) as [Hp|Hp].
  - injection Hm as <-.
    destruct (foldl_insert_keyed (server.Providers d) ∅ k v Hk)
      as [Hin|[Hid Hin]]; [by rewrite lookup_empty in Hin|].
    split; [done | by left].
  - destruct (server.Topology d !! Z.to_nat layer) as [nodes|] eqn:Hnodes; [|done].
    injection Hm as <-.
    destruct (foldl_insert_keyed nodes ∅ k v Hk)
      as [Hin|[Hid Hin]]; [by rewrite lookup_empty in Hin|].
    split; [done|]. right. exists nodes. split; [|done].
    by apply list_elem_of_lookup_2 in Hnodes.
Qed.

(** X15. The maps of an entry that was built are keyed by node id: each key is
    32 bytes long and is the node id of the descriptor filed under it, and
    each descriptor comes from the providers or from a layer of the
    document. This holds for documents of any number of layers. *)
Theorem newPKICacheEntry_maps_keyed srv d e :
  server.newPKICacheEntry GetNodeByKey srv d = Ok e ->
  keyed_by_identity (server.incoming e)
  ∧ keyed_by_identity (server.outgoing e)
  ∧ (∀ k v, server.incoming e !! k = Some v ∨ server.outgoing e !! k = Some v ->
       length k = 32%nat
       ∧ (v ∈ server.Providers d ∨ ∃ nodes, nodes ∈ server.Topology d ∧ v ∈ nodes)).
Proof.
  intros Hnew.
  destruct (newPKICacheEntry_inv GetNodeByKey srv d e Hnew)
    as (_ & _ & _ & _ & _ & Hinc & Hout).
  pose proof (buildMap_keyed d _ _ Hinc) as Hki.
  pose proof (buildMap_keyed d _ _ Hout) as Hko.
  split_and!.
  - intros k v Hk. by apply Hki.
  - intros k v Hk. by apply Hko.
  - intros k v [Hk|Hk].
    + destruct (Hki k v Hk) as [<- ?]. split; [apply copyNodeID_length | done].
    + destruct (Hko k v Hk) as [<- ?]. split; [apply copyNodeID_length | done].
Qed.

Lemma buildMap_in_range d (layer : Z) :
  layer = server.LayerProvider
  ∨ (0 <= layer < Z.of_nat (length (server.Topology d))) ->
  ∃ m, server.buildMap d layer ∅ = Ok m.
Proof.
  unfold server.buildMap. intros [->|Hr].
  - rewrite decide_True by done. by eexists.
  - case_decide; [by eexists|].
    destruct (lookup_lt_is_Some_2 (server.Topology d) (Z.to_nat layer)) as [nodes ->]; [lia|].
    by eexists.
Qed.

(** X16. [newPKICacheEntry] when our descriptor is found and its layer is a
    [uint8]. It succeeds exactly when the topology is not empty, the
    configured identifier is the name of the descriptor, and the layer fits
    the role: the provider sentinel for a provider, a layer of the topology
    otherwise. Otherwise it returns an error. It never panics, whatever the
    number of layers: the layers it builds the maps from are the providers
    or lie within the topology. *)
Theorem newPKICacheEntry_outcome srv d me :
  GetNodeByKey d (server.identityKey srv) = Ok me ->
  0 <= server.Layer me <= 255 ->
  ((∃ e, server.newPKICacheEntry GetNodeByKey srv d = Ok e)
   ↔ server.Topology d ≠ []
     ∧ server.Identifier srv = server.Name me
     ∧ (if server.IsProvider srv then server.Layer me = 255
        else server.Layer me ≠ 255
             ∧ server.Layer me < Z.of_nat (length (server.Topology d))))
  ∧ (∀ msg, server.newPKICacheEntry GetNodeByKey srv d ≠ Panic msg)
  ∧ (∀ e, server.newPKICacheEntry GetNodeByKey srv d = Ok e ->
       server.doc e = d ∧ server.self e = me).
Proof.
  intros Hme Hu8.
  unfold server.newPKICacheEntry. rewrite Hme.
  destruct (decide (length (server.Topology d) = 0%nat)) as [Hlen|Hlen].
  { split_and!; [|done|done]. split; [by intros [e ?]|].
    intros (Htop & _). destruct (server.Topology d); [done | discriminate]. }
  destruct (decide (server.Identifier srv ≠ server.Name me)) as [Hname|Hname].
  { split_and!; [|done|done]. split; [by intros [e ?] | by intros (_ & ? & _)]. }
  assert (Hname' : server.Identifier srv = server.Name me)
    by (destruct (decide (server.Identifier srv = server.Name me)); [done | by destruct Hname]).
  assert (Htop : server.Topology d ≠ []) by (intros Heq; by rewrite Heq in Hlen).
  assert (Hpos : 0 < Z.of_nat (length (server.Topology d))) by lia.
  set (e0 := {| server.doc := d; server.self := me;
                server.incoming := ∅; server.outgoing := ∅ |}).
  destruct (server.isOurLayerSane e0 (server.IsProvider srv)) eqn:Hsane; cbn [negb].
  - assert (Hrole : if server.IsProvider srv then server.Layer me = 255
                    else server.Layer me ≠ 255
                         ∧ server.Layer me < Z.of_nat (length (server.Topology d))).
    { revert Hsane. unfold server.isOurLayerSane, server.LayerProvider. subst e0. cbn.
      destruct (server.IsProvider srv); cbn.
      - by case_bool_decide.
      - repeat case_decide; try done. intros _. split; [done | lia]. }
    assert (Hinc : ∃ m, server.buildMap d (server.incomingLayer e0) ∅ = Ok m).
    { apply buildMap_in_range.
      unfold server.incomingLayer, server.LayerProvider, wrap8. subst e0. cbn.
      destruct (server.IsProvider srv).
      - rewrite decide_True by done.
        pose proof (Z.mod_pos_bound (Z.of_nat (length (server.Topology d))) 256
                      ltac:(lia)) as Hm.
        pose proof (Z.mod_le (Z.of_nat (length (server.Topology d))) 256
                      ltac:(lia) ltac:(lia)) as Hle.
        destruct (decide (Z.of_nat (length (server.Topology d)) `mod` 256 = 0)) as [Hz|Hnz].
        + left. rewrite Hz. reflexivity.
        + right. rewrite Z.mod_small by lia. lia.
      - destruct Hrole as [Hnp Hlt]. rewrite decide_False by done.
        case_decide; [by left|]. right. rewrite Z.mod_small by lia. lia. }
    assert (Hout : ∃ m, server.buildMap d (server.outgoingLayer e0) ∅ = Ok m).
    { apply buildMap_in_range.
      unfold server.outgoingLayer, server.LayerProvider, wrap8. subst e0. cbn.
      destruct (server.IsProvider srv).
      - case_decide; [by left|]. rewrite decide_True by done. right. lia.
      - destruct Hrole as [Hnp Hlt]. case_decide; [by left|].
        rewrite decide_False by done.
        destruct (decide (server.Layer me + 1 = 255)) as [Hs|Hs].
        + left. rewrite Hs. reflexivity.
        + right. rewrite Z.mod_small by lia. lia. }
    destruct Hinc as [inc ->]. destruct Hout as [out ->].
    split_and!.
    + split; [by intros _ | intros _; by eexists].
    + done.
    + intros e [= <-]. done.
  - split_and!; [|done|done]. split; [by intros [e ?]|].
    intros (_ & _ & Hrole). exfalso. revert Hsane.
    unfold server.isOurLayerSane, server.LayerProvider. subst e0. cbn.
    destruct (server.IsProvider srv); cbn.
    + rewrite bool_decide_true by done. done.
    + destruct Hrole as [Hnp Hlt]. rewrite decide_False by done.
      rewrite decide_False by lia. done.
Qed.

End entries.

(** * The data directory *)

(** X17. [initDataDir] succeeds exactly when the path can be examined and either
    does not exist and can be created, or exists as a directory of mode
    [drwx------] and nothing else. After a success the path is such a
    directory. What exists is never changed, so a directory with other
    permissions is refused, not repaired, and a failure leaves the disk as
    it was. *)
Theorem initDataDir_spec (d : string) (stat_error mkdir_error : option string)
    (disk : gmap string Z) :
  ((server.initDataDir d stat_error mkdir_error disk).2 = Ok tt
   ↔ stat_error = None
     ∧ ((disk !! d = None ∧ mkdir_error = None) ∨ disk !! d = Some server.dirMode))
  ∧ ((server.initDataDir d stat_error mkdir_error disk).2 = Ok tt ->
     (server.initDataDir d stat_error mkdir_error disk).1 !! d = Some server.dirMode)
  ∧ (∀ path mode, disk !! path = Some mode ->
       (server.initDataDir d stat_error mkdir_error disk).1 !! path = Some mode)
  ∧ (∀ path, path ≠ d ->
       (server.initDataDir d stat_error mkdir_error disk).1 !! path = disk !! path)
  ∧ (∀ e, (server.initDataDir d stat_error mkdir_error disk).2 = Err e ->
       (server.initDataDir d stat_error mkdir_error disk).1 = disk).
Proof.
  unfold server.initDataDir.
  destruct stat_error as [e|]; [by split_and!; [split; [|intros [? _]]|..]|].
  destruct (disk !! d) as [mode|] eqn:Hd.
  - destruct (server.IsDir mode) eqn:Hdir; cbn [negb].
    + case_decide as Hmode.
      * split_and!; try done. split; [done|]. intros [_ [[? _]|?]]; congruence.
      * assert (mode = server.dirMode) as ->
          by (destruct (decide (mode = server.dirMode)); [done | by destruct Hmode]).
        split_and!; try done. split; [intros _; split; [done | by right] | done].
    + split_and!; try done. split; [done|].
      intros [_ [[? _]|Heq]]; [congruence|]. injection Heq as ->. by vm_compute in Hdir.
  - destruct mkdir_error as [e|].
    + split_and!; try done. split; [done|]. intros [_ [[_ ?]|?]]; congruence.
    + cbn. split_and!; try done.
      * split; [intros _; split; [done | by left] | done].
      * intros _. apply lookup_insert_eq.
      * intros path mode Hp. rewrite lookup_insert_ne; [done|]. congruence.
      * intros path Hne. by rewrite lookup_insert_ne.
Qed.

(** * Worked examples of the further properties *)

Lemma keys_in_order_keys (m : gmap Z server.pkiCacheEntry) (epoch : Z) :
  epoch ∈ keys_in_order m ↔ is_Some (m !! epoch).
Proof.
  unfold keys_in_order. rewrite list_elem_of_fmap. split.
  - intros ([k e] & -> & Hin). apply elem_of_map_to_list in Hin. by eexists.
  - intros [e He]. exists (epoch, e). split; [done|]. by apply elem_of_map_to_list.
Qed.

Lemma values_in_order_elems (m : gmap bytes server.MixDescriptor) (v : server.MixDescriptor) :
  v ∈ values_in_order m ↔ ∃ k, m !! k = Some v.
Proof.
  unfold values_in_order. rewrite list_elem_of_fmap. split.
  - intros ([k v'] & -> & Hin). apply elem_of_map_to_list in Hin. by exists k.
  - intros [k Hk]. exists (k, v). split; [done|]. by apply elem_of_map_to_list.
Qed.

Lemma IsReplay_all_verdicts_witness :
  (IsReplay_all example_world example_key [[Byte.x01]; []; [Byte.x01]]).2 !! 2%nat
  = Some (Ok (bool_decide ([Byte.x01] = [] ∨ storedCount ∅ [Byte.x01] ≠ 0
                           ∨ (storable [Byte.x01]
                              ∧ [Byte.x01] ∈ take 2 [[Byte.x01]; []; [Byte.x01]])))).
Proof.
  refine (proj2 (IsReplay_all_verdicts (PrivateKey := bytes) [[Byte.x01]; []; [Byte.x01]]
                   example_world example_key "data/mixkey-7.db" ∅ _ _ _)
            2%nat [Byte.x01] _).
  - reflexivity.
  - reflexivity.
  - reflexivity.
  - reflexivity.
Defined.

Lemma IsReplay_frame_witness :
  files (mixkey.IsReplay example_world example_key [Byte.x01]).1 !! "data/mixkey-8.db"
  = files example_world !! "data/mixkey-8.db".
Proof.
  refine (proj1 (IsReplay_frame (PrivateKey := bytes) example_world example_key [Byte.x01])
            "data/mixkey-8.db" _).
  discriminate.
Defined.

Lemma New_creates_witness :
  ∃ w',
    mixkey.New (ecdh := raw_Ecdh) empty_world "data" 7 None
    = (w', Err "ecdh: key generation failed")
    ∧ effects w' = effects empty_world ++ [DbClose (mixkey.mixkey_path "data" 7)]
    ∧ files w' = <[mixkey.mixkey_path "data" 7 := ∅]> (files empty_world).
Proof.
  refine (proj2 (New_creates (ecdh := raw_Ecdh) empty_world "data" 7 [Byte.x2a] _ _)).
  - reflexivity.
  - reflexivity.
Defined.

Lemma New_keeps_existing_key_witness :
  mixkey.New (ecdh := raw_Ecdh) stored_world "data" 7 None
  = mixkey.New (ecdh := raw_Ecdh) stored_world "data" 7 (Some [Byte.x2b]).
Proof.
  refine (proj1 (New_keeps_existing_key (ecdh := raw_Ecdh) stored_world
            "data" 7 (Some [Byte.x2b])
            {[ mixkey.metadataBucket := stored_metadata; mixkey.replayBucket := ∅ ]}
            stored_metadata _ _ _) None).
  - reflexivity.
  - reflexivity.
  - by eexists.
Defined.

Lemma unlink_forgets_replays_witness :
  files (mixkey.Deref 10
           (mixkey.IsReplay example_world example_key [Byte.x01]).1
           (mixkey.SetUnlinkIfExpired example_key true)).1.1
    !! mixkey.mixkey_path "data" 7 = None.
Proof.
  refine (proj1 (unlink_forgets_replays (ecdh := raw_Ecdh)
            (mixkey.IsReplay example_world example_key [Byte.x01]).1
            (mixkey.SetUnlinkIfExpired example_key true) "data" 10 [Byte.x2a]
            _ _ _ _ _ _)).
  - reflexivity.
  - vm_compute. reflexivity.
  - reflexivity.
  - reflexivity.
  - reflexivity.
  - vm_compute. reflexivity.
Defined.

Lemma epochs_do_not_share_replays_witness :
  mixkey.mixkey_path "data" 7 ≠ mixkey.mixkey_path "data" 8
  ∧ files (mixkey.IsReplay example_world example_key [Byte.x01]).1 !! mixkey.mixkey_path "data" 8
    = files example_world !! mixkey.mixkey_path "data" 8
  ∧ replay_bucket (mixkey.IsReplay example_world example_key [Byte.x01]).1
      (mixkey.mixkey_path "data" 8)
    = replay_bucket example_world (mixkey.mixkey_path "data" 8).
Proof.
  refine (epochs_do_not_share_replays (PrivateKey := bytes) example_world example_key
            "data" 7 8 [Byte.x01] _ _).
  - lia.
  - vm_compute. reflexivity.
Defined.

Lemma documentsToFetch_spec_witness :
  100 ∈ server.documentsToFetch next_only_cache epoch_end.
Proof.
  refine (proj2 (proj1 (documentsToFetch_spec next_only_cache epoch_end) 100) _).
  split; [reflexivity | by left].
Defined.

Lemma pruneDocuments_spec_witness :
  server.docs (server.pruneDocuments keys_in_order (cache_of 99) epoch_early) !! 99 = None.
Proof.
  exact (proj1 (proj2 (pruneDocuments_spec keys_in_order keys_in_order_keys
                         (cache_of 99) epoch_early)) 99).
Defined.

Lemma worker_round_spec_witness :
  ∃ p',
    server.worker_round keys_in_order findNode fetch_100 (fun _ => false)
      (cache_of 99) epoch_early epoch_early = server.Fetched p' true
    ∧ server.s p' = server.s (cache_of 99)
    ∧ (server.docs p' !! 100 = Some (entry_for 100)
       ∨ (server.docs p' !! 100 = None ∧ 100 < server.now epoch_early)).
Proof.
  assert (Hr : ∃ p', server.worker_round keys_in_order findNode fetch_100
                       (fun _ => false) (cache_of 99) epoch_early epoch_early
                     = server.Fetched p' true).
  { eexists. vm_compute. reflexivity. }
  destruct Hr as [p' Hr]. exists p'. split; [exact Hr|].
  destruct (worker_round_spec keys_in_order keys_in_order_keys findNode fetch_100
              (fun _ => false) (cache_of 99) epoch_early epoch_early p' true Hr)
    as (Hs & _ & _ & _ & Hstored).
  split; [exact Hs|].
  refine (proj2 (Hstored 100 (server.doc (entry_for 100)) (entry_for 100) _ _ _)).
  - vm_compute. by left.
  - reflexivity.
  - vm_compute. reflexivity.
Defined.

Lemma canSend_implies_isValid_witness :
  (server.authenticateIncoming next_only_cache epoch_end creds_x).2 = true.
Proof.
  refine (proj1 (canSend_implies_isValid next_only_cache epoch_end creds_x) _).
  reflexivity.
Defined.

Lemma authenticateIncoming_previous_epoch_only_witness :
  server.authenticateIncoming (cache_of 99) epoch_early creds_x = (true, true).
Proof.
  refine (proj1 (proj2 (authenticateIncoming_previous_epoch_only (cache_of 99) epoch_early
            creds_x (entry_for 99) (node "x" Byte.x07 0) _ _ _ _ _ _ _)) _ _).
  - reflexivity.
  - reflexivity.
  - reflexivity.
  - reflexivity.
  - reflexivity.
  - reflexivity.
  - intros epoch e' Hne He'. cbn in He'.
    rewrite lookup_singleton_ne in He' by (intros <-; by apply Hne).
    discriminate.
  - cbn. unfold server.Minute. lia.
  - cbn. unfold server.Minute. lia.
Defined.

Lemma cache_of_keyed (epoch epoch' : Z) (e : server.pkiCacheEntry) :
  server.docs (cache_of epoch) !! epoch' = Some e ->
  server.Epoch (server.doc e) = epoch'.
Proof.
  cbn. intros He. apply lookup_singleton_Some in He as [<- <-]. reflexivity.
Qed.

Lemma isValidForwardDest_agrees_witness :
  ∃ v, server.authenticateOutgoing (cache_of 100) epoch_early
         {| server.AdditionalData := replicate 32 Byte.x01;
            server.PublicKey := server.LinkKey v |}
       = (Some v, true, true).
Proof.
  refine (proj2 (proj2 (isValidForwardDest_agrees (cache_of 100) epoch_early _)
                   (cache_of_keyed 100))
            (replicate 32 Byte.x01) _ _).
  - reflexivity.
  - reflexivity.
  - reflexivity.
Defined.

Lemma outgoingDestinations_spec_witness :
  is_Some (server.outgoingDestinations values_in_order (cache_of 100) epoch_early
             !! server.copyNodeID (server.IdentityKey (node "gate" Byte.x01 255))).
Proof.
  refine (proj1 (proj2 (outgoingDestinations_spec values_in_order values_in_order_elems
                          (cache_of 100) epoch_early))
            (entry_for 100) (replicate 32 Byte.x01) (node "gate" Byte.x01 255) _ _).
  - exists 100. split; [by left | reflexivity].
  - reflexivity.
Defined.

Lemma newPKICacheEntry_maps_keyed_witness :
  length (replicate 32 Byte.x0c) = 32%nat
  ∧ (node "c" Byte.x0c 2 ∈ server.Providers small_document
     ∨ ∃ nodes, nodes ∈ server.Topology small_document ∧ node "c" Byte.x0c 2 ∈ nodes).
Proof.
  refine (proj2 (proj2 (newPKICacheEntry_maps_keyed findNode gate_server small_document
                          small_entry _))
            (replicate 32 Byte.x0c) (node "c" Byte.x0c 2) _).
  - vm_compute. reflexivity.
  - left. reflexivity.
Defined.

Lemma newPKICacheEntry_outcome_witness :
  server.doc small_entry = small_document
  ∧ server.self small_entry = node "gate" Byte.x01 255.
Proof.
  refine (proj2 (proj2 (newPKICacheEntry_outcome findNode gate_server small_document
                          (node "gate" Byte.x01 255) _ _)) small_entry _).
  - vm_compute. reflexivity.
  - cbn. lia.
  - vm_compute. reflexivity.
Defined.

Lemma initDataDir_spec_witness :
  (server.initDataDir "data" None None {[ "data" := Z.lor server.ModeDir 493 ]}).1
  = {[ "data" := Z.lor server.ModeDir 493 ]}.
Proof.
  refine (proj2 (proj2 (proj2 (proj2
            (initDataDir_spec "data" None None {[ "data" := Z.lor server.ModeDir 493 ]}))))
            "server: DataDir has invalid permissions" _).
  reflexivity.
Defined.

(** * Closed keys and duplicate identities *)

Section closed_keys.
Context {PrivateKey : Type}.
Implicit Types (w : World) (k : mixkey.MixKey PrivateKey) (f : string).

(** X18. A closed key is not resurrected. After the [Deref] that closes a key,
    the first further [Ref] or [Deref] panics without touching the world,
    the key still has neither store nor key pair, and [IsReplay] on it
    panics for every non-empty tag, writing nothing. *)
Theorem closed_key_stays_closed (now : Z) w k f (kp : PrivateKey) (ops : list refop) :
  mixkey.db k = Some f ->
  mixkey.keypair k = Some kp ->
  mixkey.refCount k = 1 ->
  ops ≠ [] ->
  ∃ k' msg,
    run_refops (mixkey.Deref now w k).1.1 (mixkey.Deref now w k).1.2 ops
    = ((mixkey.Deref now w k).1.1, k', Panic msg)
    ∧ mixkey.db k' = None
    ∧ mixkey.keypair k' = None
    ∧ ∀ tag, tag ≠ [] ->
        mixkey.IsReplay (mixkey.Deref now w k).1.1 k' tag
        = ((mixkey.Deref now w k).1.1,
           Panic "invalid memory address or nil pointer dereference").
Proof.
  intros Hdb Hkp Hc Hops.
  rewrite Deref_last by done.
  rewrite (forceClose_open now w (mixkey.set_refCount k 0) f kp) by done.
  cbn [fst snd].
  destruct ops as [|[|now'] rest]; [done | |]; cbn [run_refops].
  - unfold mixkey.Ref. cbn [mixkey.refCount mixkey.set_refCount].
    change (wrap32 (0 + 1)) with 1. rewrite decide_True by lia.
    do 2 eexists. split; [reflexivity|]. split_and!; [done | done |].
    intros tag Htag. unfold mixkey.IsReplay.
    by rewrite decide_False by (by destruct tag).
  - unfold mixkey.Deref. cbn [mixkey.refCount mixkey.set_refCount].
    change (wrap32 (0 - 1)) with (-1). rewrite decide_False by lia.
    rewrite decide_True by lia.
    do 2 eexists. split; [reflexivity|]. split_and!; [done | done |].
    intros tag Htag. unfold mixkey.IsReplay.
    by rewrite decide_False by (by destruct tag).
Qed.

End closed_keys.

Lemma closed_key_stays_closed_witness :
  ∃ k' msg,
    run_refops (mixkey.Deref 8 example_world example_key).1.1
      (mixkey.Deref 8 example_world example_key).1.2 [OpRef]
    = ((mixkey.Deref 8 example_world example_key).1.1, k', Panic msg)
    ∧ mixkey.db k' = None
    ∧ mixkey.keypair k' = None.
Proof.
  destruct (closed_key_stays_closed (PrivateKey := bytes) 8 example_world example_key
              "data/mixkey-7.db" [Byte.x2a] [OpRef] eq_refl eq_refl eq_refl
              ltac:(discriminate))
    as (k' & msg & Hrun & Hdb & Hkp & _).
  exists k', msg. exact (conj Hrun (conj Hdb Hkp)).
Defined.

Section duplicates.
Implicit Types (d : server.Document) (v : server.MixDescriptor).

Lemma foldl_insert_last (after : list server.MixDescriptor) :
  ∀ (m : gmap bytes server.MixDescriptor) v,
    m !! server.copyNodeID (server.IdentityKey v) = Some v ->
    (∀ v', v' ∈ after ->
       server.copyNodeID (server.IdentityKey v') ≠ server.copyNodeID (server.IdentityKey v)) ->
    foldl (fun m v => <[server.copyNodeID (server.IdentityKey v) := v]> m) m after
      !! server.copyNodeID (server.IdentityKey v) = Some v.
Proof.
  induction after as [|v0 rest IH]; intros m v Hm Hne; [done|].
  cbn [foldl]. apply IH.
  - rewrite lookup_insert_ne; [done|]. apply Hne. by left.
  - intros v' Hv'. apply Hne. by right.
Qed.

(** X19. When several descriptors of a layer share a node id, the map built for
    the layer files the last of them under it. *)
Theorem buildMap_last_wins d (layer : Z) (m : gmap bytes server.MixDescriptor)
    (before after : list server.MixDescriptor) v :
  server.buildMap d layer ∅ = Ok m ->
  (if decide (layer = server.LayerProvider) then Some (server.Providers d)
   else server.Topology d !! Z.to_nat layer) = Some (before ++ v :: after) ->
  (∀ v', v' ∈ after ->
     server.copyNodeID (server.IdentityKey v') ≠ server.copyNodeID (server.IdentityKey v)) ->
  m !! server.copyNodeID (server.IdentityKey v) = Some v.
Proof.
  unfold server.buildMap. intros Hm Hnodes Hlast. rewrite Hnodes in Hm.
  injection Hm as <-. rewrite foldl_app. cbn [foldl].
  apply foldl_insert_last; [apply lookup_insert_eq | done].
Qed.

End duplicates.

Lemma buildMap_last_wins_witness :
  ∃ m,
    server.buildMap
      {| server.Epoch := 100; server.Topology := [];
         server.Providers := [node "old" Byte.x01 255; node "new" Byte.x01 255] |}
      255 ∅ = Ok m
    ∧ m !! server.copyNodeID (server.IdentityKey (node "new" Byte.x01 255))
      = Some (node "new" Byte.x01 255).
Proof.
  eexists. split; [reflexivity|].
  refine (buildMap_last_wins
            {| server.Epoch := 100; server.Topology := [];
               server.Providers := [node "old" Byte.x01 255; node "new" Byte.x01 255] |}
            255 _ [node "old" Byte.x01 255] [] (node "new" Byte.x01 255) _ _ _).
  - reflexivity.
  - reflexivity.
  - intros v' Hv'. by apply elem_of_nil in Hv'.
Defined.
